(* ===== verification/_CoqProject ===== *)
-Q . S2P
Prelude.v
Lexer.v
Lexeme.v
Ast.v
Syntax.v
Unparse.v
Frontend.v
Interp.v
Shader.v
Driver.v
