(* ===== verification/Prelude.v ===== *)
(** * slayout: a verification development for the layout-script compiler

    The program (C++, under [src/]) compiles a small layout script into a
    macro table and a set of shader backends, then rewrites a shader
    template once per backend.  Its parts, leaves first:

    - [src/include/tokenizer.h], [src/src/tokenizer.cpp]: class
      [Tokenizer], a one-pass scanner over a [std::string] with a cursor
      [pos] and the counters [line] and [column].
    - [src/include/parser.h], [src/src/parser.cpp]: the statement
      classes and class [Parser], a recursive-descent parser over the
      token vector with a cursor [current].
    - [src/include/interpreter.h], [src/src/interpreter.cpp]: class
      [Interpreter], which executes statements against five tables
      ([macros], [bools], [requiredBackends], [varToMacroName],
      [strings]).
    - [src/include/shader_processor.h], [src/src/shader_processor.cpp]:
      the [%MACRO] substitution over the shader text.
    - [src/src/main.cpp]: the command line, which chains the four.

    ** Files of the development

    - [Prelude] (this file): what every component shares.  The outcome
      of a C++ call ([result]: a value, a thrown exception, undefined
      behaviour, or the model's fuel exhausted), the state-and-exception
      monad [M S A] in which member functions are written, the loop
      combinator [loop] that models [while], [do ... while] and
      [while (true) ... break], the range loops [for_each] and
      [for_acc], a weakest-precondition calculus [wp] with its rules
      (total: [wp] excludes both undefined behaviour and running out of
      fuel), its partial counterpart [partial] (an invariant of the
      state and a set of exceptions, used for what a component can
      throw), the "C" locale character classes of [<cctype>], the
      string operations the components share ([substr] throws
      [std::out_of_range] past the end), and the tactics and hint
      databases of the development.
    - [Lexer]: [TokenType] and [Token] of tokenizer.h, and Module
      [Tokenizer] with one definition per member function of
      tokenizer.cpp, followed by the scanner's theorems and the
      interface [Scanner] the parser is proved against.
    - [Lexeme]: the text of a token ([lexeme], with the escapes of a
      string literal), the text of a token list ([print]) and the round
      trip of the scanner, proved with the equations of the scanner on
      a source whose next characters are known.
    - [Ast]: [Backend] and the statement classes of parser.h as one
      inductive type [Statement], its induction principle through the
      nested body of [IfStatement], and the well-formedness predicate
      [wf_statement] the parser establishes and the interpreter relies
      on.
    - [Syntax]: Module [Parser], one definition per member function of
      parser.cpp, the parser's theorems, its errors ([syntax_error],
      proved with [partial] on every token vector) and the interface
      [StatementParser].
    - [Unparse]: the concrete syntax of a statement as tokens
      ([unparse]) and the parser on known tokens: the round trip (it
      returns the statements whose tokens it is given) and the error
      at the first token that starts no statement.
    - [Frontend]: the scanner and the parser together: a simulation
      between two runs of the parser on tokens that differ in their
      positions only, and the round trip from the text of a program
      ([script]) to its statements.
    - [Interp]: [Macro] and Module [Interpreter]: [execute],
      [execute_block], [interpret], [load_file] and [to_lower] of
      interpreter.cpp over a record of [gmap]s and a [gset]; the
      invariant [Interpreter.inv] of the tables, the order
      [Interpreter.le] on states, the per-statement behaviour, the
      relation [Interpreter.fails] that says when a statement throws
      and what, and the interface [Evaluator].
    - [Shader]: [World.t] (the files and the two streams),
      [regex_search] for the one pattern of shader_processor.cpp, and
      Module [ShaderProcessor] with [process_shader]; the pattern
      written out character by character ([leftmost_match]) against
      which [regex_search] is proved; the reference definitions
      [segments] (by well-founded recursion, with Equations),
      [resolve] and [expand], and the equivalence of the loop with
      them.
    - [Driver]: [compile] (scan, parse, interpret) and [main] of
      main.cpp; the theorems about the whole program, those on
      [compile] proved against the three interfaces.

    ** How state and effects are modelled

    A member function [T C::f(args)] is a definition
    [f : args -> M C T]: it takes the object's fields as a record and
    returns [Ok (value, fields')], or [Throw e] for a C++ exception
    ([runtime_error what] with the exact message of the source,
    [out_of_range] for [std::map::at]), or [Undefined] where the C++
    would index a vector out of bounds.  Machine integers ([int line],
    [int column]) are [Z]; [size_t] cursors are [nat]; the theorems
    bound the counters by the input length, so no [int] overflows on an
    input shorter than [2^31 - 1] characters.  [std::string] is
    [string], [char] is [ascii], [std::map] is [gmap], [std::set] is
    [gset] (iterated in the order of [std::string::compare]),
    [std::vector] is [list].

    The interpreter's state holds its five tables and what it wrote to
    [std::cout] and [std::cerr]; the files it reads are a parameter
    [fs], a [gmap] from path to contents.  The shader processor and
    [main] act on [World.t]: the files, which [process_shader] reads
    and writes, and the two streams; whether a path can be opened for
    writing is a parameter [writable].  [main] hands the files of its
    state to the interpreter and appends the interpreter's output to
    its streams.  An exception that leaves [main] is the [Throw] of its
    result; the lines a stage wrote before it threw are not kept in
    that result ([main_throws] in [Driver] gives the files at the call
    that fails).

    ** Fuel

    Loops that are not structural run on fuel.  Every scanner loop is
    given [S (String.length source)] iterations, every parser loop and
    the parser's recursion [S (length tokens)], the loop of
    [process_shader] [S (String.length shaderCode)]: each iteration
    consumes at least one character or token, or leaves the loop.  The
    theorems of kind termination prove that this fuel is never
    exhausted, for every input.  The interpreter's loops are range
    loops over a vector and need none.

    ** What the theorems show

    - Lexer: the scanner terminates on every input; a successful scan
      ends with exactly one [EndOfFile] token; no [Plus] token is ever
      produced (tokenizer.cpp has no case for ['+']); keywords are
      classified by the fixed list of tokenizer.cpp; [line] and [column]
      stay within [1 .. length + 1]; the two lexical errors; and the
      round trip with [print]: tokens written as text are scanned back
      with the same kinds and texts.
    - Parser: on a token vector that ends with [EndOfFile] (which the
      scanner guarantees) the parser never indexes out of bounds and
      never runs out of fuel; every setter it builds has argument
      vectors of one length; what a statement parsed from a scanned
      script can be; the round trip with [unparse]: every program
      that can be written is accepted and read back as it was written;
      and its errors: the messages it can throw on any token vector,
      each with the line or the text of a token of the vector
      ([substr] never throws), and "Unknown statement" with the line of
      the first token that starts no statement.
    - Front end: the parser's result does not depend on the positions
      of the tokens (only the line named in an error message does); a
      program written as text is scanned and parsed back to its
      statements, so compiling that text is interpreting them.
    - Interpreter: no out-of-bounds access on well-formed statements;
      the table invariant and its preservation by every statement;
      nothing is ever removed from a table; macro names are unique; the
      value of a setter against a reference definition; [if] in the
      flat scope; [generate_select] as a union; and the errors,
      exactly: a run throws if and only if [fails] holds of its first
      failing statement.
    - Shader processor: [regex_search] is the leftmost match of the
      pattern with the longest name, and the only one;
      [process_shader] against its reference definition on every
      template; termination; templates without a percent sign; and,
      on the tables a run of the interpreter ends with, the three
      tiers of [replacement].
    - Driver: [compile] and [main] terminate without undefined
      behaviour on every input; what [main] writes on success; the
      missing layout file; the missing template; where a failed run
      stops.
    - The scripts of the specification's test list are evaluated as
      examples in [Interp], [Shader] and [Driver].

    ** Not modelled

    [export_macro_metadata] (it only serialises through the JSON
    library and nothing calls it), the failure modes of streams beyond
    a file that cannot be opened, the output written before an
    exception, and the locale machinery of [<cctype>] and
    [std::regex] (the "C" locale is assumed: bytes above 127 are
    neither letters, digits nor spaces). *)

From Stdlib Require Import Ascii.
From stdpp Require Import base tactics option list strings pretty.

(** ** Outcomes of a C++ call *)

Inductive exception : Type :=
| runtime_error (what : string)
| out_of_range (what : string).

Inductive result (A : Type) : Type :=
| Ok (a : A)
| Throw (e : exception)
| Undefined
| OutOfFuel.
Arguments Ok {A} a.
Arguments Throw {A} e.
Arguments Undefined {A}.
Arguments OutOfFuel {A}.

#[export] Instance exception_eq_dec : EqDecision exception.
Proof. solve_decision. Defined.

#[export] Instance result_eq_dec `{EqDecision A} : EqDecision (result A).
Proof. solve_decision. Defined.

(** [f <$> r]: [f] on the value of a call that returned. *)
#[export] Instance result_fmap : FMap result := fun A B f r =>
  match r with
  | Ok a => Ok (f a)
  | Throw e => Throw e
  | Undefined => Undefined
  | OutOfFuel => OutOfFuel
  end.

(** ** The state-and-exception monad *)

Definition M (S A : Type) : Type := S -> result (A * S).

Definition ret {S A} (a : A) : M S A := fun s => Ok (a, s).

Definition bind {S A B} (m : M S A) (k : A -> M S B) : M S B :=
  fun s =>
    match m s with
    | Ok (a, s') => k a s'
    | Throw e => Throw e
    | Undefined => Undefined
    | OutOfFuel => OutOfFuel
    end.

Definition throw {S A} (e : exception) : M S A := fun _ => Throw e.
Definition undefined {S A} : M S A := fun _ => Undefined.
Definition out_of_fuel {S A} : M S A := fun _ => OutOfFuel.
Definition get {S} : M S S := fun s => Ok (s, s).
Definition put {S} (s : S) : M S unit := fun _ => Ok (tt, s).
Definition gets {S A} (f : S -> A) : M S A := fun s => Ok (f s, s).
Definition modify {S} (f : S -> S) : M S unit := fun s => Ok (tt, f s).

(** The value of a run, the state dropped. *)
Definition eval {S A} (m : M S A) (s : S) : result A :=
  match m s with
  | Ok (a, _) => Ok a
  | Throw e => Throw e
  | Undefined => Undefined
  | OutOfFuel => OutOfFuel
  end.

(** The final state of a run, the value dropped. *)
Definition exec {S A} (m : M S A) (s : S) : result S :=
  match m s with
  | Ok (_, s') => Ok s'
  | Throw e => Throw e
  | Undefined => Undefined
  | OutOfFuel => OutOfFuel
  end.

Declare Scope prog_scope.
Delimit Scope prog_scope with prog.
Bind Scope prog_scope with M.

Notation "x <- m ;; k" := (bind m (fun x => k))
  (at level 20, m at level 99, k at level 200, only parsing) : prog_scope.
Notation "' p <- m ;; k" := (bind m (fun x => match x with p => k end))
  (at level 20, p pattern, m at level 99, k at level 200, only parsing)
  : prog_scope.
Notation "m ;; k" := (bind m (fun _ => k))
  (at level 100, k at level 200, only parsing, right associativity)
  : prog_scope.
#[global] Open Scope prog_scope.

(** ** Loops

    [loop fuel body a] runs [body] on the loop-carried locals [a] until
    it answers [Break]; [while] and [do_while] are its two usual
    shapes. *)

Inductive control (A : Type) : Type :=
| Continue (a : A)
| Break (a : A).
Arguments Continue {A} a.
Arguments Break {A} a.

Fixpoint loop {S A} (fuel : nat) (body : A -> M S (control A)) (a : A)
  : M S A :=
  match fuel with
  | O => out_of_fuel
  | Datatypes.S n =>
      r <- body a ;;
      match r with
      | Continue a' => loop n body a'
      | Break a' => ret a'
      end
  end.

Definition while {S A} (fuel : nat) (cond : A -> M S bool)
  (body : A -> M S A) (a : A) : M S A :=
  loop fuel
    (fun a => b <- cond a ;;
              if b : bool then a' <- body a ;; ret (Continue a')
              else ret (Break a))
    a.

Definition do_while {S A} (fuel : nat) (body : A -> M S A)
  (cond : A -> M S bool) (a : A) : M S A :=
  loop fuel
    (fun a => a' <- body a ;;
              b <- cond a' ;;
              ret (if b : bool then Continue a' else Break a'))
    a.

(** A range-based [for] over a vector. *)
Definition for_each {S A} (f : A -> M S unit) : list A -> M S unit :=
  fix go (l : list A) : M S unit :=
    match l with
    | [] => ret tt
    | x :: l' => f x ;; go l'
    end.

(** A range-based [for] that updates a local. *)
Definition for_acc {S A B} (f : B -> A -> M S B) : list A -> B -> M S B :=
  fix go (l : list A) (b : B) : M S B :=
    match l with
    | [] => ret b
    | x :: l' => b' <- f b x ;; go l' b'
    end.

(** ** Weakest preconditions

    [wp m s Q E]: from state [s] the call [m] either returns a value and
    a state that satisfy [Q], or throws an exception that satisfies [E];
    it neither has undefined behaviour nor exhausts its fuel. *)

Definition wp {S A} (m : M S A) (s : S) (Q : A -> S -> Prop)
  (E : exception -> Prop) : Prop :=
  match m s with
  | Ok (a, s') => Q a s'
  | Throw e => E e
  | Undefined => False
  | OutOfFuel => False
  end.

(** [partial I E m Q]: from a state of [I], if the call [m] returns,
    the state is in [I] and the value in [Q]; if it throws, the
    exception is in [E].  Nothing is said of a call that does
    neither. *)
Definition partial {S A} (I : S -> Prop) (E : exception -> Prop)
  (m : M S A) (Q : A -> Prop) : Prop :=
  forall s, I s ->
    match m s with
    | Ok (a, s') => I s' /\ Q a
    | Throw e => E e
    | Undefined | OutOfFuel => True
    end.

(** [wp] with no exception allowed. *)
Definition noexcept : exception -> Prop := fun _ => False.
(** [wp] with any exception allowed. *)
Definition anyexcept : exception -> Prop := fun _ => True.

(** ** Characters: [<cctype>] in the "C" locale *)

Open Scope char_scope.

Definition char_code (c : ascii) : N := N_of_ascii c.

Definition in_range (lo hi : N) (c : ascii) : bool :=
  (lo <=? char_code c)%N && (char_code c <=? hi)%N.

Definition isupper (c : ascii) : bool := in_range 65 90 c.
Definition islower (c : ascii) : bool := in_range 97 122 c.
Definition isalpha (c : ascii) : bool := isupper c || islower c.
Definition isdigit (c : ascii) : bool := in_range 48 57 c.
Definition isalnum (c : ascii) : bool := isalpha c || isdigit c.
Definition isspace (c : ascii) : bool :=
  in_range 9 13 c || bool_decide (c = " ").
Definition tolower (c : ascii) : ascii :=
  if isupper c then ascii_of_N (char_code c + 32) else c.

(** Named characters of the sources. *)
Definition NUL : ascii := "000".
Definition NL : ascii := "010".
Definition DQUOTE : ascii := "034".

(** The string literal of a script whose contents are [s]. *)
Definition quoted (s : string) : string :=
  String DQUOTE (s +:+ String DQUOTE EmptyString).
Definition BACKSLASH : ascii := "092".

Close Scope char_scope.

(** ** [std::string] *)

(** [s += c]. *)
Definition push_back (s : string) (c : ascii) : string :=
  s +:+ String c "".

(** [std::transform(..., tolower)] over a whole string. *)
Fixpoint map_string (f : ascii -> ascii) (s : string) : string :=
  match s with
  | EmptyString => EmptyString
  | String c s' => String (f c) (map_string f s')
  end.

(** Every character of [s] satisfies [p]. *)
Fixpoint string_forall (p : ascii -> bool) (s : string) : bool :=
  match s with
  | EmptyString => true
  | String c s' => p c && string_forall p s'
  end.

(** [s[i]], for [i] within the string. *)
Definition string_at (s : string) (i : nat) : option ascii := String.get i s.

(** [std::to_string(int)]. *)
Definition to_string (n : Z) : string := pretty n.

(** [s.find(pat)]; [None] is [std::string::npos]. *)
Definition find (s pat : string) : option nat := String.index 0 pat s.

(** The characters of [s] from [pos] on. *)
Definition from_pos (s : string) (pos : nat) : string :=
  String.substring pos (String.length s - pos) s.

(** [s.substr(pos)]: [std::out_of_range] when [pos] is past the end. *)
Definition substr {S} (s : string) (pos : nat) : M S string :=
  if bool_decide (pos <= String.length s) then ret (from_pos s pos)
  else throw (out_of_range "basic_string::substr").

(** ** Tactics and hint databases *)

Create HintDb slayout discriminated.
Create Rewrite HintDb slayout_rw.

(** Case analysis on the outcome of the first call of a [bind]. *)
Ltac destruct_bind :=
  match goal with
  | |- context [bind ?m _ ?s] =>
      unfold bind at 1; destruct (m s) as [[? ?]|?| |] eqn:?
  | H : context [bind ?m _ ?s] |- _ =>
      unfold bind at 1 in H; destruct (m s) as [[? ?]|?| |] eqn:?
  end.

(** ** Rules of the calculus *)

Section Wp.
Context {S : Type}.
Implicit Types (s : S) (E : exception -> Prop).

Lemma wp_ret {A} (a : A) s (Q : A -> S -> Prop) E :
  Q a s -> wp (ret a) s Q E.
Proof. done. Qed.

Lemma wp_bind {A B} (m : M S A) (k : A -> M S B) s (Q : B -> S -> Prop) E :
  wp m s (fun a s' => wp (k a) s' Q E) E -> wp (bind m k) s Q E.
Proof. unfold wp, bind. by destruct (m s) as [[a s']|e| |]. Qed.

Lemma wp_bind_inv {A B} (m : M S A) (k : A -> M S B) s
    (Q : B -> S -> Prop) E :
  wp (bind m k) s Q E -> wp m s (fun a s' => wp (k a) s' Q E) E.
Proof. unfold wp, bind. by destruct (m s) as [[a s']|e| |]. Qed.

Lemma wp_throw {A} e s (Q : A -> S -> Prop) E :
  E e -> wp (throw e) s Q E.
Proof. done. Qed.

Lemma wp_get s (Q : S -> S -> Prop) E : Q s s -> wp get s Q E.
Proof. done. Qed.

Lemma wp_put s s' (Q : unit -> S -> Prop) E : Q tt s' -> wp (put s') s Q E.
Proof. done. Qed.

Lemma wp_gets {A} (f : S -> A) s (Q : A -> S -> Prop) E :
  Q (f s) s -> wp (gets f) s Q E.
Proof. done. Qed.

Lemma wp_modify (f : S -> S) s (Q : unit -> S -> Prop) E :
  Q tt (f s) -> wp (modify f) s Q E.
Proof. done. Qed.

(** Consequence: weaken both postconditions. *)
Lemma wp_mono {A} (m : M S A) s (Q Q' : A -> S -> Prop) E E' :
  wp m s Q E ->
  (forall a s', Q a s' -> Q' a s') ->
  (forall e, E e -> E' e) ->
  wp m s Q' E'.
Proof. unfold wp. destruct (m s) as [[a s']|e| |]; auto. Qed.

Lemma wp_post {A} (m : M S A) s (Q Q' : A -> S -> Prop) E :
  wp m s Q E -> (forall a s', Q a s' -> Q' a s') -> wp m s Q' E.
Proof. eauto using wp_mono. Qed.

Lemma wp_and {A} (m : M S A) s (Q1 Q2 : A -> S -> Prop) E :
  wp m s Q1 E -> wp m s Q2 E -> wp m s (fun a s' => Q1 a s' /\ Q2 a s') E.
Proof. unfold wp. destruct (m s) as [[a s']|e| |]; auto. Qed.

(** What a [wp] says of each outcome. *)
Lemma wp_ok {A} (m : M S A) s Q E a s' :
  wp m s Q E -> m s = Ok (a, s') -> Q a s'.
Proof. unfold wp. intros H Heq. by rewrite Heq in H. Qed.

Lemma wp_throws {A} (m : M S A) s Q E e :
  wp m s Q E -> m s = Throw e -> E e.
Proof. unfold wp. intros H Heq. by rewrite Heq in H. Qed.

Lemma wp_defined {A} (m : M S A) s Q E : wp m s Q E -> m s <> Undefined.
Proof. unfold wp. intros H Heq. by rewrite Heq in H. Qed.

Lemma wp_fuel {A} (m : M S A) s Q E : wp m s Q E -> m s <> OutOfFuel.
Proof. unfold wp. intros H Heq. by rewrite Heq in H. Qed.

Lemma wp_intro {A} (m : M S A) s (Q : A -> S -> Prop) E :
  m s <> Undefined -> m s <> OutOfFuel ->
  (forall a s', m s = Ok (a, s') -> Q a s') ->
  (forall e, m s = Throw e -> E e) ->
  wp m s Q E.
Proof. unfold wp. destruct (m s) as [[a s']|e| |]; auto; done. Qed.

(** The loop rule, with an invariant [I] on the locals and the state and
    a variant [mu] that every [Continue] decreases. *)
Lemma wp_loop {A} (I : A -> S -> Prop) (mu : A -> S -> nat)
    (body : A -> M S (control A)) (Q : A -> S -> Prop) E fuel a s :
  (forall a s, I a s ->
     wp (body a) s
        (fun r s' => match r with
                     | Continue a' => I a' s' /\ mu a' s' < mu a s
                     | Break a' => Q a' s'
                     end) E) ->
  I a s -> mu a s < fuel ->
  wp (loop fuel body a) s Q E.
Proof.
  intros Hbody. revert a s.
  induction fuel as [|n IH]; intros a s HI Hmu; [lia|].
  cbn [loop]. apply wp_bind.
  eapply wp_post; [by apply Hbody|].
  intros [a'|a'] s'; cbn; [|done].
  intros [HI' Hlt]. apply IH; [done|lia].
Qed.

Lemma wp_while {A} (I : A -> S -> Prop) (mu : A -> S -> nat)
    (cond : A -> M S bool) (body : A -> M S A) (Q : A -> S -> Prop)
    E fuel a s :
  (forall a s, I a s ->
     wp (cond a) s
        (fun b s' =>
           if b then wp (body a) s'
                       (fun a' s'' => I a' s'' /\ mu a' s'' < mu a s) E
           else Q a s') E) ->
  I a s -> mu a s < fuel ->
  wp (while fuel cond body a) s Q E.
Proof.
  intros Hc HI Hmu. unfold while.
  eapply (wp_loop I mu); [|done..].
  clear a s HI Hmu. intros a s HI. apply wp_bind.
  eapply wp_post; [by apply Hc|].
  intros [|] s' H; cbn in *; [|done].
  apply wp_bind. eapply wp_post; [exact H|]. by intros a' s''.
Qed.

Lemma wp_do_while {A} (I : A -> S -> Prop) (mu : A -> S -> nat)
    (body : A -> M S A) (cond : A -> M S bool) (Q : A -> S -> Prop)
    E fuel a s :
  (forall a s, I a s ->
     wp (body a) s
        (fun a' s' =>
           wp (cond a') s'
              (fun b s'' =>
                 if b then I a' s'' /\ mu a' s'' < mu a s
                 else Q a' s'') E) E) ->
  I a s -> mu a s < fuel ->
  wp (do_while fuel body cond a) s Q E.
Proof.
  intros Hb HI Hmu. unfold do_while.
  eapply (wp_loop I mu); [|done..].
  clear a s HI Hmu. intros a s HI. apply wp_bind.
  eapply wp_post; [by apply Hb|].
  intros a' s' H; cbn in *. apply wp_bind.
  eapply wp_post; [exact H|]. by intros [|] s''.
Qed.

Lemma wp_for_each {A} (I : list A -> S -> Prop) (f : A -> M S unit)
    E l s :
  (forall x l' s, I (x :: l') s -> wp (f x) s (fun _ s' => I l' s') E) ->
  I l s ->
  wp (for_each f l) s (fun _ s' => I [] s') E.
Proof.
  intros Hf. revert s. induction l as [|x l IH]; intros s HI; [done|].
  simpl. apply wp_bind.
  eapply wp_post; [by apply Hf|]. intros ? s' HI'. by apply IH.
Qed.

Lemma wp_for_acc {A B} (I : list A -> B -> S -> Prop) (f : B -> A -> M S B)
    E l b s :
  (forall x l' b s, I (x :: l') b s ->
     wp (f b x) s (fun b' s' => I l' b' s') E) ->
  I l b s ->
  wp (for_acc f l b) s (fun b' s' => I [] b' s') E.
Proof.
  intros Hf. revert b s. induction l as [|x l IH]; intros b s HI; [done|].
  simpl. apply wp_bind.
  eapply wp_post; [by apply Hf|]. intros b' s' HI'. by apply IH.
Qed.

Lemma for_each_nil {A} (f : A -> M S unit) : for_each f [] = ret tt.
Proof. reflexivity. Qed.

Lemma for_each_cons {A} (f : A -> M S unit) x l :
  for_each f (x :: l) = (f x ;; for_each f l).
Proof. reflexivity. Qed.

Lemma for_each_app {A} (f : A -> M S unit) l1 l2 s :
  for_each f (l1 ++ l2) s = (for_each f l1 ;; for_each f l2) s.
Proof.
  revert s. induction l1 as [|x l1 IH]; intros s; simpl.
  - done.
  - unfold bind at 1 2 3. destruct (f x s) as [[[] s']| | |]; [|done..].
    apply IH.
Qed.

(** A range loop that throws has run its body on the elements before
    the one on which the body throws. *)
Lemma for_each_throw {A} (f : A -> M S unit) l s e :
  for_each f l s = Throw e ->
  exists l1 x l2 s1,
    l = l1 ++ x :: l2 /\ for_each f l1 s = Ok (tt, s1) /\ f x s1 = Throw e.
Proof.
  revert s. induction l as [|x l IH]; intros s; [done|].
  rewrite for_each_cons. unfold bind at 1.
  destruct (f x s) as [[[] s']|e'| |] eqn:Hx; try done.
  - intros (l1 & y & l2 & s1 & -> & Hl1 & Hy)%IH.
    exists (x :: l1), y, l2, s1. split_and!; [done| |done].
    rewrite for_each_cons. unfold bind. by rewrite Hx.
  - intros [= ->]. by exists [], x, l, s.
Qed.

(** Conversely, the loop throws what its body throws after a prefix
    on which it returned. *)
Lemma for_each_throw_at {A} (f : A -> M S unit) l1 x l2 s s1 e :
  for_each f l1 s = Ok (tt, s1) -> f x s1 = Throw e ->
  for_each f (l1 ++ x :: l2) s = Throw e.
Proof.
  intros Hl1 Hx. rewrite for_each_app. unfold bind at 1. rewrite Hl1.
  rewrite for_each_cons. unfold bind. by rewrite Hx.
Qed.

End Wp.

(** ** Rules of partial correctness *)

Section Partial.
Context {S : Type} (I : S -> Prop) (E : exception -> Prop).

Lemma partial_ret {A} (a : A) (Q : A -> Prop) : Q a -> partial I E (ret a) Q.
Proof. by intros Ha s Hs. Qed.

Lemma partial_throw {A} e (Q : A -> Prop) : E e -> partial I E (throw e) Q.
Proof. by intros He s Hs. Qed.

Lemma partial_get : partial I E get I.
Proof. by intros s Hs. Qed.

Lemma partial_modify (f : S -> S) :
  (forall s, I s -> I (f s)) -> partial I E (modify f) (fun _ => True).
Proof. intros Hf s Hs. split; auto. Qed.

Lemma partial_bind {A B} (m : M S A) (k : A -> M S B) Q R :
  partial I E m Q -> (forall a, Q a -> partial I E (k a) R) ->
  partial I E (bind m k) R.
Proof.
  intros Hm Hk s Hs. specialize (Hm s Hs). unfold bind.
  destruct (m s) as [[a s']|e| |]; try done. destruct Hm. by apply Hk.
Qed.

Lemma partial_post {A} (m : M S A) (Q R : A -> Prop) :
  partial I E m Q -> (forall a, Q a -> R a) -> partial I E m R.
Proof.
  intros Hm HQR s Hs. specialize (Hm s Hs).
  destruct (m s) as [[a s']|e| |]; try done. destruct Hm. auto.
Qed.

Lemma partial_loop {A} (body : A -> M S (control A)) (Q : A -> Prop) fuel :
  (forall a, Q a ->
     partial I E (body a)
       (fun c => match c with Continue a' | Break a' => Q a' end)) ->
  forall a, Q a -> partial I E (loop fuel body a) Q.
Proof.
  intros Hbody. induction fuel as [|fuel IH]; intros a Ha; [done|].
  cbn [loop]. eapply partial_bind; [by apply Hbody|].
  intros [a'|a'] Ha'; [by apply IH|by apply partial_ret].
Qed.

Lemma partial_while {A} (cond : A -> M S bool) (body : A -> M S A)
    (Q : A -> Prop) fuel a :
  (forall a, Q a -> partial I E (cond a) (fun _ => True)) ->
  (forall a, Q a -> partial I E (body a) Q) ->
  Q a -> partial I E (while fuel cond body a) Q.
Proof.
  intros Hc Hb. apply partial_loop. clear a. intros a Ha.
  eapply partial_bind; [by apply Hc|]. intros [|] _; [|by apply partial_ret].
  eapply partial_bind; [by apply Hb|]. intros a' Ha'. by apply partial_ret.
Qed.

Lemma partial_do_while {A} (body : A -> M S A) (cond : A -> M S bool)
    (Q : A -> Prop) fuel a :
  (forall a, Q a -> partial I E (body a) Q) ->
  (forall a, Q a -> partial I E (cond a) (fun _ => True)) ->
  Q a -> partial I E (do_while fuel body cond a) Q.
Proof.
  intros Hb Hc. apply partial_loop. clear a. intros a Ha.
  eapply partial_bind; [by apply Hb|]. intros a' Ha'.
  eapply partial_bind; [by apply Hc|]. intros [|] _; by apply partial_ret.
Qed.

(** What a run from a state of [I] throws is in [E]. *)
Lemma partial_throws {A} (m : M S A) Q s e :
  partial I E m Q -> I s -> eval m s = Throw e -> E e.
Proof.
  intros Hm Hs. specialize (Hm s Hs). unfold eval.
  destruct (m s) as [[a s']|e'| |]; try done. by intros [= <-].
Qed.

End Partial.

(** One round of a loop that is followed by [k]. *)
Lemma bind_loop_S {S A B} (body : A -> M S (control A)) (k : A -> M S B)
    fuel a s :
  bind (loop (Datatypes.S fuel) body a) k s =
  match body a s with
  | Ok (Continue a', s') => bind (loop fuel body a') k s'
  | Ok (Break a', s') => k a' s'
  | Throw e => Throw e
  | Undefined => Undefined
  | OutOfFuel => OutOfFuel
  end.
Proof.
  cbn [loop]. unfold bind. by destruct (body a s) as [[[a'|a'] s']|e| |].
Qed.

(** ** Running a computation whose result is known *)

Lemma bind_ok {S A B} (m : M S A) (k : A -> M S B) s a s' :
  m s = Ok (a, s') -> bind m k s = k a s'.
Proof. unfold bind. by intros ->. Qed.

Lemma loop_continue {S A} (body : A -> M S (control A)) fuel a s a' s' :
  body a s = Ok (Continue a', s') ->
  loop (Datatypes.S fuel) body a s = loop fuel body a' s'.
Proof. intros Hb. cbn [loop]. by rewrite (bind_ok _ _ _ _ _ Hb). Qed.

Lemma loop_break {S A} (body : A -> M S (control A)) fuel a s a' s' :
  body a s = Ok (Break a', s') ->
  loop (Datatypes.S fuel) body a s = Ok (a', s').
Proof. intros Hb. cbn [loop]. by rewrite (bind_ok _ _ _ _ _ Hb). Qed.

Lemma while_true {S A} (cond : A -> M S bool) (body : A -> M S A)
    fuel a s s1 a' s2 :
  cond a s = Ok (true, s1) -> body a s1 = Ok (a', s2) ->
  while (Datatypes.S fuel) cond body a s = while fuel cond body a' s2.
Proof.
  intros Hc Hb. unfold while. cbn [loop].
  rewrite (bind_ok _ _ s (Continue a') s2); [done|].
  rewrite (bind_ok _ _ _ _ _ Hc). by rewrite (bind_ok _ _ _ _ _ Hb).
Qed.

Lemma while_throw {S A} (cond : A -> M S bool) (body : A -> M S A)
    fuel a s s1 e :
  cond a s = Ok (true, s1) -> body a s1 = Throw e ->
  while (Datatypes.S fuel) cond body a s = Throw e.
Proof.
  intros Hc Hb. unfold while. cbn [loop]. unfold bind at 1.
  rewrite (bind_ok _ _ _ _ _ Hc). unfold bind. by rewrite Hb.
Qed.

Lemma while_false {S A} (cond : A -> M S bool) (body : A -> M S A)
    fuel a s s1 :
  cond a s = Ok (false, s1) ->
  while (Datatypes.S fuel) cond body a s = Ok (a, s1).
Proof.
  intros Hc. unfold while. cbn [loop].
  rewrite (bind_ok _ _ s (Break a) s1); [done|].
  by rewrite (bind_ok _ _ _ _ _ Hc).
Qed.

Lemma do_while_true {S A} (body : A -> M S A) (cond : A -> M S bool)
    fuel a s a' s1 s2 :
  body a s = Ok (a', s1) -> cond a' s1 = Ok (true, s2) ->
  do_while (Datatypes.S fuel) body cond a s = do_while fuel body cond a' s2.
Proof.
  intros Hb Hc. unfold do_while. cbn [loop].
  rewrite (bind_ok _ _ s (Continue a') s2); [done|].
  rewrite (bind_ok _ _ _ _ _ Hb). by rewrite (bind_ok _ _ _ _ _ Hc).
Qed.

Lemma do_while_false {S A} (body : A -> M S A) (cond : A -> M S bool)
    fuel a s a' s1 s2 :
  body a s = Ok (a', s1) -> cond a' s1 = Ok (false, s2) ->
  do_while (Datatypes.S fuel) body cond a s = Ok (a', s2).
Proof.
  intros Hb Hc. unfold do_while. cbn [loop].
  rewrite (bind_ok _ _ s (Break a') s2); [done|].
  rewrite (bind_ok _ _ _ _ _ Hb). by rewrite (bind_ok _ _ _ _ _ Hc).
Qed.

(** More fuel never changes a result that was reached. *)
Lemma loop_fuel_mono {S A} (body : A -> M S (control A)) n m a s :
  n <= m -> loop n body a s <> OutOfFuel -> loop m body a s = loop n body a s.
Proof.
  revert m a s. induction n as [|n IH]; intros m a s Hle Hn; [done|].
  destruct m as [|m]; [lia|]. cbn [loop] in *. unfold bind in *.
  destruct (body a s) as [[[a'|a'] s']|e| |]; try done.
  apply IH; [lia|done].
Qed.

(** ** Characters *)

Lemma isalpha_not_digit c : isalpha c = true -> isdigit c = false.
Proof.
  unfold isalpha, isupper, islower, isdigit, in_range.
  intros H. apply andb_false_iff.
  apply orb_true_iff in H as [H|H]; apply andb_true_iff in H as [H1 H2];
    apply N.leb_le in H1; right; apply N.leb_gt; lia.
Qed.

Lemma isspace_not_alpha c : isspace c = true -> isalpha c = false.
Proof. destruct c as [[] [] [] [] [] [] [] []]; by vm_compute. Qed.

Lemma tolower_idemp c : tolower (tolower c) = tolower c.
Proof. destruct c as [[] [] [] [] [] [] [] []]; by vm_compute. Qed.

Lemma tolower_not_upper c : isupper (tolower c) = false.
Proof. destruct c as [[] [] [] [] [] [] [] []]; by vm_compute. Qed.

(** ** Strings *)

(** [find] returns a position inside the string, so that [substr]
    behind it does not throw. *)
Lemma substring_past s n m :
  String.length s <= n -> String.substring n m s = ""%string.
Proof.
  revert n. induction s as [|c s IH]; intros [|n] Hn; simpl in *;
    try lia; [by destruct m..|].
  apply IH. lia.
Qed.

Lemma find_lt s pat n :
  pat <> ""%string -> find s pat = Some n -> n < String.length s.
Proof.
  intros Hne Heq%String.index_correct1.
  destruct (decide (n < String.length s)); [done|].
  rewrite substring_past in Heq by lia. congruence.
Qed.

Lemma substr_ok {S} s pos :
  pos <= String.length s -> substr (S:=S) s pos = ret (from_pos s pos).
Proof. intros Hle. unfold substr. by rewrite bool_decide_eq_true_2. Qed.

Lemma string_app_nil_l (s : string) : "" +:+ s = s.
Proof. reflexivity. Qed.

Lemma string_app_cons c (s1 s2 : string) :
  String c s1 +:+ s2 = String c (s1 +:+ s2).
Proof. reflexivity. Qed.

Lemma string_app_nil_r (s : string) : s +:+ "" = s.
Proof. induction s; rewrite ?string_app_cons; by f_equal. Qed.

Lemma string_app_assoc (s1 s2 s3 : string) :
  (s1 +:+ s2) +:+ s3 = s1 +:+ (s2 +:+ s3).
Proof. induction s1; rewrite ?string_app_cons; by f_equal. Qed.

Lemma string_app_length (s1 s2 : string) :
  String.length (s1 +:+ s2) = String.length s1 + String.length s2.
Proof. induction s1; rewrite ?string_app_cons; simpl; by f_equal. Qed.

Lemma push_back_length s c :
  String.length (push_back s c) = Datatypes.S (String.length s).
Proof. unfold push_back. rewrite string_app_length. simpl. lia. Qed.

Lemma string_at_lt s i : is_Some (string_at s i) <-> i < String.length s.
Proof.
  unfold string_at. revert i.
  induction s as [|c s IH]; intros [|i]; simpl.
  - split; [by intros [? ?]|lia].
  - split; [by intros [? ?]|lia].
  - split; [lia|eauto].
  - rewrite IH. lia.
Qed.

Lemma string_at_ge s i : String.length s <= i -> string_at s i = None.
Proof.
  intros H. destruct (string_at s i) eqn:E; [|done].
  assert (i < String.length s) by (apply string_at_lt; eauto). lia.
Qed.

Lemma map_string_length f s :
  String.length (map_string f s) = String.length s.
Proof. induction s; simpl; by f_equal. Qed.

Lemma map_string_app f s1 s2 :
  map_string f (s1 +:+ s2) = map_string f s1 +:+ map_string f s2.
Proof.
  induction s1; simpl; rewrite ?string_app_cons; simpl; by f_equal.
Qed.

Lemma map_string_idemp f s :
  (forall c, f (f c) = f c) ->
  map_string f (map_string f s) = map_string f s.
Proof. intros Hf. induction s; simpl; by f_equal. Qed.

Lemma string_forall_app p s1 s2 :
  string_forall p (s1 +:+ s2) = string_forall p s1 && string_forall p s2.
Proof.
  induction s1 as [|c s1 IH]; [done|].
  rewrite string_app_cons. simpl. by rewrite IH, andb_assoc.
Qed.

Lemma string_forall_push_back p s c :
  string_forall p (push_back s c) = string_forall p s && p c.
Proof.
  unfold push_back. rewrite string_forall_app. simpl. by rewrite andb_true_r.
Qed.

Lemma push_back_nil c : push_back "" c = String c "".
Proof. reflexivity. Qed.

Lemma push_back_cons c0 s c : push_back (String c0 s) c = String c0 (push_back s c).
Proof. reflexivity. Qed.

Lemma push_back_not_nil s c : push_back s c <> ""%string.
Proof. by destruct s. Qed.

#[export] Hint Resolve wp_ret wp_throw wp_get wp_put wp_gets wp_modify
  : slayout.
#[export] Hint Rewrite string_app_nil_r string_app_length push_back_length
  map_string_length : slayout_rw.
