(* ===== verification/Lexer.v ===== *)
(** * Lexer: the scanner of tokenizer.h and tokenizer.cpp

    [TokenType.t] and [Token.t] are the enum and the struct of
    tokenizer.h.  Module [Tokenizer] holds the class: its fields as the
    record [Tokenizer.t], its constructor as [Tokenizer.new], and one
    definition per member function, written in the monad [M Tokenizer.t]
    in the order and with the guards of tokenizer.cpp.  The theorems
    come after the definitions: frame and progress of every member
    function, termination of [tokenize], the shape of its output, and
    the bounds on [line] and [column]. *)

From Stdlib Require Import Ascii.
From stdpp Require Import base tactics option numbers list strings.
From S2P Require Import Prelude.

(** ** tokenizer.h *)

Module TokenType.
Inductive t : Set :=
| Keyword | Identifier | String | Boolean
| Equals | Dot | Semicolon | LParen | RParen | LBrace | RBrace
| Arrow | Comma | Percent | Plus
| EndOfFile.

#[global] Instance eq_dec : EqDecision t.
Proof. solve_decision. Defined.
End TokenType.

Module Token.
Record t : Set := mk {
  type : TokenType.t;
  value : string;
  line : Z;
  column : Z
}.

#[global] Instance eq_dec : EqDecision t.
Proof. solve_decision. Defined.
End Token.

(** ** tokenizer.cpp *)

Module Tokenizer.

Record t : Set := mk {
  source : string;
  pos : nat;
  line : Z;
  column : Z
}.

(** [Tokenizer::Tokenizer(src)]. *)
Definition new (src : string) : t := mk src 0 1 1.

(** The iterations granted to each loop of the scanner. *)
Definition fuel (tk : t) : nat := S (String.length (source tk)).

(** The character under the cursor:
    [pos < source.size() ? source[pos] : '\0']. *)
Definition cur (tk : t) : ascii :=
  match string_at (source tk) (pos tk) with
  | Some c => c
  | None => NUL
  end.

Definition peek : M t ascii := gets cur.

Definition advance : M t ascii :=
  tk <- get ;;
  match string_at (source tk) (pos tk) with
  | Some c =>
      (if bool_decide (c = NL)
       then put (mk (source tk) (S (pos tk)) (line tk + 1) 1)
       else put (mk (source tk) (S (pos tk)) (line tk) (column tk + 1))) ;;
      ret c
  | None => ret NUL
  end.

Definition match_ (expected : ascii) : M t bool :=
  c <- peek ;;
  if bool_decide (c = expected) then advance ;; ret true
  else ret false.

(** The test that opens a comment: a slash followed, within the source,
    by a second slash. *)
Definition at_comment (c : ascii) (tk : t) : bool :=
  bool_decide (c = "/"%char)
  && bool_decide (pos tk + 1 < String.length (source tk))
  && bool_decide (string_at (source tk) (pos tk + 1) = Some "/"%char).

Definition skip_whitespace_and_comments : M t unit :=
  tk0 <- get ;;
  loop (fuel tk0)
    (fun _ =>
       c <- peek ;;
       if isspace c then advance ;; ret (Continue tt)
       else
         tk <- get ;;
         if at_comment c tk then
           while (fuel tk0)
             (fun _ => c <- peek ;;
                       ret (negb (bool_decide (c = NL))
                            && negb (bool_decide (c = NUL))))
             (fun _ => advance ;; ret tt) tt ;;
           ret (Continue tt)
         else ret (Break tt))
    tt.

Definition make_token (type : TokenType.t) (value : string) : M t Token.t :=
  tk <- get ;;
  ret (Token.mk type value (line tk) (column tk)).

Definition string_ : M t Token.t :=
  advance ;;
  tk0 <- get ;;
  value <-
    while (fuel tk0)
      (fun _ => c <- peek ;;
                ret (negb (bool_decide (c = DQUOTE))
                     && negb (bool_decide (c = NUL))))
      (fun value =>
         c <- peek ;;
         if bool_decide (c = BACKSLASH) then
           advance ;;
           c' <- advance ;;
           ret (push_back value c')
         else
           c' <- advance ;;
           ret (push_back value c'))
      ""%string ;;
  c <- peek ;;
  if bool_decide (c = DQUOTE) then
    advance ;;
    make_token TokenType.String value
  else throw (runtime_error "Unterminated string").

Definition is_alpha (c : ascii) : bool := isalpha c.
Definition is_digit (c : ascii) : bool := isdigit c.
Definition is_alphanumeric (c : ascii) : bool := is_alpha c || is_digit c.

(** The reserved words of [identifier_or_keyword], in its order. *)
Definition keywords : list string :=
  ["macrodef"; "Macro"; "lazy"; "boolean"; "if"; "print";
   "set_glsl"; "set_hlsl"; "set_msl"; "set_spirv";
   "read_glsl"; "read_hlsl"; "read_msl"; "read_spirv";
   "set_default"; "read_default"; "generate_all"; "generate_select";
   "SYSTEM"]%string.

Definition identifier_or_keyword : M t Token.t :=
  tk0 <- get ;;
  value <-
    while (fuel tk0)
      (fun _ => c <- peek ;;
                ret (is_alphanumeric c || bool_decide (c = "_"%char)))
      (fun value => c <- advance ;; ret (push_back value c))
      ""%string ;;
  if bool_decide (value ∈ keywords) then
    make_token TokenType.Keyword value
  else if bool_decide (value = "TRUE"%string)
          || bool_decide (value = "FALSE"%string) then
    make_token TokenType.Boolean value
  else make_token TokenType.Identifier value.

(** The one-character cases of the [switch] in [symbol]. *)
Definition single_symbol (c : ascii) : option (TokenType.t * string) :=
  if bool_decide (c = "="%char) then Some (TokenType.Equals, "="%string)
  else if bool_decide (c = "."%char) then Some (TokenType.Dot, "."%string)
  else if bool_decide (c = ";"%char)
       then Some (TokenType.Semicolon, ";"%string)
  else if bool_decide (c = "("%char) then Some (TokenType.LParen, "("%string)
  else if bool_decide (c = ")"%char) then Some (TokenType.RParen, ")"%string)
  else if bool_decide (c = "{"%char) then Some (TokenType.LBrace, "{"%string)
  else if bool_decide (c = "}"%char) then Some (TokenType.RBrace, "}"%string)
  else if bool_decide (c = ","%char) then Some (TokenType.Comma, ","%string)
  else if bool_decide (c = "%"%char)
       then Some (TokenType.Percent, "%"%string)
  else None.

Definition unexpected_character (c : ascii) : exception :=
  runtime_error ("Unexpected character: " +:+ String c "").

Definition symbol : M t Token.t :=
  c <- advance ;;
  match single_symbol c with
  | Some (type, value) => make_token type value
  | None =>
      if bool_decide (c = "-"%char) then
        b <- match_ ">"%char ;;
        if b then make_token TokenType.Arrow "->"%string
        else throw (unexpected_character c)
      else throw (unexpected_character c)
  end.

Definition tokenize : M t (list Token.t) :=
  tk0 <- get ;;
  tokens <-
    loop (fuel tk0)
      (fun tokens =>
         tk <- get ;;
         if bool_decide (pos tk < String.length (source tk)) then
           skip_whitespace_and_comments ;;
           c <- peek ;;
           if bool_decide (c = NUL) then ret (Break tokens)
           else if isalpha c || bool_decide (c = "_"%char) then
             tok <- identifier_or_keyword ;;
             ret (Continue (tokens ++ [tok]))
           else if bool_decide (c = DQUOTE) then
             tok <- string_ ;;
             ret (Continue (tokens ++ [tok]))
           else
             tok <- symbol ;;
             ret (Continue (tokens ++ [tok]))
         else ret (Break tokens))
      [] ;;
  eof <- make_token TokenType.EndOfFile ""%string ;;
  ret (tokens ++ [eof]).

(** ** Specification vocabulary *)

(** The cursor is inside the source, and the counters are within
    [1 .. pos + 1]. *)
Definition wf (tk : t) : Prop :=
  (pos tk <= String.length (source tk))%nat /\
  (1 <= line tk <= Z.of_nat (pos tk) + 1)%Z /\
  (1 <= column tk <= Z.of_nat (pos tk) + 1)%Z.

(** [tk'] is a later state of the scan that [tk] is a state of. *)
Definition le (tk tk' : t) : Prop :=
  source tk' = source tk /\ (pos tk <= pos tk')%nat /\
  (line tk <= line tk')%Z /\ wf tk'.

(** [tk'] is a later state, at least one character further. *)
Definition lt (tk tk' : t) : Prop :=
  source tk' = source tk /\ (pos tk < pos tk')%nat /\
  (line tk <= line tk')%Z /\ wf tk'.

(** The state after [advance] has consumed [c]. *)
Definition next (c : ascii) (tk : t) : t :=
  if bool_decide (c = NL) then mk (source tk) (S (pos tk)) (line tk + 1) 1
  else mk (source tk) (S (pos tk)) (line tk) (column tk + 1).

(** The characters still to scan: the variant of every loop. *)
Definition remaining (tk : t) : nat := String.length (source tk) - pos tk.

End Tokenizer.


(** [Tokenizer tokenizer(source); tokenizer.tokenize()], as main.cpp
    calls the scanner. *)
Definition lex (src : string) : result (list Token.t) :=
  eval Tokenizer.tokenize (Tokenizer.new src).

(** The kinds of a token vector, positions and texts dropped. *)
Definition kinds (toks : list Token.t) : list TokenType.t :=
  Token.type <$> toks.

(** ** What a scanned token looks like *)

Definition ident_start (c : ascii) : bool :=
  isalpha c || bool_decide (c = "_"%char).

Definition ident_char (c : ascii) : bool :=
  Tokenizer.is_alphanumeric c || bool_decide (c = "_"%char).

(** A letter or underscore, then letters, digits and underscores. *)
Definition is_identifier (s : string) : bool :=
  match s with
  | EmptyString => false
  | String c s' => ident_start c && string_forall ident_char s'
  end.

(** The text of each punctuation token. *)
Definition symbol_text (ty : TokenType.t) : option string :=
  match ty with
  | TokenType.Equals => Some "="
  | TokenType.Dot => Some "."
  | TokenType.Semicolon => Some ";"
  | TokenType.LParen => Some "("
  | TokenType.RParen => Some ")"
  | TokenType.LBrace => Some "{"
  | TokenType.RBrace => Some "}"
  | TokenType.Arrow => Some "->"
  | TokenType.Comma => Some ","
  | TokenType.Percent => Some "%"
  | _ => None
  end%string.

(** The kind of a token agrees with its text.  No scanned token has
    kind [Plus]. *)
Definition token_ok (tok : Token.t) : Prop :=
  match Token.type tok with
  | TokenType.Keyword => Token.value tok ∈ Tokenizer.keywords
  | TokenType.Boolean =>
      Token.value tok = "TRUE"%string \/ Token.value tok = "FALSE"%string
  | TokenType.Identifier =>
      is_identifier (Token.value tok) = true
      /\ (Token.value tok ∉ Tokenizer.keywords)
      /\ Token.value tok <> "TRUE"%string
      /\ Token.value tok <> "FALSE"%string
  | TokenType.String => True
  | TokenType.Plus => False
  | TokenType.EndOfFile => Token.value tok = ""%string
  | ty => symbol_text ty = Some (Token.value tok)
  end.

(** The position stamped on a token lies within the text scanned when
    the scanner is in state [tk]. *)
Definition stamp_within (tk : Tokenizer.t) (tok : Token.t) : Prop :=
  (1 <= Token.line tok <= Tokenizer.line tk)%Z /\
  (1 <= Token.column tok <= Z.of_nat (Tokenizer.pos tk) + 1)%Z.

(** A token other than the final one. *)
Definition body_token (tk : Tokenizer.t) (tok : Token.t) : Prop :=
  token_ok tok /\ Token.type tok <> TokenType.EndOfFile /\ stamp_within tk tok.

(** The output of [tokenize] that ends in state [tk]: body tokens, then
    one [EndOfFile] token stamped with the final position. *)
Definition lexed (tk : Tokenizer.t) (toks : list Token.t) : Prop :=
  exists body,
    toks = body ++ [Token.mk TokenType.EndOfFile ""
                             (Tokenizer.line tk) (Tokenizer.column tk)]
    /\ Forall (body_token tk) body.

(** What the parser relies on: the token vector ends with an
    [EndOfFile] token. *)
Definition wf_tokens (toks : list Token.t) : Prop :=
  exists body eof,
    toks = body ++ [eof] /\ Token.type eof = TokenType.EndOfFile.

(** The scanner's side of its interface with the parser: a function
    from source text to tokens that is total and whose token vectors
    end with [EndOfFile] and classify their texts. *)
Class Scanner (scan : string -> result (list Token.t)) : Prop := {
  scan_defined src : scan src <> Undefined;
  scan_terminates src : scan src <> OutOfFuel;
  scan_wf src toks : scan src = Ok toks -> wf_tokens toks;
  scan_token_ok src toks : scan src = Ok toks -> Forall token_ok toks
}.

(** The two errors of the scanner. *)
Definition lexical_error (e : exception) : Prop :=
  e = runtime_error "Unterminated string"
  \/ exists c, (e = Tokenizer.unexpected_character c
                 /\ Tokenizer.single_symbol c = None).

(** ** Theorems *)

Import Tokenizer.

Ltac order_tk :=
  unfold lt, le, wf in *; simpl in *; intuition (try congruence; try lia).

(** *** The order on scanner states *)

Lemma le_refl tk : wf tk -> le tk tk.
Proof. order_tk. Qed.

Lemma lt_le tk tk' : lt tk tk' -> le tk tk'.
Proof. order_tk. Qed.

Lemma le_trans tk1 tk2 tk3 : le tk1 tk2 -> le tk2 tk3 -> le tk1 tk3.
Proof. order_tk. Qed.

Lemma lt_le_trans tk1 tk2 tk3 : lt tk1 tk2 -> le tk2 tk3 -> lt tk1 tk3.
Proof. order_tk. Qed.

Lemma le_lt_trans tk1 tk2 tk3 : le tk1 tk2 -> lt tk2 tk3 -> lt tk1 tk3.
Proof. order_tk. Qed.

Lemma le_wf tk tk' : le tk tk' -> wf tk'.
Proof. order_tk. Qed.

Lemma lt_wf tk tk' : lt tk tk' -> wf tk'.
Proof. order_tk. Qed.

Lemma new_wf src : wf (new src).
Proof. unfold wf, new. simpl. lia. Qed.

Lemma lt_remaining tk tk' : lt tk tk' -> remaining tk' < remaining tk.
Proof.
  intros (Hs & ? & ? & ? & ?). unfold remaining. rewrite Hs in *. lia.
Qed.

Lemma remaining_fuel tk tk0 :
  source tk = source tk0 -> remaining tk < fuel tk0.
Proof. intros Hs. unfold remaining, fuel. rewrite Hs. lia. Qed.

#[export] Hint Resolve le_refl lt_le le_trans lt_le_trans le_lt_trans
  le_wf lt_wf new_wf lt_remaining remaining_fuel : slayout.

(** *** The cursor *)

Lemma string_at_some_lt s i c :
  string_at s i = Some c -> i < String.length s.
Proof. intros H. apply string_at_lt. eauto. Qed.

Lemma cur_some tk c : string_at (source tk) (pos tk) = Some c -> cur tk = c.
Proof. unfold cur. by intros ->. Qed.

Lemma cur_none tk : string_at (source tk) (pos tk) = None -> cur tk = NUL.
Proof. unfold cur. by intros ->. Qed.

Lemma cur_at_end tk : String.length (source tk) <= pos tk -> cur tk = NUL.
Proof. intros. by apply cur_none, string_at_ge. Qed.

Lemma le_cur_neq tk tk' : le tk tk' -> cur tk' <> cur tk -> lt tk tk'.
Proof.
  intros Hle Hne.
  assert (pos tk <> pos tk'); [|order_tk].
  intros Heq. apply Hne. unfold cur. destruct Hle as [-> _]. by rewrite Heq.
Qed.

(** *** [peek], [advance], [match_], [make_token] *)

Lemma advance_some tk c :
  string_at (source tk) (pos tk) = Some c -> advance tk = Ok (c, next c tk).
Proof.
  intros H. unfold advance, next, bind, get. rewrite H.
  by case_bool_decide.
Qed.

Lemma advance_none tk :
  string_at (source tk) (pos tk) = None -> advance tk = Ok (NUL, tk).
Proof. intros H. unfold advance, bind, get. by rewrite H. Qed.

Lemma wf_next tk c :
  wf tk -> string_at (source tk) (pos tk) = Some c -> lt tk (next c tk).
Proof.
  intros (Hp & Hl & Hc) Hat. apply string_at_some_lt in Hat.
  unfold lt, wf, next. case_bool_decide; simpl; repeat split; try done; lia.
Qed.

Lemma wp_peek tk (Q : ascii -> t -> Prop) E : Q (cur tk) tk -> wp peek tk Q E.
Proof. intros. by apply wp_gets. Qed.

Lemma wp_advance tk (Q : ascii -> t -> Prop) E :
  wf tk ->
  (forall c, string_at (source tk) (pos tk) = Some c -> Q c (next c tk)) ->
  (string_at (source tk) (pos tk) = None -> Q NUL tk) ->
  wp advance tk Q E.
Proof.
  intros Hwf Hs Hn. unfold wp.
  destruct (string_at (source tk) (pos tk)) as [c|] eqn:Hat.
  - rewrite (advance_some _ _ Hat). by apply Hs.
  - rewrite (advance_none _ Hat). by apply Hn.
Qed.

(** [advance] on a character that is not NUL moves the cursor. *)
Lemma wp_advance_in tk (Q : ascii -> t -> Prop) E :
  wf tk -> cur tk <> NUL ->
  (forall tk', lt tk tk' -> Q (cur tk) tk') ->
  wp advance tk Q E.
Proof.
  intros Hwf Hne HQ. apply wp_advance; [done|..].
  - intros c Hat. pose proof (cur_some _ _ Hat) as <-. by apply HQ, wf_next.
  - intros Hn. by apply cur_none in Hn.
Qed.

(** [advance] anywhere: the cursor does not move back. *)
Lemma wp_advance_le tk (Q : ascii -> t -> Prop) E :
  wf tk -> (forall c tk', le tk tk' -> Q c tk') -> wp advance tk Q E.
Proof.
  intros Hwf HQ. apply wp_advance; [done|..].
  - intros c Hat. by apply HQ, lt_le, wf_next.
  - intros _. by apply HQ, le_refl.
Qed.

Lemma wp_make_token type value tk (Q : Token.t -> t -> Prop) E :
  Q (Token.mk type value (line tk) (column tk)) tk ->
  wp (make_token type value) tk Q E.
Proof. intros. unfold make_token. by apply wp_bind, wp_get, wp_ret. Qed.

Lemma wp_match expected tk (Q : bool -> t -> Prop) E :
  wf tk -> expected <> NUL ->
  (cur tk = expected -> forall tk', lt tk tk' -> Q true tk') ->
  (cur tk <> expected -> Q false tk) ->
  wp (match_ expected) tk Q E.
Proof.
  intros Hwf Hne Ht Hf. unfold match_. apply wp_bind, wp_peek.
  case_bool_decide as Hc; [|by apply wp_ret, Hf].
  apply wp_bind, wp_advance_in; [done|congruence|].
  intros tk' Hlt. by apply wp_ret, Ht.
Qed.

(** *** The scanning loops *)

(** The three inner loops of the scanner test the character under the
    cursor and consume at least one character per iteration. *)
Lemma wp_scan {A} (p : ascii -> bool) (body : A -> M t A)
    (J : A -> t -> Prop) E tk0 tk a :
  (forall a tk1, le tk tk1 -> p (cur tk1) = true -> J a tk1 ->
     wp (body a) tk1 (fun a' tk2 => lt tk1 tk2 /\ J a' tk2) E) ->
  wf tk -> J a tk -> source tk = source tk0 ->
  wp (while (fuel tk0) (fun _ => c <- peek ;; ret (p c)) body a) tk
     (fun a' tk' => le tk tk' /\ p (cur tk') = false /\ J a' tk') E.
Proof.
  intros Hbody Hwf HJ Hsrc.
  eapply (wp_while (fun a' tk' => le tk tk' /\ J a' tk')
                   (fun _ tk' => remaining tk')).
  - intros a1 tk1 [Hle HJ1]. apply wp_bind, wp_peek, wp_ret.
    destruct (p (cur tk1)) eqn:Hp; [|done].
    eapply wp_post; [by apply Hbody|].
    intros a2 tk2 [Hlt HJ2]. split; [split|]; eauto with slayout.
  - eauto with slayout.
  - by apply remaining_fuel.
Qed.

Lemma skip_spec tk :
  wf tk ->
  wp skip_whitespace_and_comments tk
     (fun _ tk' => le tk tk' /\ isspace (cur tk') = false
                   /\ at_comment (cur tk') tk' = false) noexcept.
Proof.
  intros Hwf. unfold skip_whitespace_and_comments.
  apply wp_bind, wp_get.
  eapply (wp_loop (fun _ tk' => le tk tk') (fun _ tk' => remaining tk'));
    [|by apply le_refl|by apply remaining_fuel].
  intros [] tk1 Hle. apply wp_bind, wp_peek.
  destruct (isspace (cur tk1)) eqn:Hsp.
  { apply wp_bind, wp_advance_in;
      [by eapply le_wf|by intros Heq; rewrite Heq in Hsp|].
    intros tk2 Hlt. apply wp_ret. eauto with slayout. }
  apply wp_bind, wp_get.
  destruct (at_comment (cur tk1) tk1) eqn:Hc; [|by apply wp_ret].
  apply wp_bind. eapply wp_post.
  { eapply (wp_scan _ _ (fun _ _ => True));
      [|by eapply le_wf|done|apply Hle].
    intros [] tk2 Hle2 Hp _. apply wp_bind, wp_advance_in; [by eapply le_wf| |].
    - intros Heq. by rewrite Heq in Hp.
    - intros tk3 Hlt. by apply wp_ret. }
  intros [] tk2 (Hle2 & Hp & _). apply wp_ret.
  assert (lt tk1 tk2) as Hlt; [|eauto with slayout].
  apply le_cur_neq; [done|]. intros Heq. rewrite Heq in Hp.
  unfold at_comment in Hc. apply andb_true_iff in Hc as [Hc _].
  apply andb_true_iff in Hc as [Hc _]. apply bool_decide_eq_true in Hc.
  by rewrite Hc in Hp.
Qed.

(** *** The three token scanners *)

(** A token scanned from [tk] to [tk']. *)
Definition scanned (tk tk' : t) (tok : Token.t) : Prop :=
  lt tk tk' /\ Token.line tok = line tk' /\ Token.column tok = column tk'
  /\ token_ok tok /\ Token.type tok <> TokenType.EndOfFile.

Lemma wp_make_scanned type value tk tk' E :
  lt tk tk' -> type <> TokenType.EndOfFile ->
  (forall l c, token_ok (Token.mk type value l c)) ->
  wp (make_token type value) tk' (fun tok tk'' => scanned tk tk'' tok) E.
Proof. intros. apply wp_make_token. unfold scanned. by split_and!. Qed.

Lemma ident_start_char c : ident_start c = true -> ident_char c = true.
Proof.
  unfold ident_start, ident_char, is_alphanumeric, is_alpha.
  intros [->| ->]%orb_true_iff; [done|]. by rewrite orb_true_r.
Qed.

Lemma ident_char_not_nul : ident_char NUL = false.
Proof. reflexivity. Qed.

Lemma identifier_spec tk :
  wf tk -> ident_start (cur tk) = true ->
  wp identifier_or_keyword tk (fun tok tk' => scanned tk tk' tok) noexcept.
Proof.
  intros Hwf Hstart. unfold identifier_or_keyword.
  apply wp_bind, wp_get, wp_bind. eapply wp_post.
  { eapply (wp_scan ident_char _
      (fun value tk1 =>
         string_forall ident_char value = true /\
         match value with
         | EmptyString => pos tk1 = pos tk
         | String c _ => c = cur tk
         end)); [|done|done|done].
    intros value tk1 Hle Hp [Hall Hhd].
    apply wp_bind, wp_advance_in; [by eapply le_wf| |].
    { intros Heq. by rewrite Heq, ident_char_not_nul in Hp. }
    intros tk2 Hlt. apply wp_ret. split; [done|].
    rewrite string_forall_push_back, Hall, Hp. split; [done|].
    destruct value as [|c0 value]; [|done].
    rewrite push_back_nil. unfold cur. destruct Hle as [-> _]. by rewrite Hhd. }
  intros value tk' (Hle & Hp & Hall & Hhd); cbn beta.
  assert (lt tk tk') as Hlt.
  { apply le_cur_neq; [done|]. intros Heq.
    by rewrite Heq, (ident_start_char _ Hstart) in Hp. }
  assert (is_identifier value = true) as Hid.
  { destruct value as [|c value]; [order_tk|]. subst c. simpl in *.
    rewrite Hstart. by apply andb_true_iff in Hall as [_ ->]. }
  repeat case_bool_decide; simpl; apply wp_make_scanned; try done;
    intros; unfold token_ok; simpl; auto.
Qed.

Lemma string_spec tk :
  wf tk -> cur tk = DQUOTE ->
  wp string_ tk (fun tok tk' => scanned tk tk' tok)
     (fun e => e = runtime_error "Unterminated string").
Proof.
  intros Hwf Hq. unfold string_.
  apply wp_bind, wp_advance_in; [done|by rewrite Hq|].
  intros tk0 Hlt0. apply wp_bind, wp_get, wp_bind. eapply wp_post.
  { eapply (wp_scan
      (fun c => negb (bool_decide (c = DQUOTE)) && negb (bool_decide (c = NUL)))
      _ (fun _ _ => True)); [|by eapply lt_wf|done|done].
    intros value tk1 Hle Hp _. apply wp_bind, wp_peek.
    assert (cur tk1 <> NUL) as Hnn.
    { intros Heq. rewrite Heq in Hp. by rewrite andb_false_r in Hp. }
    destruct (bool_decide (cur tk1 = BACKSLASH)).
    - apply wp_bind, wp_advance_in; [by eapply le_wf|done|].
      intros tk2 Hlt. apply wp_bind, wp_advance_le; [by eapply lt_wf|].
      intros c tk3 Hle3. apply wp_ret. eauto with slayout.
    - apply wp_bind, wp_advance_in; [by eapply le_wf|done|].
      intros tk2 Hlt. by apply wp_ret. }
  intros value tk1 (Hle & _ & _); cbn beta. apply wp_bind, wp_peek.
  case_bool_decide as Hc; [|by apply wp_throw].
  apply wp_bind, wp_advance_le; [by eapply le_wf|].
  intros _ tk2 Hle2. apply wp_make_scanned; [eauto with slayout|done|done].
Qed.

Lemma single_symbol_ok c ty value l col :
  single_symbol c = Some (ty, value) -> token_ok (Token.mk ty value l col).
Proof.
  unfold single_symbol. repeat case_bool_decide; intros; by simplify_eq.
Qed.

Lemma single_symbol_not_eof c ty value :
  single_symbol c = Some (ty, value) -> ty <> TokenType.EndOfFile.
Proof.
  unfold single_symbol. repeat case_bool_decide; intros; by simplify_eq.
Qed.

Lemma symbol_spec tk :
  wf tk -> cur tk <> NUL ->
  wp symbol tk (fun tok tk' => scanned tk tk' tok)
     (fun e => e = unexpected_character (cur tk)
               /\ single_symbol (cur tk) = None).
Proof.
  intros Hwf Hnn. unfold symbol.
  apply wp_bind, wp_advance_in; [done..|]. intros tk1 Hlt.
  destruct (single_symbol (cur tk)) as [[ty value]|] eqn:Hs.
  { apply wp_make_scanned;
      eauto using single_symbol_ok, single_symbol_not_eof. }
  case_bool_decide as Hm; [|by apply wp_throw].
  apply wp_bind, wp_match; [by eapply lt_wf|done|..].
  - intros _ tk2 Hlt2. apply wp_make_scanned; [eauto with slayout|done|done].
  - intros _. by apply wp_throw.
Qed.

(** *** [tokenize] *)

Lemma stamp_within_le tk tk' tok :
  le tk tk' -> stamp_within tk tok -> stamp_within tk' tok.
Proof. unfold stamp_within. order_tk. Qed.

Lemma body_token_le tk tk' tok :
  le tk tk' -> body_token tk tok -> body_token tk' tok.
Proof. unfold body_token. intros ? (?&?&?). eauto using stamp_within_le. Qed.

Lemma scanned_body_token tk tk' tok :
  scanned tk tk' tok -> body_token tk' tok.
Proof.
  unfold scanned, body_token, stamp_within.
  intros (Hlt & -> & -> & ? & ?). order_tk.
Qed.

(** One more token keeps the invariant of the main loop. *)
Lemma tokenize_step tk tk1 tk2 tk3 toks tok :
  le tk tk1 -> Forall (body_token tk1) toks -> le tk1 tk2 ->
  scanned tk2 tk3 tok ->
  (le tk tk3 /\ Forall (body_token tk3) (toks ++ [tok]))
  /\ remaining tk3 < remaining tk1.
Proof.
  intros Hle Hall Hle2 Hsc. pose proof Hsc as (Hlt & _).
  assert (lt tk1 tk3) by eauto with slayout.
  split; [split|]; eauto with slayout.
  apply Forall_app. split; [|by eauto using scanned_body_token].
  eapply Forall_impl; [done|]. eauto using body_token_le with slayout.
Qed.

Lemma tokenize_spec tk :
  wf tk ->
  wp tokenize tk (fun toks tk' => le tk tk' /\ lexed tk' toks) lexical_error.
Proof.
  intros Hwf. unfold tokenize. apply wp_bind, wp_get, wp_bind.
  eapply wp_post.
  { eapply (wp_loop (fun toks tk1 => le tk tk1 /\ Forall (body_token tk1) toks)
                    (fun _ tk1 => remaining tk1)
                    _ (fun toks tk1 => le tk tk1 /\ Forall (body_token tk1) toks));
      [|by eauto with slayout|by apply remaining_fuel].
    intros toks tk1 [Hle Hall]. apply wp_bind, wp_get.
    case_bool_decide; [|by apply wp_ret].
    apply wp_bind. eapply wp_mono; [by eapply skip_spec, le_wf| |done].
    intros [] tk2 (Hle2 & _ & _); cbn beta. apply wp_bind, wp_peek.
    case_bool_decide as Hnul.
    { apply wp_ret. split; [by eauto with slayout|].
      eapply Forall_impl; [done|]. eauto using body_token_le. }
    assert (wf tk2) by eauto with slayout.
    destruct (isalpha (cur tk2) || bool_decide (cur tk2 = "_"%char)) eqn:Hid;
      [|destruct (bool_decide (cur tk2 = DQUOTE)) eqn:Hq];
      apply wp_bind;
      (eapply wp_mono;
       [first [by eapply identifier_spec
              |by eapply string_spec, bool_decide_eq_true
              |by eapply symbol_spec]
       |intros tok tk3 Hsc; cbn beta; apply wp_ret;
        by eapply tokenize_step
       |first [done|by left|intros e [-> ?]; right; by eexists]]). }
  intros toks tk1 [Hle Hall]; cbn beta.
  apply wp_bind, wp_make_token, wp_ret. split; [done|]. by exists toks.
Qed.

(** *** The scanner as main.cpp calls it *)

(** Every outcome of [lex], from the specification of [tokenize]. *)
Lemma lex_spec src :
  match lex src with
  | Ok toks => exists tk', le (new src) tk' /\ lexed tk' toks
  | Throw e => lexical_error e
  | Undefined | OutOfFuel => False
  end.
Proof.
  pose proof (tokenize_spec (new src) (new_wf src)) as H.
  unfold wp in H. unfold lex, eval.
  destruct (tokenize (new src)) as [[toks tk']|e| |]; eauto.
Qed.

Lemma lex_ok_inv src toks :
  lex src = Ok toks ->
  exists tk', le (new src) tk' /\ lexed tk' toks.
Proof. intros H. pose proof (lex_spec src) as Hs. by rewrite H in Hs. Qed.

Lemma lexed_forall (P : Token.t -> Prop) tk toks :
  lexed tk toks ->
  (forall tok, body_token tk tok -> P tok) ->
  P (Token.mk TokenType.EndOfFile "" (line tk) (column tk)) ->
  Forall P toks.
Proof.
  intros (body & -> & Hall) Hb He. apply Forall_app. split.
  - eapply Forall_impl; eauto.
  - by repeat constructor.
Qed.

Lemma lexed_token_ok tk toks : lexed tk toks -> Forall token_ok toks.
Proof. intros Hl. eapply lexed_forall; [done| |done]. by intros tok (? & _). Qed.

Lemma wf_tokens_last toks tok :
  last toks = Some tok -> Token.type tok = TokenType.EndOfFile ->
  wf_tokens toks.
Proof. intros [body ->]%last_Some ?. by exists body, tok. Qed.

Lemma lexed_wf_tokens tk toks : lexed tk toks -> wf_tokens toks.
Proof. intros (body & -> & _). by eexists body, _. Qed.

(** C1: the scanner terminates on every source text, and never reads
    outside the text: [lex] neither exhausts the fuel [S (length src)]
    granted to each of its loops nor has undefined behaviour. *)
Theorem lex_terminates src : lex src <> OutOfFuel /\ lex src <> Undefined.
Proof.
  pose proof (lex_spec src) as H.
  split; intros Heq; by rewrite Heq in H.
Qed.

(** C4: a successful scan is a sequence of tokens that are not
    [EndOfFile], followed by exactly one [EndOfFile] token with empty
    text. *)
Theorem lex_ends_with_eof src toks :
  lex src = Ok toks ->
  exists body eof,
    toks = body ++ [eof]
    /\ Token.type eof = TokenType.EndOfFile
    /\ Token.value eof = ""%string
    /\ Forall (fun tok => Token.type tok <> TokenType.EndOfFile) body.
Proof.
  intros (tk' & _ & body & -> & Hall)%lex_ok_inv.
  eexists body, _. split_and!; [done..|].
  eapply Forall_impl; [done|]. by intros tok (_ & ? & _).
Qed.

Lemma lex_ends_with_eof_witness :
  exists body eof,
    [Token.mk TokenType.Identifier "a" 1 2;
     Token.mk TokenType.Semicolon ";" 1 3;
     Token.mk TokenType.EndOfFile "" 1 3] = body ++ [eof]
    /\ Token.type eof = TokenType.EndOfFile
    /\ Token.value eof = ""%string
    /\ Forall (fun tok => Token.type tok <> TokenType.EndOfFile) body.
Proof. apply (lex_ends_with_eof "a;"). vm_compute. reflexivity. Defined.

(** C21: no token of a successful scan has kind [Plus]: tokenizer.cpp
    has no case for ['+'], so the concatenation operator that parser.cpp
    matches can never reach the parser. *)
Theorem lex_no_plus src toks :
  lex src = Ok toks ->
  Forall (fun tok => Token.type tok <> TokenType.Plus) toks.
Proof.
  intros (tk' & _ & Hl)%lex_ok_inv.
  eapply lexed_forall; [done| |done].
  intros tok (Hok & _) Heq. unfold token_ok in Hok. by rewrite Heq in Hok.
Qed.

Lemma lex_no_plus_witness :
  Forall (fun tok => Token.type tok <> TokenType.Plus)
    [Token.mk TokenType.Identifier "a" 1 2;
     Token.mk TokenType.Semicolon ";" 1 3;
     Token.mk TokenType.EndOfFile "" 1 3].
Proof. apply (lex_no_plus "a;"). vm_compute. reflexivity. Defined.

(** C28: the kind of every scanned token agrees with its text: a
    [Keyword] is one of the nineteen reserved words, a [Boolean] is
    [TRUE] or [FALSE], an [Identifier] is a letter or underscore
    followed by letters, digits and underscores and is neither a
    reserved word nor a boolean, and a punctuation token carries its own
    spelling. *)
Theorem lex_token_ok src toks :
  lex src = Ok toks -> Forall token_ok toks.
Proof.
  intros (tk' & _ & Hl)%lex_ok_inv. by eapply lexed_token_ok.
Qed.

Lemma lex_token_ok_witness :
  Forall token_ok
    [Token.mk TokenType.Keyword "if" 1 3;
     Token.mk TokenType.Identifier "string" 1 10;
     Token.mk TokenType.EndOfFile "" 1 10].
Proof. apply (lex_token_ok "if string"). vm_compute. reflexivity. Defined.

(** C38: the line and column stamped on every token lie between 1 and
    the length of the source plus one, so the [int] counters [line] and
    [column] of the scanner do not overflow on a source shorter than
    [INT_MAX] characters. *)
Theorem lex_positions_bounded src toks :
  lex src = Ok toks ->
  Forall (fun tok =>
            (1 <= Token.line tok <= Z.of_nat (String.length src) + 1)%Z /\
            (1 <= Token.column tok <= Z.of_nat (String.length src) + 1)%Z)
         toks.
Proof.
  intros (tk' & Hle & Hl)%lex_ok_inv.
  assert (wf tk') as Hwf by eauto with slayout.
  assert (source tk' = src) as <- by (by destruct Hle as [-> _]).
  eapply lexed_forall; [done|..]; simpl.
  - intros tok (_ & _ & Hst). unfold stamp_within in Hst. order_tk.
  - order_tk.
Qed.

Lemma lex_positions_bounded_witness :
  Forall (fun tok =>
            (1 <= Token.line tok <= Z.of_nat (String.length "a;") + 1)%Z /\
            (1 <= Token.column tok <= Z.of_nat (String.length "a;") + 1)%Z)
    [Token.mk TokenType.Identifier "a" 1 2;
     Token.mk TokenType.Semicolon ";" 1 3;
     Token.mk TokenType.EndOfFile "" 1 3].
Proof. apply (lex_positions_bounded "a;"). vm_compute. reflexivity. Defined.

(** C39: the scanner fails in two ways only: with "Unterminated string",
    or with "Unexpected character: c" for a character [c] that is none
    of the nine one-character symbols. *)
Theorem lex_errors src e : lex src = Throw e -> lexical_error e.
Proof. intros H. pose proof (lex_spec src) as Hs. by rewrite H in Hs. Qed.

Lemma lex_errors_witness :
  lexical_error (runtime_error "Unexpected character: +").
Proof. apply (lex_errors "a + b"). vm_compute. reflexivity. Defined.

(** ** The interface, discharged *)

(** [lex] meets the interface the parser is proved against. *)
#[export] Instance lex_scanner : Scanner lex.
Proof.
  split; intros src; pose proof (lex_spec src) as Hs.
  - intros Heq. by rewrite Heq in Hs.
  - intros Heq. by rewrite Heq in Hs.
  - intros toks Heq. rewrite Heq in Hs. destruct Hs as (tk & _ & Hl).
    by eapply lexed_wf_tokens.
  - intros toks Heq. rewrite Heq in Hs. destruct Hs as (tk & _ & Hl).
    by eapply lexed_token_ok.
Qed.
