(* ===== verification/Lexeme.v ===== *)
(** * Lexeme: every token has a text the scanner reads back

    [lexeme] writes a token as the characters of the script, a string
    literal between quotes with its quotes and backslashes escaped;
    [print] writes a token vector with a space after each token.  The
    theorem of this file is that [lex] on the printed text returns
    tokens of the same kinds and texts, followed by [EndOfFile]: the
    scanner's functional correctness on the language of its own
    tokens, the positions it stamps apart.

    The proofs run the scanner on a source known only by what lies
    under the cursor ([source_is]); [after s tk] is the state of the
    scanner when it has advanced over [s]. *)

From Stdlib Require Import Ascii.
From stdpp Require Import base tactics option numbers list strings.
From S2P Require Import Prelude Lexer.

(** ** The text of a token *)

(** The characters of a string literal between its quotes. *)
Fixpoint escape (s : string) : string :=
  match s with
  | EmptyString => EmptyString
  | String c s' =>
      if bool_decide (c = DQUOTE) || bool_decide (c = BACKSLASH)
      then String BACKSLASH (String c (escape s'))
      else String c (escape s')
  end.

Definition lexeme (tok : Token.t) : string :=
  match Token.type tok with
  | TokenType.String =>
      String DQUOTE (escape (Token.value tok) +:+ String DQUOTE EmptyString)
  | _ => Token.value tok
  end.

(** A token vector as a script: every token is followed by a space. *)
Fixpoint print (toks : list Token.t) : string :=
  match toks with
  | [] => EmptyString
  | tok :: toks' => lexeme tok +:+ String " " (print toks')
  end.

(** The kind and the text of a token, its position dropped. *)
Definition text (tok : Token.t) : TokenType.t * string :=
  (Token.type tok, Token.value tok).

(** The tokens a script can spell: their kind agrees with their text,
    they are not [EndOfFile], and a string literal holds no NUL. *)
Definition lexable (tok : Token.t) : Prop :=
  token_ok tok
  /\ Token.type tok <> TokenType.EndOfFile
  /\ (Token.type tok = TokenType.String ->
      string_forall (fun c => negb (bool_decide (c = NUL))) (Token.value tok)
      = true).

#[export] Instance lexable_dec tok : Decision (lexable tok).
Proof. unfold lexable, token_ok. destruct (Token.type tok); apply _. Defined.

(** ** The scanner on a known text *)

(** The text from the cursor to the end of the source is [rest]. *)
Definition source_is (tk : Tokenizer.t) (rest : string) : Prop :=
  exists pre,
    Tokenizer.source tk = pre +:+ rest
    /\ Tokenizer.pos tk = String.length pre.

(** The state when the scanner has advanced over [s]. *)
Fixpoint after (s : string) (tk : Tokenizer.t) : Tokenizer.t :=
  match s with
  | EmptyString => tk
  | String c s' => after s' (Tokenizer.next c tk)
  end.

Import Tokenizer.

(** The text under the cursor starts a token, or is empty. *)
Definition starts_token (rest : string) : Prop :=
  match rest with
  | String c _ => isspace c = false /\ c <> "/"%char
  | EmptyString => True
  end.

(** White space before a token: nothing or one space. *)
Definition gap (sp : string) : Prop := sp = ""%string \/ sp = " "%string.

(** The text under the cursor does not continue an identifier. *)
Definition ident_ended (rest : string) : Prop :=
  match rest with
  | String c _ => ident_char c = false
  | EmptyString => True
  end.

(** The kind [identifier_or_keyword] gives a text. *)
Definition classify (value : string) : TokenType.t :=
  if bool_decide (value ∈ keywords) then TokenType.Keyword
  else if bool_decide (value = "TRUE"%string)
          || bool_decide (value = "FALSE"%string)
       then TokenType.Boolean
  else TokenType.Identifier.

(** The body of the loop of [tokenize]. *)
Definition scan_step (tokens : list Token.t)
  : M t (control (list Token.t)) :=
  tk <- get ;;
  if bool_decide (pos tk < String.length (source tk)) then
    skip_whitespace_and_comments ;;
    c <- peek ;;
    if bool_decide (c = NUL) then ret (Break tokens)
    else if isalpha c || bool_decide (c = "_"%char) then
      tok <- identifier_or_keyword ;;
      ret (Continue (tokens ++ [tok]))
    else if bool_decide (c = DQUOTE) then
      tok <- string_ ;;
      ret (Continue (tokens ++ [tok]))
    else
      tok <- symbol ;;
      ret (Continue (tokens ++ [tok]))
  else ret (Break tokens).

(** The first character of a token's text. *)
Inductive token_start : ascii -> Prop :=
| start_word c : ident_start c = true -> token_start c
| start_string : token_start DQUOTE
| start_symbol c :
    c ∈ ["="; "."; ";"; "("; ")"; "{"; "}"; ","; "%"; "-"]%char ->
    token_start c.

(** The three shapes of a token a script can spell. *)
Inductive shape (tok : Token.t) : Prop :=
| shape_word :
    lexeme tok = Token.value tok ->
    is_identifier (Token.value tok) = true ->
    classify (Token.value tok) = Token.type tok -> shape tok
| shape_string :
    Token.type tok = TokenType.String ->
    string_forall (fun c => negb (bool_decide (c = NUL))) (Token.value tok)
    = true -> shape tok
| shape_symbol :
    lexeme tok = Token.value tok ->
    symbol_text (Token.type tok) = Some (Token.value tok) -> shape tok.

(** ** Theorems *)

(** *** The cursor *)

Lemma string_at_app_length pre c rest :
  string_at (pre +:+ String c rest) (String.length pre) = Some c.
Proof. induction pre as [|d pre IH]; [done|]. by rewrite string_app_cons. Qed.

Lemma string_at_app_end pre :
  string_at (pre +:+ "") (String.length pre) = None.
Proof. rewrite string_app_nil_r. by apply string_at_ge. Qed.

Lemma source_next c tk : source (next c tk) = source tk.
Proof. unfold next. by case_bool_decide. Qed.

Lemma pos_next c tk : pos (next c tk) = S (pos tk).
Proof. unfold next. by case_bool_decide. Qed.

Lemma source_after s tk : source (after s tk) = source tk.
Proof.
  revert tk. induction s as [|c s IH]; intros tk; [done|].
  simpl. by rewrite IH, source_next.
Qed.

Lemma after_app s1 s2 tk : after (s1 +:+ s2) tk = after s2 (after s1 tk).
Proof.
  revert tk. induction s1 as [|c s1 IH]; intros tk; [done|].
  rewrite string_app_cons. simpl. apply IH.
Qed.

Lemma source_is_at tk c rest :
  source_is tk (String c rest) -> string_at (source tk) (pos tk) = Some c.
Proof. intros (pre & -> & ->). apply string_at_app_length. Qed.

Lemma source_is_end tk :
  source_is tk "" -> string_at (source tk) (pos tk) = None.
Proof. intros (pre & -> & ->). apply string_at_app_end. Qed.

Lemma source_is_next tk c rest :
  source_is tk (String c rest) -> source_is (next c tk) rest.
Proof.
  intros (pre & Hs & Hp). exists (pre +:+ String c "").
  rewrite source_next, pos_next, Hs, Hp, string_app_assoc, string_app_length.
  split; [done|]. simpl. lia.
Qed.

Lemma source_is_after tk s rest :
  source_is tk (s +:+ rest) -> source_is (after s tk) rest.
Proof.
  revert tk. induction s as [|c s IH]; intros tk H; [done|].
  rewrite string_app_cons in H. simpl. by apply IH, source_is_next.
Qed.

Lemma source_is_length tk rest :
  source_is tk rest -> String.length rest <= String.length (source tk).
Proof. intros (pre & -> & _). rewrite string_app_length. lia. Qed.

Lemma source_is_new src : source_is (new src) src.
Proof. by exists ""%string. Qed.

(** *** The member functions on a known character *)

Section Known.
Context (tk : t) (c : ascii) (rest : string).
Context (Hsrc : source_is tk (String c rest)).

Lemma scan_peek_known : peek tk = Ok (c, tk).
Proof.
  unfold peek, gets. by rewrite (cur_some _ _ (source_is_at _ _ _ Hsrc)).
Qed.

Lemma scan_advance_known : advance tk = Ok (c, next c tk).
Proof. apply advance_some, (source_is_at _ _ _ Hsrc). Qed.

Lemma scan_match_known : match_ c tk = Ok (true, next c tk).
Proof.
  unfold match_. rewrite (bind_ok _ _ _ _ _ scan_peek_known).
  rewrite bool_decide_eq_true_2 by done.
  by rewrite (bind_ok _ _ _ _ _ scan_advance_known).
Qed.

Lemma scan_match_other expected : c <> expected -> match_ expected tk = Ok (false, tk).
Proof.
  intros Hne. unfold match_. rewrite (bind_ok _ _ _ _ _ scan_peek_known).
  by rewrite bool_decide_eq_false_2.
Qed.

Lemma pos_lt_length : pos tk < String.length (source tk).
Proof. eapply string_at_some_lt, source_is_at, Hsrc. Qed.

End Known.

Lemma peek_end tk : source_is tk "" -> peek tk = Ok (NUL, tk).
Proof.
  intros H. unfold peek, gets. by rewrite (cur_none _ (source_is_end _ H)).
Qed.

Lemma make_token_known type value tk :
  make_token type value tk = Ok (Token.mk type value (line tk) (column tk), tk).
Proof. reflexivity. Qed.

(** *** White space *)

Lemma at_comment_other c tk : c <> "/"%char -> at_comment c tk = false.
Proof. intros Hc. unfold at_comment. by rewrite bool_decide_eq_false_2. Qed.

(** One round of the loop of [skip_whitespace_and_comments] where a
    token starts: the loop is left. *)
Lemma skip_round_token tk rest fuel :
  source_is tk rest -> starts_token rest ->
  (c <- peek ;;
   if isspace c then advance ;; ret (Continue tt)
   else
     tk' <- get ;;
     if at_comment c tk' then
       while fuel
         (fun _ => c <- peek ;;
                   ret (negb (bool_decide (c = NL))
                        && negb (bool_decide (c = NUL))))
         (fun _ => advance ;; ret tt) tt ;;
       ret (Continue tt)
     else ret (Break tt)) tk = Ok (Break tt, tk).
Proof.
  intros H Hst. destruct rest as [|c rest].
  - rewrite (bind_ok _ _ _ _ _ (peek_end _ H)).
    change (isspace NUL) with false. cbv iota.
    unfold bind at 1, get. by rewrite at_comment_other.
  - destruct Hst as [Hsp Hc].
    rewrite (bind_ok _ _ _ _ _ (scan_peek_known _ _ _ H)). rewrite Hsp.
    unfold bind at 1, get. by rewrite at_comment_other.
Qed.

Lemma skip_none tk rest :
  source_is tk rest -> starts_token rest ->
  skip_whitespace_and_comments tk = Ok (tt, tk).
Proof.
  intros H Hst. unfold skip_whitespace_and_comments, bind at 1, get, fuel.
  apply loop_break. by eapply skip_round_token.
Qed.

Lemma skip_space tk rest :
  source_is tk (String " " rest) -> starts_token rest ->
  skip_whitespace_and_comments tk = Ok (tt, next " " tk).
Proof.
  intros H Hst. pose proof (source_is_length _ _ H) as Hlen.
  unfold skip_whitespace_and_comments, bind at 1, get, fuel.
  destruct (String.length (source tk)) as [|n] eqn:Hn; [simpl in Hlen; lia|].
  erewrite loop_continue.
  - apply loop_break. eapply skip_round_token; [|exact Hst].
    by apply source_is_next.
  - rewrite (bind_ok _ _ _ _ _ (scan_peek_known _ _ _ H)). simpl.
    by rewrite (bind_ok _ _ _ _ _ (scan_advance_known _ _ _ H)).
Qed.

(** *** Identifiers and reserved words *)

Lemma ident_char_NUL : ident_char NUL = false.
Proof. reflexivity. Qed.

Lemma ident_run_known value rest :
  string_forall ident_char value = true -> ident_ended rest ->
  forall acc tk fuel,
    source_is tk (value +:+ rest) ->
    String.length value < fuel ->
    while fuel
      (fun _ => c <- peek ;;
                ret (is_alphanumeric c || bool_decide (c = "_"%char)))
      (fun value => c <- advance ;; ret (push_back value c)) acc tk =
    Ok (acc +:+ value, after value tk).
Proof.
  intros Hall Hend. induction value as [|c value IH];
    intros acc tk [|fuel] H Hfuel; simpl in Hfuel; try lia.
  - rewrite string_app_nil_l in H. rewrite string_app_nil_r.
    apply (while_false
             (fun _ : string =>
                c <- peek ;;
                ret (is_alphanumeric c || bool_decide (c = "_"%char)))).
    destruct rest as [|c rest].
    + by rewrite (bind_ok _ _ _ _ _ (peek_end _ H)).
    + rewrite (bind_ok _ _ _ _ _ (scan_peek_known _ _ _ H)). unfold ret.
      simpl in Hend. unfold ident_char in Hend. by rewrite Hend.
  - rewrite string_app_cons in H. simpl in Hall.
    apply andb_true_iff in Hall as [Hc Hall].
    rewrite (while_true
               (fun _ : string =>
                  c <- peek ;;
                  ret (is_alphanumeric c || bool_decide (c = "_"%char)))
               _ _ _ _ tk (push_back acc c) (next c tk)).
    + rewrite (IH Hall _ _ _ (source_is_next _ _ _ H)) by lia.
      unfold push_back. by rewrite string_app_assoc.
    + rewrite (bind_ok _ _ _ _ _ (scan_peek_known _ _ _ H)). unfold ret.
      unfold ident_char in Hc. by rewrite Hc.
    + by rewrite (bind_ok _ _ _ _ _ (scan_advance_known _ _ _ H)).
Qed.

Lemma identifier_or_keyword_known tk value rest :
  string_forall ident_char value = true -> ident_ended rest ->
  source_is tk (value +:+ rest) ->
  identifier_or_keyword tk =
  Ok (Token.mk (classify value) value
        (line (after value tk)) (column (after value tk)),
      after value tk).
Proof.
  intros Hall Hend H. pose proof (source_is_length _ _ H) as Hlen.
  rewrite string_app_length in Hlen.
  unfold identifier_or_keyword, bind at 1, get.
  erewrite (bind_ok (while _ _ _ _));
    [|eapply (ident_run_known value rest Hall Hend);
      [exact H|unfold fuel; lia]].
  rewrite string_app_nil_l. unfold classify.
  by repeat (case_bool_decide; simpl).
Qed.

(** *** String literals *)

Lemma string_run_known value rest :
  string_forall (fun c => negb (bool_decide (c = NUL))) value = true ->
  forall acc tk fuel,
    source_is tk (escape value +:+ String DQUOTE rest) ->
    String.length value < fuel ->
    while fuel
      (fun _ => c <- peek ;;
                ret (negb (bool_decide (c = DQUOTE))
                     && negb (bool_decide (c = NUL))))
      (fun value =>
         c <- peek ;;
         if bool_decide (c = BACKSLASH) then
           advance ;;
           c' <- advance ;;
           ret (push_back value c')
         else
           c' <- advance ;;
           ret (push_back value c'))
      acc tk =
    Ok (acc +:+ value, after (escape value) tk).
Proof.
  intros Hall. induction value as [|c value IH];
    intros acc tk [|fuel] H Hfuel; simpl in Hfuel; try lia.
  - rewrite string_app_nil_l in H. rewrite string_app_nil_r.
    eapply (while_false (fun _ : string => _)).
    by rewrite (bind_ok _ _ _ _ _ (scan_peek_known _ _ _ H)).
  - simpl in Hall. apply andb_true_iff in Hall as [Hc Hall].
    apply negb_true_iff, bool_decide_eq_false in Hc.
    cbn [escape] in *.
    destruct (bool_decide (c = DQUOTE) || bool_decide (c = BACKSLASH))
      eqn:Hesc.
    + rewrite !string_app_cons in H.
      erewrite (while_true (fun _ : string => _) _ _ _ _ tk
                  (push_back acc c) (next c (next BACKSLASH tk))).
      * erewrite IH; [|done|by do 2 apply source_is_next in H|lia].
        unfold push_back. by rewrite string_app_assoc.
      * by rewrite (bind_ok _ _ _ _ _ (scan_peek_known _ _ _ H)).
      * rewrite (bind_ok _ _ _ _ _ (scan_peek_known _ _ _ H)).
        rewrite bool_decide_eq_true_2 by done.
        rewrite (bind_ok _ _ _ _ _ (scan_advance_known _ _ _ H)).
        apply source_is_next in H.
        by rewrite (bind_ok _ _ _ _ _ (scan_advance_known _ _ _ H)).
    + apply orb_false_iff in Hesc as [Hq Hb].
      rewrite string_app_cons in H.
      erewrite (while_true (fun _ : string => _) _ _ _ _ tk
                  (push_back acc c) (next c tk)).
      * erewrite IH; [|done|by apply source_is_next in H|lia].
        unfold push_back. by rewrite string_app_assoc.
      * rewrite (bind_ok _ _ _ _ _ (scan_peek_known _ _ _ H)). unfold ret.
        by rewrite Hq, (bool_decide_eq_false_2 _ Hc).
      * rewrite (bind_ok _ _ _ _ _ (scan_peek_known _ _ _ H)). rewrite Hb.
        by rewrite (bind_ok _ _ _ _ _ (scan_advance_known _ _ _ H)).
Qed.

Lemma string_known tk value rest :
  string_forall (fun c => negb (bool_decide (c = NUL))) value = true ->
  let text := String DQUOTE (escape value +:+ String DQUOTE "") in
  source_is tk (text +:+ rest) ->
  string_ tk =
  Ok (Token.mk TokenType.String value
        (line (after text tk)) (column (after text tk)),
      after text tk).
Proof.
  intros Hall text H. unfold text in *.
  rewrite string_app_cons, string_app_assoc, string_app_cons,
    string_app_nil_l in H.
  pose proof (source_is_length _ _ H) as Hlen.
  unfold string_. rewrite (bind_ok _ _ _ _ _ (scan_advance_known _ _ _ H)).
  apply source_is_next in H. unfold bind at 1, get.
  erewrite (bind_ok (while _ _ _ _)).
  2:{ eapply string_run_known; [done|exact H|].
      unfold fuel. rewrite source_next.
      assert (String.length value <= String.length (escape value)).
      { clear. induction value as [|c value IH]; simpl; [lia|].
        destruct (_ || _); simpl; lia. }
      simpl in Hlen. rewrite string_app_length in Hlen. lia. }
  apply source_is_after in H. rewrite string_app_nil_l.
  rewrite (bind_ok _ _ _ _ _ (scan_peek_known _ _ _ H)).
  rewrite bool_decide_eq_true_2 by done.
  rewrite (bind_ok _ _ _ _ _ (scan_advance_known _ _ _ H)).
  simpl. by rewrite after_app.
Qed.

(** *** Punctuation *)

Lemma symbol_known tk type value rest :
  symbol_text type = Some value ->
  source_is tk (value +:+ rest) ->
  symbol tk =
  Ok (Token.mk type value (line (after value tk)) (column (after value tk)),
      after value tk).
Proof.
  intros Hty H. unfold symbol.
  destruct type; simplify_eq/=;
    rewrite string_app_cons in H;
    rewrite (bind_ok _ _ _ _ _ (scan_advance_known _ _ _ H)); try done.
  apply source_is_next in H. rewrite string_app_cons in H.
  change (single_symbol "-") with (@None (TokenType.t * string)). cbv iota.
  rewrite bool_decide_eq_true_2 by done.
  by rewrite (bind_ok _ _ _ _ _ (scan_match_known _ _ _ H)).
Qed.

(** *** One round of [tokenize] *)

Lemma tokenize_scan_step :
  tokenize =
  (tk0 <- get ;;
   tokens <- loop (fuel tk0) scan_step [] ;;
   eof <- make_token TokenType.EndOfFile ""%string ;;
   ret (tokens ++ [eof])).
Proof. reflexivity. Qed.

Lemma ident_start_spec c :
  ident_start c = true ->
  isspace c = false /\ c <> "/"%char /\ c <> NUL /\ c <> DQUOTE.
Proof.
  unfold ident_start. intros [Ha|Hu]%orb_true_iff.
  - split_and!; try (intros ->; done).
    destruct (isspace c) eqn:Hs; [|done].
    apply isspace_not_alpha in Hs. congruence.
  - apply bool_decide_eq_true in Hu as ->. by split_and!.
Qed.

Lemma token_start_spec c :
  token_start c -> isspace c = false /\ c <> "/"%char /\ c <> NUL.
Proof.
  intros [c' Hc| |c' Hc].
  - destruct (ident_start_spec c' Hc) as (? & ? & ? & _). by split_and!.
  - by split_and!.
  - repeat (apply elem_of_cons in Hc as [->|Hc]; [by split_and!|]).
    by apply elem_of_nil in Hc.
Qed.

Lemma keywords_identifiers :
  Forall (fun k => is_identifier k = true) keywords.
Proof. by repeat constructor. Qed.

Lemma lexable_shape tok : lexable tok -> shape tok.
Proof.
  intros (Hok & Heof & Hnul). unfold token_ok in Hok.
  destruct tok as [type value l c]. unfold lexeme in *. simpl in *.
  destruct type; try done;
    try (by apply shape_symbol);
    try (by apply shape_string; [|apply Hnul]).
  - apply shape_word; simpl; [done| |].
    + by eapply Forall_forall in Hok; [|apply keywords_identifiers].
    + unfold classify. by rewrite bool_decide_eq_true_2.
  - destruct Hok as (Hid & Hk & Ht & Hf). apply shape_word; simpl; [done..|].
    unfold classify. by rewrite !bool_decide_eq_false_2.
  - apply shape_word; simpl; [done|by destruct Hok as [->| ->]|].
    by destruct Hok as [->| ->].
Qed.

Lemma is_identifier_spec value :
  is_identifier value = true ->
  exists c value',
    value = String c value' /\ ident_start c = true
    /\ string_forall ident_char value = true.
Proof.
  destruct value as [|c value']; [done|]. simpl.
  intros [Hc Hall]%andb_true_iff. exists c, value'.
  by rewrite (ident_start_char _ Hc).
Qed.

(** The text of a lexable token starts a token. *)
Lemma lexeme_start tok :
  shape tok -> exists c l, lexeme tok = String c l /\ token_start c.
Proof.
  intros [Hl Hid _|Hty _|Hl Hty].
  - destruct (is_identifier_spec _ Hid) as (c & v & Hv & Hc & _).
    exists c, v. rewrite Hl. split; [done|]. by apply start_word.
  - unfold lexeme. rewrite Hty. eexists _, _. split; [done|].
    apply start_string.
  - rewrite Hl. destruct (Token.type tok); simplify_eq/=; rewrite <-Hty;
      eexists _, _; (split; [done|]); apply start_symbol;
      by repeat constructor.
Qed.

Lemma skip_gap sp tk rest :
  gap sp -> source_is tk (sp +:+ rest) -> starts_token rest ->
  skip_whitespace_and_comments tk = Ok (tt, after sp tk).
Proof.
  intros [-> | ->] H Hst.
  - by eapply skip_none.
  - by eapply skip_space.
Qed.

(** The text of a token, with the state and the white space before
    it, as [scan_step] meets it. *)
Lemma scan_step_token sp tok rest acc tk :
  gap sp -> lexable tok ->
  source_is tk (sp +:+ lexeme tok +:+ String " " rest) ->
  exists tok',
    scan_step acc tk =
    Ok (Continue (acc ++ [tok']), after (sp +:+ lexeme tok) tk)
    /\ text tok' = text tok.
Proof.
  intros Hsp Hlex H. apply lexable_shape in Hlex as Hshape.
  destruct (lexeme_start _ Hshape) as (c & l & Hl & Hstart).
  destruct (token_start_spec _ Hstart) as (Hspace & Hslash & Hnul).
  assert (pos tk < String.length (source tk)) as Hpos.
  { destruct Hsp as [-> | ->]; rewrite ?Hl in H;
      eapply pos_lt_length; exact H. }
  unfold scan_step, bind at 1, get. rewrite bool_decide_eq_true_2 by done.
  rewrite (bind_ok _ _ _ _ _ (skip_gap _ _ _ Hsp H
                                ltac:(by rewrite Hl))).
  apply source_is_after in H. rewrite after_app.
  set (tk1 := after sp tk) in *. clearbody tk1.
  assert (peek tk1 = Ok (c, tk1)) as Hpeek.
  { rewrite Hl in H. by eapply scan_peek_known. }
  rewrite (bind_ok _ _ _ _ _ Hpeek).
  rewrite bool_decide_eq_false_2 by done.
  destruct Hshape as [Hlv Hid Hcl|Hty Hno|Hlv Hty].
  - destruct (is_identifier_spec _ Hid) as (c' & v & Hv & Hc & Hall).
    rewrite Hlv in *. rewrite Hv in Hl. injection Hl as -> ->.
    unfold ident_start in Hc. rewrite Hc.
    rewrite (bind_ok _ _ _ _ _
               (identifier_or_keyword_known _ _ (String " " rest) Hall
                  eq_refl H)).
    eexists. split; [done|]. unfold text. simpl. by rewrite Hcl.
  - unfold lexeme in *. rewrite Hty in *. injection Hl as <- <-.
    change (isalpha DQUOTE || bool_decide (DQUOTE = "_"%char)) with false.
    cbv iota. rewrite bool_decide_eq_true_2 by done.
    rewrite (bind_ok _ _ _ _ _ (string_known _ _ _ Hno H)).
    eexists. split; [done|]. unfold text. simpl. by rewrite Hty.
  - rewrite Hlv in *.
    assert (isalpha c || bool_decide (c = "_"%char) = false
            /\ c <> DQUOTE) as [-> Hq].
    { destruct (Token.type tok); simplify_eq/=; rewrite <-Hty in Hl;
        by injection Hl as <- _. }
    rewrite bool_decide_eq_false_2 by done.
    rewrite (bind_ok _ _ _ _ _ (symbol_known _ _ _ _ Hty H)).
    eexists. by split.
Qed.

(** The end of the text. *)
Lemma scan_step_end sp acc tk :
  gap sp -> source_is tk sp ->
  exists tk', scan_step acc tk = Ok (Break acc, tk').
Proof.
  intros [-> | ->] H.
  - exists tk. unfold scan_step, bind, get.
    rewrite bool_decide_eq_false_2; [done|].
    destruct H as (pre & -> & ->). rewrite string_app_nil_r. lia.
  - exists (next " " tk). pose proof (pos_lt_length _ _ _ H).
    unfold scan_step, bind at 1, get.
    rewrite bool_decide_eq_true_2 by done.
    rewrite (bind_ok _ _ _ _ _ (skip_space _ _ H I)).
    by rewrite (bind_ok _ _ _ _ _ (peek_end _ (source_is_next _ _ _ H))).
Qed.

(** *** The loop of [tokenize] *)

Lemma scan_loop_print toks :
  Forall lexable toks ->
  forall sp acc tk fuel,
    gap sp -> source_is tk (sp +:+ print toks) ->
    length toks < fuel ->
    exists toks' tk',
      loop fuel scan_step acc tk = Ok (acc ++ toks', tk')
      /\ text <$> toks' = text <$> toks.
Proof.
  induction 1 as [|tok toks Hlex _ IH];
    intros sp acc tk [|fuel] Hsp H Hfuel; simpl in Hfuel; try lia.
  - simpl in H. rewrite string_app_nil_r in H.
    destruct (scan_step_end sp acc tk Hsp H) as [tk' Hstep].
    exists [], tk'. rewrite app_nil_r. split; [|done].
    by apply loop_break.
  - cbn [print] in H. rewrite <-string_app_assoc in H.
    rewrite string_app_assoc in H.
    destruct (scan_step_token sp tok (print toks) acc tk Hsp Hlex H)
      as (tok' & Hstep & Htext).
    rewrite <-string_app_assoc in H. apply source_is_after in H.
    destruct (IH " "%string (acc ++ [tok']) _ fuel (or_intror eq_refl) H
                ltac:(lia)) as (toks' & tk' & Hloop & Htexts).
    exists (tok' :: toks'), tk'. split.
    + rewrite (loop_continue _ _ _ _ _ _ Hstep), Hloop.
      by rewrite <-(assoc_L (++)).
    + by rewrite !fmap_cons, Htext, Htexts.
Qed.

Lemma print_length toks : length toks <= String.length (print toks).
Proof.
  induction toks as [|tok toks IH]; simpl; [lia|].
  rewrite string_app_length. simpl. lia.
Qed.

Lemma lex_print_text toks :
  Forall lexable toks ->
  exists toks',
    lex (print toks) = Ok toks'
    /\ text <$> toks' = (text <$> toks) ++ [(TokenType.EndOfFile, ""%string)].
Proof.
  intros Hlex. unfold lex, eval. rewrite tokenize_scan_step.
  unfold bind at 1, get.
  destruct (scan_loop_print toks Hlex ""%string [] (new (print toks))
              (fuel (new (print toks))) (or_introl eq_refl))
    as (toks' & tk' & Hloop & Htexts).
  - apply source_is_new.
  - pose proof (print_length toks). unfold fuel. simpl. lia.
  - rewrite (bind_ok _ _ _ _ _ Hloop). simpl.
    eexists. split; [done|]. by rewrite fmap_app, Htexts.
Qed.

(** ** Claims *)

(** C12: the scanner reads back what is written: for tokens a script
    can spell (reserved words, TRUE and FALSE, identifiers,
    punctuation, string literals without NUL), [lex] on their texts
    separated by spaces succeeds and returns tokens of the same kinds
    and texts, followed by [EndOfFile]; quotes and backslashes inside a
    literal come back unescaped. *)
Theorem lex_print toks :
  Forall lexable toks ->
  exists toks',
    lex (print toks) = Ok toks'
    /\ text <$> toks' = (text <$> toks) ++ [(TokenType.EndOfFile, ""%string)].
Proof. apply lex_print_text. Qed.

Lemma lex_print_witness :
  exists toks',
    lex (print [Token.mk TokenType.Identifier "x" 0 0;
                Token.mk TokenType.Arrow "->" 0 0;
                Token.mk TokenType.String (String DQUOTE "a") 0 0]) = Ok toks'
    /\ text <$> toks' =
       (text <$> [Token.mk TokenType.Identifier "x" 0 0;
                  Token.mk TokenType.Arrow "->" 0 0;
                  Token.mk TokenType.String (String DQUOTE "a") 0 0])
       ++ [(TokenType.EndOfFile, ""%string)].
Proof.
  apply lex_print.
  repeat apply Forall_cons_2; [..|apply Forall_nil_2];
    (split_and!; [|done|done]); unfold token_ok; simpl; [|done..].
  split_and!; [done| |done..].
  apply (bool_decide_unpack _). by vm_compute.
Defined.
