(* ===== verification/Ast.v ===== *)
(** * Ast: the statement classes of parser.h

    parser.h declares an abstract [struct Statement] and one subclass
    per statement form; the parser allocates them and the interpreter
    tells them apart with [dynamic_pointer_cast].  Here they are the
    constructors of one inductive type, and the interpreter's chain of
    casts is a [match].

    The fields are those parser.cpp writes and interpreter.cpp reads:
    [SetStatement] and [SetDefaultStatement] carry the vectors [parts]
    and [isLiteral].  (parser.h itself still declares a single [value]
    and a flag [isVariable] for these two classes, which no code
    uses.)

    [wf_statement] is what the parser promises the interpreter: [parts]
    and [isLiteral] have the same length and are not empty, so that the
    interpreter's [isLiteral[i]] stays in bounds. *)

From stdpp Require Import base tactics option list strings.
From S2P Require Import Prelude.

Inductive Backend : Set :=
| GLSL | HLSL | MSL | SPIRV | UNKNOWN.

#[export] Instance Backend_eq_dec : EqDecision Backend.
Proof. solve_decision. Defined.

#[warnings="-register-all"]
Inductive Statement : Set :=
| MacroDefStatement (varName macroName : string)
| SetStatement (varName backend : string) (parts : list string)
    (isLiteral : list bool) (isReadFromFile : bool)
| StringDeclaration (name expression : string)
| SetDefaultStatement (varName : string) (parts : list string)
    (isLiteral : list bool) (isReadFromFile : bool)
| LazyStatement (varName : string)
| BooleanDeclaration (name : string) (value : bool)
| IfStatement (conditionVar : string) (body : list Statement)
| GenerateAllStatement
| GenerateSelectStatement (backends : list Backend)
| PrintStatement (expression : string).

(** The nesting depth of [if] blocks. *)
Fixpoint depth (s : Statement) : nat :=
  match s with
  | IfStatement _ body => S (foldr (fun s' d => Nat.max (depth s') d) 0 body)
  | _ => 0
  end.

(** The number of statements, nested ones included. *)
Fixpoint size (s : Statement) : nat :=
  match s with
  | IfStatement _ body => S (foldr (fun s' n => size s' + n) 0 body)
  | _ => 1
  end.

(** [P] holds of a statement and of every statement nested in it. *)
Fixpoint everywhere (P : Statement -> Prop) (s : Statement) : Prop :=
  P s /\
  match s with
  | IfStatement _ body => foldr (fun s' Q => everywhere P s' /\ Q) True body
  | _ => True
  end.

(** The argument vectors of a setter agree in length and are not empty. *)
Definition wf_parts (parts : list string) (isLiteral : list bool) : Prop :=
  length parts = length isLiteral /\ parts <> [].

Definition wf_setter (s : Statement) : Prop :=
  match s with
  | SetStatement _ _ parts isLiteral _ => wf_parts parts isLiteral
  | SetDefaultStatement _ parts isLiteral _ => wf_parts parts isLiteral
  | _ => True
  end.

(** What the parser promises the interpreter. *)
Definition wf_statement : Statement -> Prop := everywhere wf_setter.

(** The names a setter of a scanned script can carry as its backend:
    what follows the first underscore of a reserved word that has one
    and does not contain "default". *)
Definition source_backends : list string :=
  ["glsl"; "hlsl"; "msl"; "spirv"; "all"; "select"]%string.

(** What holds of a statement parsed from a scanned script, beyond
    [wf_setter]: it is no [StringDeclaration], and a setter has exactly
    one argument. *)
Definition source_form (s : Statement) : Prop :=
  match s with
  | StringDeclaration _ _ => False
  | SetStatement _ backend parts isLiteral _ =>
      length parts = 1 /\ backend ∈ source_backends
  | SetDefaultStatement _ parts isLiteral _ => length parts = 1
  | _ => True
  end.

Definition from_source : Statement -> Prop := everywhere source_form.

(** Induction through the body of [IfStatement]. *)
Section StatementInd.
Context (P : Statement -> Prop).
Context (HMacroDef : forall v m, P (MacroDefStatement v m)).
Context (HSet : forall v b ps ls r, P (SetStatement v b ps ls r)).
Context (HString : forall n e, P (StringDeclaration n e)).
Context (HSetDefault : forall v ps ls r, P (SetDefaultStatement v ps ls r)).
Context (HLazy : forall v, P (LazyStatement v)).
Context (HBoolean : forall n b, P (BooleanDeclaration n b)).
Context (HIf : forall c body, Forall P body -> P (IfStatement c body)).
Context (HGenerateAll : P GenerateAllStatement).
Context (HGenerateSelect : forall bs, P (GenerateSelectStatement bs)).
Context (HPrint : forall e, P (PrintStatement e)).

Fixpoint Statement_nested_ind (s : Statement) : P s :=
  match s with
  | MacroDefStatement v m => HMacroDef v m
  | SetStatement v b ps ls r => HSet v b ps ls r
  | StringDeclaration n e => HString n e
  | SetDefaultStatement v ps ls r => HSetDefault v ps ls r
  | LazyStatement v => HLazy v
  | BooleanDeclaration n b => HBoolean n b
  | IfStatement c body =>
      HIf c body
        ((fix go (l : list Statement) : Forall P l :=
            match l with
            | [] => Forall_nil_2 P
            | s' :: l' => Forall_cons_2 P s' l' (Statement_nested_ind s') (go l')
            end) body)
  | GenerateAllStatement => HGenerateAll
  | GenerateSelectStatement bs => HGenerateSelect bs
  | PrintStatement e => HPrint e
  end.
End StatementInd.

Lemma everywhere_if P c body :
  everywhere P (IfStatement c body) <->
  P (IfStatement c body) /\ Forall (everywhere P) body.
Proof.
  simpl. apply and_iff_compat_l.
  induction body as [|s body IH]; simpl.
  - split; [constructor|done].
  - by rewrite Forall_cons, IH.
Qed.

Lemma everywhere_leaf P s :
  (forall c body, s <> IfStatement c body) -> everywhere P s <-> P s.
Proof. destruct s; simpl; try tauto. intros H. by destruct (H conditionVar body). Qed.

Lemma everywhere_here P s : everywhere P s -> P s.
Proof. destruct s; simpl; tauto. Qed.

Lemma everywhere_impl (P Q : Statement -> Prop) s :
  (forall s', P s' -> Q s') -> everywhere P s -> everywhere Q s.
Proof.
  intros HPQ. induction s using Statement_nested_ind;
    try (simpl; intros [? ?]; by auto).
  rewrite !everywhere_if. intros [? Hb]. split; [auto|].
  apply Forall_forall. rewrite Forall_forall in H, Hb. auto.
Qed.

Lemma wf_statement_if c body :
  wf_statement (IfStatement c body) <-> Forall wf_statement body.
Proof. unfold wf_statement. rewrite everywhere_if. simpl. tauto. Qed.

Lemma from_source_if c body :
  from_source (IfStatement c body) <-> Forall from_source body.
Proof. unfold from_source. rewrite everywhere_if. simpl. tauto. Qed.

#[export] Instance wf_parts_dec parts isLiteral :
  Decision (wf_parts parts isLiteral).
Proof. unfold wf_parts. apply _. Defined.
