(* ===== verification/Syntax.v ===== *)
(** * Syntax: the recursive-descent parser of parser.cpp

    Module [Parser] holds class [Parser]: its fields as the record
    [Parser.t] (the token vector and the cursor [current]) and one
    definition per member function, in the monad [M Parser.t].
    [tokens[i]] with [i] outside the vector is [Undefined]; so is
    [previous()] at [current = 0].  The recursion of [parse_statement]
    through [parse_if] and the loops run on fuel; [parse] grants
    [S (length tokens)], which the theorems show is never exhausted on a
    token vector that ends with [EndOfFile].

    What the parser throws is proved apart, by partial correctness and
    for every token vector: [syntax_error] lists the messages and ties
    each to a token of the vector. *)

From Stdlib Require Import Ascii.
From stdpp Require Import base tactics option numbers list strings.
From S2P Require Import Prelude Lexer Ast.

(** parser.cpp, [starts_with]: the helper written for C++ before 20. *)
Definition starts_with (s prefix : string) : bool :=
  (String.length prefix <=? String.length s)
  && bool_decide (String.substring 0 (String.length prefix) s = prefix).

Module Parser.

Record t : Set := mk {
  tokens : list Token.t;
  current : nat
}.

(** [Parser::Parser(tokens)]. *)
Definition new (toks : list Token.t) : t := mk toks 0.

(** The fuel of every loop and of the recursion. *)
Definition fuel (p : t) : nat := S (length (tokens p)).

(** [tokens[current]]. *)
Definition peek : M t Token.t :=
  p <- get ;;
  match tokens p !! current p with
  | Some tok => ret tok
  | None => undefined
  end.

(** [tokens[current - 1]]; at [current = 0] the index wraps around. *)
Definition previous : M t Token.t :=
  p <- get ;;
  match current p with
  | O => undefined
  | S i =>
      match tokens p !! i with
      | Some tok => ret tok
      | None => undefined
      end
  end.

Definition check (type : TokenType.t) : M t bool :=
  tok <- peek ;;
  ret (bool_decide (Token.type tok = type)).

Definition advance : M t Token.t :=
  at_end <- check TokenType.EndOfFile ;;
  (if at_end then ret tt
   else modify (fun p => mk (tokens p) (S (current p)))) ;;
  previous.

Definition match_ (type : TokenType.t) : M t bool :=
  b <- check type ;;
  if b then advance ;; ret true
  else ret false.

(** The message of a failed [consume]. *)
Definition at_line (errorMessage : string) (tok : Token.t) : exception :=
  runtime_error (errorMessage +:+ " at line " +:+ to_string (Token.line tok)).

Definition consume (type : TokenType.t) (errorMessage : string) : M t unit :=
  b <- match_ type ;;
  if b then ret tt
  else tok <- peek ;; throw (at_line errorMessage tok).

(** [consume(type, msg); x = previous().value]. *)
Definition consume_value (type : TokenType.t) (errorMessage : string)
  : M t string :=
  consume type errorMessage ;;
  tok <- previous ;;
  ret (Token.value tok).

Definition parse_macro_def : M t Statement :=
  varName <- consume_value TokenType.Identifier
               "Expected macro variable name" ;;
  consume TokenType.Equals "Expected '='" ;;
  kw <- consume_value TokenType.Keyword "Expected 'Macro'" ;;
  if bool_decide (kw <> "Macro"%string) then
    throw (runtime_error "Expected 'Macro(...)'")
  else
    consume TokenType.LParen "Expected '('" ;;
    macroName <- consume_value TokenType.String
                   "Expected macro name string" ;;
    consume TokenType.RParen "Expected ')'" ;;
    consume TokenType.Semicolon "Expected ';'" ;;
    ret (MacroDefStatement varName macroName).

(** One argument of a setter: a string literal or an identifier. *)
Definition parse_part (func : string)
  (acc : list string * list bool) : M t (list string * list bool) :=
  let '(parts, isLiteral) := acc in
  is_string <- match_ TokenType.String ;;
  if is_string then
    tok <- previous ;;
    ret (parts ++ [Token.value tok], isLiteral ++ [true])
  else
    is_ident <- match_ TokenType.Identifier ;;
    if is_ident then
      tok <- previous ;;
      ret (parts ++ [Token.value tok], isLiteral ++ [false])
    else
      throw (runtime_error
               ("Expected string literal or string variable inside "
                +:+ func)).

Definition parse_set_or_read : M t Statement :=
  p0 <- get ;;
  tok <- advance ;;
  let varName := Token.value tok in
  consume TokenType.Dot "Expected '.'" ;;
  func <- consume_value TokenType.Keyword
            "Expected setter/reader function" ;;
  if bool_decide (func = "lazy"%string) then
    consume TokenType.LParen "Expected '(' after lazy" ;;
    consume TokenType.RParen "Expected ')' after lazy()" ;;
    consume TokenType.Semicolon "Expected ';' after lazy()" ;;
    ret (LazyStatement varName)
  else
    let isRead := starts_with func "read_" in
    let isDefault := bool_decide (find func "default" <> None) in
    consume TokenType.LParen "Expected '('" ;;
    '(parts, isLiteral) <-
      do_while (fuel p0) (parse_part func)
        (fun _ => match_ TokenType.Plus) ([], []) ;;
    consume TokenType.RParen "Expected ')'" ;;
    consume TokenType.Semicolon "Expected ';'" ;;
    if isDefault then
      ret (SetDefaultStatement varName parts isLiteral isRead)
    else
      match find func "_" with
      | Some underscore =>
          backend <- substr func (underscore + 1) ;;
          ret (SetStatement varName backend parts isLiteral isRead)
      | None => throw (runtime_error "Invalid set/read function name")
      end.

Definition parse_lazy : M t Statement :=
  throw (runtime_error "lazy() must be used as a method on a macro").

Definition parse_boolean : M t Statement :=
  name <- consume_value TokenType.Identifier
            "Expected boolean variable name" ;;
  consume TokenType.Equals "Expected '='" ;;
  text <- consume_value TokenType.Boolean "Expected TRUE or FALSE" ;;
  let value := bool_decide (text = "TRUE"%string) in
  consume TokenType.Semicolon "Expected ';'" ;;
  ret (BooleanDeclaration name value).

(** [!check(RBrace) && !check(EndOfFile)], with its short circuit. *)
Definition in_block : M t bool :=
  closing <- check TokenType.RBrace ;;
  if closing then ret false
  else at_end <- check TokenType.EndOfFile ;; ret (negb at_end).

(** [parse_if], given the parser of the nested statements. *)
Definition parse_if (parse_statement : M t Statement) : M t Statement :=
  p0 <- get ;;
  consume TokenType.LParen "Expected '(' after if" ;;
  conditionVar <- consume_value TokenType.Identifier
                    "Expected condition variable" ;;
  consume TokenType.RParen "Expected ')'" ;;
  consume TokenType.LBrace "Expected '{'" ;;
  body <- while (fuel p0) (fun _ => in_block)
            (fun body => s <- parse_statement ;; ret (body ++ [s])) [] ;;
  consume TokenType.RBrace "Expected '}'" ;;
  ret (IfStatement conditionVar body).

Definition parse_backend_enum (value : string) : Backend :=
  if bool_decide (value = "GLSL"%string) then GLSL
  else if bool_decide (value = "HLSL"%string) then HLSL
  else if bool_decide (value = "MSL"%string) then MSL
  else if bool_decide (value = "SPIRV"%string) then SPIRV
  else UNKNOWN.

(** The loop of [generate_select]: a backend name, then a comma unless
    the closing parenthesis follows. *)
Definition parse_backend (backends : list Backend) : M t (list Backend) :=
  name <- consume_value TokenType.Identifier "Expected backend name" ;;
  closing <- check TokenType.RParen ;;
  (if closing then ret tt
   else consume TokenType.Comma "Expected ',' between backends") ;;
  ret (backends ++ [parse_backend_enum name]).

Definition parse_generate : M t Statement :=
  p0 <- get ;;
  consume TokenType.Arrow "Expected '->'" ;;
  func <- consume_value TokenType.Keyword "Expected generate function" ;;
  consume TokenType.LParen "Expected '('" ;;
  if bool_decide (func = "generate_all"%string) then
    consume TokenType.RParen "Expected ')'" ;;
    consume TokenType.Semicolon "Expected ';'" ;;
    ret GenerateAllStatement
  else if bool_decide (func = "generate_select"%string) then
    backends <-
      while (fuel p0)
        (fun _ => closing <- check TokenType.RParen ;; ret (negb closing))
        parse_backend [] ;;
    consume TokenType.RParen "Expected ')'" ;;
    consume TokenType.Semicolon "Expected ';'" ;;
    ret (GenerateSelectStatement backends)
  else throw (runtime_error ("Unknown generate function: " +:+ func)).

Definition parse_print : M t Statement :=
  kw <- consume_value TokenType.Keyword "Expected SYSTEM" ;;
  if bool_decide (kw <> "SYSTEM"%string) then
    throw (runtime_error "Expected SYSTEM")
  else
    consume TokenType.Arrow "Expected '->'" ;;
    expr <- consume_value TokenType.Identifier "Expected list_backends" ;;
    consume TokenType.LParen "Expected '('" ;;
    consume TokenType.RParen "Expected ')'" ;;
    consume TokenType.Semicolon "Expected ';'" ;;
    ret (PrintStatement expr).

(** One operand after a ['+'] of [parse_string]. *)
Definition parse_string_operand (result : string) : M t string :=
  is_string <- match_ TokenType.String ;;
  is_operand <-
    (if is_string then ret true else match_ TokenType.Identifier) ;;
  if is_operand then
    tok <- previous ;;
    ret (result +:+ Token.value tok)
  else throw (runtime_error "Expected string or identifier after '+'").

Definition parse_string : M t Statement :=
  p0 <- get ;;
  name <- consume_value TokenType.Identifier
            "Expected variable name after 'string'" ;;
  consume TokenType.Equals "Expected '=' after variable name" ;;
  first <- consume_value TokenType.String "Expected string or identifier" ;;
  result <- while (fuel p0) (fun _ => match_ TokenType.Plus)
              parse_string_operand (""%string +:+ first) ;;
  consume TokenType.Semicolon "Expected ';' after string declaration" ;;
  ret (StringDeclaration name result).

(** The end of [parse_statement], reached when no keyword form
    returned. *)
Definition parse_statement_rest : M t Statement :=
  is_ident <- check TokenType.Identifier ;;
  if is_ident then parse_set_or_read
  else
    tok <- peek ;;
    throw (runtime_error
             ("Unknown statement at line " +:+ to_string (Token.line tok))).

Fixpoint parse_statement (fuel : nat) : M t Statement :=
  match fuel with
  | O => out_of_fuel
  | S n =>
      is_keyword <- match_ TokenType.Keyword ;;
      if is_keyword then
        kw <- previous ;;
        let keyword := Token.value kw in
        if bool_decide (keyword = "macrodef"%string) then parse_macro_def
        else if bool_decide (keyword = "boolean"%string) then parse_boolean
        else if bool_decide (keyword = "if"%string)
             then parse_if (parse_statement n)
        else if bool_decide (keyword = "SYSTEM"%string) then parse_generate
        else if bool_decide (keyword = "print"%string) then parse_print
        else if bool_decide (keyword = "string"%string) then parse_string
        else parse_statement_rest
      else parse_statement_rest
  end.

Definition parse : M t (list Statement) :=
  p0 <- get ;;
  while (fuel p0)
    (fun _ => at_end <- check TokenType.EndOfFile ;; ret (negb at_end))
    (fun statements =>
       s <- parse_statement (fuel p0) ;; ret (statements ++ [s]))
    [].

(** ** Specification vocabulary *)

(** The token under the cursor. *)
Definition cur (p : t) : option Token.t := tokens p !! current p.

(** The cursor is on a token of a vector that ends with [EndOfFile]. *)
Definition wf (p : t) : Prop :=
  wf_tokens (tokens p) /\ current p < length (tokens p).

(** [p'] is a later state of the parse that [p] is a state of. *)
Definition le (p p' : t) : Prop :=
  tokens p' = tokens p /\ current p <= current p' /\ wf p'.

(** [p'] is a later state, at least one token further. *)
Definition lt (p p' : t) : Prop :=
  tokens p' = tokens p /\ current p < current p' /\ wf p'.

(** The state after one token is consumed. *)
Definition next (p : t) : t := mk (tokens p) (S (current p)).

(** The tokens still to parse: the variant of every loop. *)
Definition remaining (p : t) : nat := length (tokens p) - current p.

(** The parser throws [std::runtime_error] only. *)
Definition parse_error (e : exception) : Prop :=
  exists what, e = runtime_error what.

(** The messages [consume] is called with. *)
Definition expected : list string :=
  ["Expected macro variable name"; "Expected '='"; "Expected 'Macro'";
   "Expected '('"; "Expected macro name string"; "Expected ')'";
   "Expected ';'"; "Expected '.'"; "Expected setter/reader function";
   "Expected '(' after lazy"; "Expected ')' after lazy()";
   "Expected ';' after lazy()"; "Expected boolean variable name";
   "Expected TRUE or FALSE"; "Expected '(' after if";
   "Expected condition variable"; "Expected '{'"; "Expected '}'";
   "Expected backend name"; "Expected ',' between backends";
   "Expected '->'"; "Expected generate function"; "Expected SYSTEM";
   "Expected list_backends"; "Expected variable name after 'string'";
   "Expected '=' after variable name"; "Expected string or identifier";
   "Expected ';' after string declaration"]%string.

(** The errors of the parser on the tokens [toks]: a message of
    [consume] or "Unknown statement" with the line of a token of the
    vector; a message that quotes the reserved word of a token of the
    vector; or one of four fixed messages. *)
Definition syntax_error (toks : list Token.t) (e : exception) : Prop :=
  (exists msg tok, msg ∈ expected /\ tok ∈ toks /\ e = at_line msg tok)
  \/ (exists tok, tok ∈ toks
        /\ e = runtime_error ("Unknown statement at line "
                              +:+ to_string (Token.line tok)))
  \/ (exists tok, tok ∈ toks
        /\ (e = runtime_error
                  ("Expected string literal or string variable inside "
                   +:+ Token.value tok)
            \/ e = runtime_error
                     ("Unknown generate function: " +:+ Token.value tok)))
  \/ e ∈ [runtime_error "Expected 'Macro(...)'";
          runtime_error "Invalid set/read function name";
          runtime_error "Expected SYSTEM";
          runtime_error "Expected string or identifier after '+'"].

(** [m] keeps the token vector [toks], returns values of [Q] and
    throws syntax errors. *)
Definition throws (toks : list Token.t) {A} (m : M t A) (Q : A -> Prop)
  : Prop :=
  partial (fun p => tokens p = toks) (syntax_error toks) m Q.

(** The text of a token of [toks]. *)
Definition value_of (toks : list Token.t) (v : string) : Prop :=
  exists tok, tok ∈ toks /\ v = Token.value tok.

(** A statement parsed between [p] and [p']. *)
Definition parsed (p : t) (s : Statement) (p' : t) : Prop :=
  lt p p' /\ wf_statement s
  /\ (Forall token_ok (tokens p) -> from_source s).

End Parser.

(** [Parser parser(tokens); parser.parse()], as main.cpp calls the
    parser. *)
Definition parse_tokens (toks : list Token.t) : result (list Statement) :=
  eval Parser.parse (Parser.new toks).

(** The scanner and the parser in sequence. *)
Definition parse_source (src : string) : result (list Statement) :=
  match lex src with
  | Ok toks => parse_tokens toks
  | Throw e => Throw e
  | Undefined => Undefined
  | OutOfFuel => OutOfFuel
  end.

(** The parser's side of its interface with the interpreter. *)
Class StatementParser (parser : list Token.t -> result (list Statement))
  : Prop := {
  parser_defined toks : wf_tokens toks -> parser toks <> Undefined;
  parser_terminates toks : wf_tokens toks -> parser toks <> OutOfFuel;
  parser_wf toks stmts :
    wf_tokens toks -> parser toks = Ok stmts -> Forall wf_statement stmts
}.

(** A scanner and a parser in sequence. *)
Definition frontend (scan : string -> result (list Token.t))
  (parser : list Token.t -> result (list Statement)) (src : string)
  : result (list Statement) :=
  match scan src with
  | Ok toks => parser toks
  | Throw e => Throw e
  | Undefined => Undefined
  | OutOfFuel => OutOfFuel
  end.

(** ** Theorems *)

Import Parser.

Ltac order_p :=
  unfold lt, le, wf, remaining, next in *; simpl in *;
  intuition (try congruence; try lia).

(** *** The order on parser states *)

Lemma parser_le_refl p : wf p -> le p p.
Proof. order_p. Qed.

Lemma parser_lt_le p p' : lt p p' -> le p p'.
Proof. order_p. Qed.

Lemma parser_le_trans p1 p2 p3 : le p1 p2 -> le p2 p3 -> le p1 p3.
Proof. order_p. Qed.

Lemma parser_lt_le_trans p1 p2 p3 : lt p1 p2 -> le p2 p3 -> lt p1 p3.
Proof. order_p. Qed.

Lemma parser_le_lt_trans p1 p2 p3 : le p1 p2 -> lt p2 p3 -> lt p1 p3.
Proof. order_p. Qed.

Lemma parser_le_wf p p' : le p p' -> wf p'.
Proof. order_p. Qed.

Lemma parser_lt_wf p p' : lt p p' -> wf p'.
Proof. order_p. Qed.

Lemma parser_lt_remaining p p' : lt p p' -> remaining p' < remaining p.
Proof. intros (Hs & ? & ? & ?). unfold remaining. rewrite Hs in *. lia. Qed.

Lemma parser_le_remaining p p' : le p p' -> remaining p' <= remaining p.
Proof. intros (Hs & ? & ? & ?). unfold remaining. rewrite Hs in *. lia. Qed.

Lemma parser_remaining_fuel p p0 :
  tokens p = tokens p0 -> remaining p < fuel p0.
Proof. intros Hs. unfold remaining, fuel. rewrite Hs. lia. Qed.

Lemma parser_le_tokens p p' : le p p' -> tokens p' = tokens p.
Proof. order_p. Qed.

Lemma parser_lt_tokens p p' : lt p p' -> tokens p' = tokens p.
Proof. order_p. Qed.

Lemma new_wf_parser toks : wf_tokens toks -> wf (new toks).
Proof.
  intros (body & eof & -> & ?). split; [by exists body, eof|].
  simpl. rewrite length_app. simpl. lia.
Qed.

#[export] Hint Resolve parser_le_refl parser_lt_le parser_le_trans
  parser_lt_le_trans parser_le_lt_trans parser_le_wf parser_lt_wf
  parser_lt_remaining parser_remaining_fuel parser_le_tokens
  parser_lt_tokens new_wf_parser : slayout.

(** *** The cursor *)

Lemma wf_cur p : wf p -> is_Some (cur p).
Proof. intros [_ H]. by apply lookup_lt_is_Some. Qed.

(** Past a token that is not [EndOfFile] there is another token. *)
Lemma parser_wf_next p tok :
  wf p -> cur p = Some tok -> Token.type tok <> TokenType.EndOfFile ->
  lt p (next p).
Proof.
  intros [(body & eof & Ht & He) Hc] Hcur Hne.
  unfold lt, wf, next, cur in *; simpl. rewrite Ht in *.
  split_and!; [done|lia|by exists body, eof|].
  rewrite length_app in *. simpl in *.
  destruct (decide (current p = length body)) as [Heq|]; [|lia].
  rewrite Heq, list_lookup_middle in Hcur by done. by simplify_eq.
Qed.

(** *** [peek], [previous], [check], [advance], [match_], [consume] *)

Lemma wp_parser_peek p (Q : Token.t -> t -> Prop) E :
  wf p -> (forall tok, cur p = Some tok -> Q tok p) -> wp peek p Q E.
Proof.
  intros Hwf HQ. destruct (wf_cur p Hwf) as [tok Hc].
  unfold wp, peek, bind, get. unfold cur in Hc. rewrite Hc. by apply HQ.
Qed.

Lemma wp_check type p (Q : bool -> t -> Prop) E :
  wf p ->
  (forall tok, cur p = Some tok -> Q (bool_decide (Token.type tok = type)) p) ->
  wp (check type) p Q E.
Proof.
  intros Hwf HQ. unfold check. apply wp_bind, wp_parser_peek; [done|].
  intros tok Hc. by apply wp_ret, HQ.
Qed.

Lemma wp_previous p0 p (Q : Token.t -> t -> Prop) E :
  lt p0 p -> (forall tok, Q tok p) -> wp previous p Q E.
Proof.
  intros (_ & Hc & _ & Hl) HQ. unfold wp, previous, bind, get.
  destruct (current p) as [|i] eqn:Hi; [lia|].
  destruct (lookup_lt_is_Some_2 (tokens p) i) as [tok ->]; [lia|]. apply HQ.
Qed.

(** [previous] right after a token was consumed. *)
Lemma wp_previous_next p tok (Q : Token.t -> t -> Prop) E :
  cur p = Some tok -> Q tok (next p) -> wp previous (next p) Q E.
Proof.
  intros Hc HQ. unfold wp, previous, bind, get. simpl.
  unfold cur in Hc. by rewrite Hc.
Qed.

Lemma wp_parser_advance p tok (Q : Token.t -> t -> Prop) E :
  wf p -> cur p = Some tok -> Token.type tok <> TokenType.EndOfFile ->
  Q tok (next p) -> wp advance p Q E.
Proof.
  intros Hwf Hc Hne HQ. unfold advance.
  apply wp_bind, wp_check; [done|]. intros tok' Hc'.
  assert (tok' = tok) as -> by congruence.
  rewrite bool_decide_eq_false_2 by done.
  by apply wp_bind, wp_modify, (wp_previous_next _ tok).
Qed.

(** [match_] on a kind other than [EndOfFile]: the cursor moves by one
    exactly when the kinds agree. *)
Lemma wp_parser_match type p (Q : bool -> t -> Prop) E :
  wf p -> type <> TokenType.EndOfFile ->
  (forall tok, cur p = Some tok -> Token.type tok = type ->
               lt p (next p) -> Q true (next p)) ->
  (forall tok, cur p = Some tok -> Token.type tok <> type -> Q false p) ->
  wp (match_ type) p Q E.
Proof.
  intros Hwf Hne Ht Hf. unfold match_. apply wp_bind, wp_check; [done|].
  intros tok Hc. case_bool_decide as Hty; [|by eapply wp_ret, Hf].
  apply wp_bind. eapply wp_parser_advance; [done..|congruence|].
  apply wp_ret. eapply Ht; [done..|]. eapply parser_wf_next; [done..|congruence].
Qed.

Lemma wp_consume type msg p (Q : unit -> t -> Prop) (E : exception -> Prop) :
  wf p -> type <> TokenType.EndOfFile ->
  (forall tok, cur p = Some tok -> Token.type tok = type ->
               lt p (next p) -> Q tt (next p)) ->
  (forall tok, cur p = Some tok -> Token.type tok <> type ->
               E (at_line msg tok)) ->
  wp (consume type msg) p Q E.
Proof.
  intros Hwf Hne Ht Hf. unfold consume.
  apply wp_bind, wp_parser_match; [done..| |].
  - intros tok Hc Hty Hlt. by eapply wp_ret, Ht.
  - intros tok Hc Hty. apply wp_bind, wp_parser_peek; [done|].
    intros tok' Hc'. apply wp_throw. assert (tok' = tok) as -> by congruence.
    by apply Hf.
Qed.

Lemma wp_consume_value type msg p (Q : string -> t -> Prop)
    (E : exception -> Prop) :
  wf p -> type <> TokenType.EndOfFile ->
  (forall tok, cur p = Some tok -> Token.type tok = type ->
               lt p (next p) -> Q (Token.value tok) (next p)) ->
  (forall tok, cur p = Some tok -> Token.type tok <> type ->
               E (at_line msg tok)) ->
  wp (consume_value type msg) p Q E.
Proof.
  intros Hwf Hne Ht Hf. unfold consume_value.
  apply wp_bind, wp_consume; [done..| |done].
  intros tok Hc Hty Hlt. apply wp_bind, (wp_previous_next _ tok); [done|].
  by eapply wp_ret, Ht.
Qed.

(** The same rules with the postcondition every parsing function
    keeps: the cursor has moved on from [p0]. *)
Lemma consume_spec p0 p type msg :
  le p0 p -> type <> TokenType.EndOfFile ->
  wp (consume type msg) p (fun _ p' => lt p0 p') parse_error.
Proof.
  intros Hle Hne. apply wp_consume; [by eauto with slayout|done|..].
  - intros. eauto with slayout.
  - intros. by eexists.
Qed.

Lemma consume_value_spec p0 p type msg :
  le p0 p -> type <> TokenType.EndOfFile ->
  wp (consume_value type msg) p
     (fun v p' => lt p0 p' /\
                  exists tok, tok ∈ tokens p0 /\ Token.type tok = type
                              /\ Token.value tok = v)
     parse_error.
Proof.
  intros Hle Hne. apply wp_consume_value; [by eauto with slayout|done|..].
  - intros tok Hc Hty Hlt. split; [eauto with slayout|].
    exists tok. split_and!; [|done..].
    rewrite <-(parser_le_tokens _ _ Hle). by eapply list_elem_of_lookup_2.
  - intros. by eexists.
Qed.

(** *** The statement forms *)

(** Step through a [bind] whose first call has a proved specification. *)
Ltac wp_use lem :=
  apply wp_bind; eapply wp_mono;
  [eapply lem; try done; eauto with slayout|cbn beta|try done].

Lemma parsed_leaf p0 p' s :
  lt p0 p' -> (forall c body, s <> IfStatement c body) ->
  wf_setter s -> (Forall token_ok (tokens p0) -> source_form s) ->
  parsed p0 s p'.
Proof.
  intros Hlt Hleaf Hwf Hsrc. unfold parsed, wf_statement, from_source.
  rewrite !everywhere_leaf by done. auto.
Qed.

Lemma throw_parse_error {A} what p (Q : A -> t -> Prop) :
  wp (throw (runtime_error what)) p Q parse_error.
Proof. apply wp_throw. by eexists. Qed.

#[export] Hint Resolve throw_parse_error : slayout.

Lemma parse_macro_def_spec p0 p :
  le p0 p -> wp parse_macro_def p (parsed p0) parse_error.
Proof.
  intros Hle. unfold parse_macro_def.
  wp_use consume_value_spec. intros varName p1 [H1 _].
  wp_use consume_spec. intros [] p2 H2.
  wp_use consume_value_spec. intros kw p3 [H3 _].
  case_bool_decide; [by auto with slayout|].
  wp_use consume_spec. intros [] p4 H4.
  wp_use consume_value_spec. intros macroName p5 [H5 _].
  wp_use consume_spec. intros [] p6 H6.
  wp_use consume_spec. intros [] p7 H7.
  apply wp_ret. by apply parsed_leaf.
Qed.

Lemma parse_boolean_spec p0 p :
  le p0 p -> wp parse_boolean p (parsed p0) parse_error.
Proof.
  intros Hle. unfold parse_boolean.
  wp_use consume_value_spec. intros name p1 [H1 _].
  wp_use consume_spec. intros [] p2 H2.
  wp_use consume_value_spec. intros text p3 [H3 _].
  wp_use consume_spec. intros [] p4 H4.
  apply wp_ret. by apply parsed_leaf.
Qed.

Lemma parse_print_spec p0 p :
  le p0 p -> wp parse_print p (parsed p0) parse_error.
Proof.
  intros Hle. unfold parse_print.
  wp_use consume_value_spec. intros kw p1 [H1 _].
  case_bool_decide; [by auto with slayout|].
  wp_use consume_spec. intros [] p2 H2.
  wp_use consume_value_spec. intros expr p3 [H3 _].
  wp_use consume_spec. intros [] p4 H4.
  wp_use consume_spec. intros [] p5 H5.
  wp_use consume_spec. intros [] p6 H6.
  apply wp_ret. by apply parsed_leaf.
Qed.

(** The loop of [generate_select]. *)
Lemma parse_backend_spec p0 p backends :
  le p0 p ->
  wp (parse_backend backends) p (fun _ p' => lt p0 p') parse_error.
Proof.
  intros Hle. unfold parse_backend.
  wp_use consume_value_spec. intros name p1 [H1 _].
  apply wp_bind, wp_check; [by eauto with slayout|]. intros tok Hc.
  case_bool_decide.
  - apply wp_bind, wp_ret, wp_ret. done.
  - wp_use consume_spec. intros [] p2 H2. by apply wp_ret.
Qed.

Lemma parse_generate_spec p0 p :
  le p0 p -> wp parse_generate p (parsed p0) parse_error.
Proof.
  intros Hle. unfold parse_generate. apply wp_bind, wp_get.
  wp_use consume_spec. intros [] p1 H1.
  wp_use consume_value_spec. intros func p2 [H2 _].
  wp_use consume_spec. intros [] p3 H3.
  case_bool_decide as Hall.
  { wp_use consume_spec. intros [] p4 H4.
    wp_use consume_spec. intros [] p5 H5.
    apply wp_ret. by apply parsed_leaf. }
  case_bool_decide as Hsel; [|by auto with slayout].
  apply wp_bind. eapply wp_post.
  { eapply (wp_while (fun _ p' => le p3 p') (fun _ p' => remaining p')
                     _ _ (fun _ p' => le p3 p'));
      [|by eauto with slayout
       |apply parser_remaining_fuel; rewrite (parser_lt_tokens _ _ H3);
        by eauto using eq_sym with slayout].
    intros backends p4 H4. apply wp_bind, wp_check; [by eauto with slayout|].
    intros tok Hc. apply wp_ret. case_bool_decide as Hcl; simpl; [done|].
    eapply wp_post; [by apply (parse_backend_spec p4), parser_le_refl;
                     eauto with slayout|].
    intros bs p5 Hb. eauto with slayout. }
  intros backends p4 H4; cbn beta.
  wp_use consume_spec. intros [] p5 H5.
  wp_use consume_spec. intros [] p6 H6.
  apply wp_ret. by apply parsed_leaf.
Qed.

(** What follows the first underscore of a reserved word that has one
    and does not contain "default". *)
Lemma keyword_backend func underscore :
  func ∈ Tokenizer.keywords ->
  find func "default" = None -> find func "_" = Some underscore ->
  from_pos func (underscore + 1) ∈ source_backends.
Proof.
  unfold Tokenizer.keywords. rewrite !elem_of_cons, elem_of_nil.
  intros Hin Hd Hu.
  repeat destruct Hin as [->|Hin]; try done;
    vm_compute in Hd, Hu; simplify_eq;
    apply (bool_decide_unpack _); by vm_compute.
Qed.

(** No scanned token is a [Plus]. *)
Lemma token_ok_not_plus toks tok :
  Forall token_ok toks -> tok ∈ toks ->
  Token.type tok <> TokenType.Plus.
Proof.
  intros Hall Hin Hty. rewrite Forall_forall in Hall.
  specialize (Hall _ Hin). unfold token_ok in Hall. by rewrite Hty in Hall.
Qed.

Lemma token_ok_keyword toks tok :
  Forall token_ok toks -> tok ∈ toks ->
  Token.type tok = TokenType.Keyword ->
  Token.value tok ∈ Tokenizer.keywords.
Proof.
  intros Hall Hin Hty. rewrite Forall_forall in Hall.
  specialize (Hall _ Hin). unfold token_ok in Hall. by rewrite Hty in Hall.
Qed.

Lemma cur_elem_of p0 p tok :
  le p0 p -> cur p = Some tok -> tok ∈ tokens p0.
Proof.
  intros Hle Hc. rewrite <-(parser_le_tokens _ _ Hle).
  by eapply list_elem_of_lookup_2.
Qed.

(** [match_ Plus] as a loop test: it moves on, and on scanned tokens
    it never succeeds. *)
Lemma match_plus_spec p0 p (I : Prop) :
  le p0 p ->
  wp (match_ TokenType.Plus) p
     (fun b p' => le p0 p' /\ (b = true -> lt p p')
                  /\ (b = true -> Forall token_ok (tokens p0) -> I)
                  /\ (b = false -> p' = p))
     parse_error.
Proof.
  intros Hle. apply wp_parser_match; [by eauto with slayout|done|..].
  - intros tok Hc Hty Hlt. split_and!; [by eauto with slayout|done| |done].
    intros _ Hall. by destruct (token_ok_not_plus _ tok Hall (cur_elem_of _ _ _ Hle Hc)).
  - intros. by split_and!.
Qed.

Lemma previous_spec p0 p E :
  lt p0 p -> wp previous p (fun _ p' => p' = p) E.
Proof. intros. by eapply wp_previous. Qed.

Lemma parse_part_spec p0 p func parts isLiteral :
  le p0 p ->
  wp (parse_part func (parts, isLiteral)) p
     (fun acc p' => lt p0 p' /\ lt p p'
                    /\ length acc.1 = S (length parts)
                    /\ length acc.2 = S (length isLiteral))
     parse_error.
Proof.
  intros Hle. unfold parse_part.
  assert (wf p) by eauto with slayout.
  apply wp_bind, wp_parser_match; [done..| |].
  { intros tok Hc Hty Hlt. wp_use previous_spec. intros tok' p' ->.
    apply wp_ret. simpl. rewrite !length_app. simpl.
    split_and!; [by eauto with slayout|done|lia..]. }
  intros _ _ _. apply wp_bind, wp_parser_match; [done..| |].
  { intros tok Hc Hty Hlt. wp_use previous_spec. intros tok' p' ->.
    apply wp_ret. simpl. rewrite !length_app. simpl.
    split_and!; [by eauto with slayout|done|lia..]. }
  intros. auto with slayout.
Qed.

(** The argument list of a setter: the [do ... while (match(Plus))]. *)
Lemma parse_parts_spec p0 p1 p func :
  le p0 p -> tokens p1 = tokens p0 ->
  wp (do_while (fuel p1) (parse_part func)
        (fun _ => match_ TokenType.Plus) ([], [])) p
     (fun acc p' => lt p0 p' /\ wf_parts acc.1 acc.2
                    /\ (Forall token_ok (tokens p0) -> length acc.1 = 1))
     parse_error.
Proof.
  intros Hle Htok.
  eapply (wp_do_while
    (fun acc p' => le p p' /\ length acc.1 = length acc.2
                   /\ (Forall token_ok (tokens p0) -> acc = ([], [])))
    (fun _ p' => remaining p'));
    [|by split_and!; eauto with slayout
     |apply parser_remaining_fuel; rewrite Htok; by eauto with slayout].
  intros [parts lits] p2 (Hle2 & Hlen & Hinit); simpl in *.
  eapply wp_post; [by apply (parse_part_spec p0); eauto with slayout|].
  intros [parts' lits'] p3 (Hlt3 & Hlt23 & Hl1 & Hl2); simpl in *.
  eapply wp_post;
    [by apply (match_plus_spec p0 _ ((parts', lits') = ([], [])));
        eauto with slayout|].
  intros [|] p4 (Hle4 & Hmv & Habs & Hst); simpl.
  - specialize (Hmv eq_refl).
    split_and!; [by eauto 6 with slayout|lia|by auto|].
    apply parser_lt_remaining. eauto with slayout.
  - rewrite (Hst eq_refl). split_and!; [done| |].
    + split; [lia|]. by destruct parts'.
    + intros Hall. specialize (Hinit Hall). simplify_eq/=. lia.
Qed.

Lemma parse_set_or_read_spec p0 p tok :
  le p0 p -> cur p = Some tok -> Token.type tok = TokenType.Identifier ->
  wp parse_set_or_read p (parsed p0) parse_error.
Proof.
  intros Hle Hc Hty. unfold parse_set_or_read. apply wp_bind, wp_get.
  assert (lt p0 (next p)) as H0.
  { eapply parser_le_lt_trans; [done|].
    eapply parser_wf_next; [by eauto with slayout|done|by rewrite Hty]. }
  apply wp_bind.
  eapply wp_parser_advance; [by eauto with slayout|done|by rewrite Hty|].
  wp_use consume_spec. intros [] p1 H1.
  wp_use consume_value_spec. intros func p2 (H2 & kw & Hin & Hkw & <-).
  case_bool_decide as Hlazy.
  { wp_use consume_spec. intros [] p3 H3.
    wp_use consume_spec. intros [] p4 H4.
    wp_use consume_spec. intros [] p5 H5.
    apply wp_ret. by apply parsed_leaf. }
  wp_use consume_spec. intros [] p3 H3.
  wp_use (parse_parts_spec p0 p).
  intros [parts lits] p4 (H4 & Hwf & Hone); simpl in *.
  wp_use consume_spec. intros [] p5 H5.
  wp_use consume_spec. intros [] p6 H6.
  case_bool_decide as Hdef; [by apply wp_ret, parsed_leaf|].
  destruct (find (Token.value kw) "_") as [underscore|] eqn:Hu;
    [|by auto with slayout].
  pose proof (find_lt _ "_" _ ltac:(done) Hu).
  rewrite substr_ok by lia.
  apply wp_bind, wp_ret, wp_ret, parsed_leaf; [done..|].
  intros Hall. split; [by auto|].
  eapply keyword_backend; [by eapply token_ok_keyword| |done].
  by destruct (find (Token.value kw) "default"); [destruct Hdef|].
Qed.

Lemma parse_string_operand_spec p0 p result :
  le p0 p ->
  wp (parse_string_operand result) p (fun _ p' => lt p0 p') parse_error.
Proof.
  intros Hle. unfold parse_string_operand.
  assert (wf p) by eauto with slayout.
  apply wp_bind, wp_parser_match; [done..| |].
  { intros tok Hc Hty Hlt. apply wp_bind, wp_ret.
    wp_use previous_spec. intros tok' p' ->. apply wp_ret.
    eauto with slayout. }
  intros _ _ _. apply wp_bind, wp_parser_match; [done..| |].
  { intros tok Hc Hty Hlt.
    wp_use previous_spec. intros tok' p' ->. apply wp_ret.
    eauto with slayout. }
  intros. auto with slayout.
Qed.

Lemma parse_string_spec p0 p :
  le p0 p ->
  wp parse_string p
     (fun s p' => lt p0 p' /\ exists name e, s = StringDeclaration name e)
     parse_error.
Proof.
  intros Hle. unfold parse_string. apply wp_bind, wp_get.
  wp_use consume_value_spec. intros name p1 [H1 _].
  wp_use consume_spec. intros [] p2 H2.
  wp_use consume_value_spec. intros first p3 [H3 _].
  apply wp_bind. eapply wp_post.
  { eapply (wp_while (fun _ p' => le p3 p') (fun _ p' => remaining p')
                     _ _ (fun _ p' => le p3 p'));
      [|by eauto with slayout
       |apply parser_remaining_fuel; rewrite (parser_lt_tokens _ _ H3);
        by eauto using eq_sym with slayout].
    intros result p4 H4.
    eapply wp_post; [by apply (match_plus_spec p3 _ True)|].
    intros [|] p5 (H5 & Hmv & _ & Hst); [|by rewrite (Hst eq_refl)].
    specialize (Hmv eq_refl).
    eapply wp_post; [by apply (parse_string_operand_spec p5), parser_le_refl;
                     eauto with slayout|].
    intros r p6 H6. split; [by eauto with slayout|].
    apply parser_lt_remaining. eauto with slayout. }
  intros result p4 H4; cbn beta.
  wp_use consume_spec. intros [] p5 H5.
  apply wp_ret. eauto.
Qed.

(** [parse_if], for any parser [rec] of the nested statements that
    meets the specification on the states of the block. *)
Lemma parse_if_spec (rec : M t Statement) p0 p :
  le p0 p ->
  (forall p1 p2, lt p p1 -> le p1 p2 -> wp rec p2 (parsed p1) parse_error) ->
  wp (parse_if rec) p (parsed p0) parse_error.
Proof.
  intros Hle Hrec. unfold parse_if. apply wp_bind, wp_get.
  wp_use (consume_spec p). intros [] p1 H1.
  wp_use consume_value_spec. intros cond p2 [H2 _].
  wp_use consume_spec. intros [] p3 H3.
  wp_use consume_spec. intros [] p4 H4.
  apply wp_bind. eapply wp_post.
  { eapply (wp_while
      (fun body p' => le p4 p' /\ Forall wf_statement body
                      /\ (Forall token_ok (tokens p0) -> Forall from_source body))
      (fun _ p' => remaining p')
      _ _
      (fun body p' => le p4 p' /\ Forall wf_statement body
                      /\ (Forall token_ok (tokens p0) -> Forall from_source body)));
      [|by split_and!; eauto with slayout
       |apply parser_remaining_fuel; by eauto with slayout].
    intros body p5 (H5 & Hwf & Hsrc). unfold in_block.
    assert (wf p5) by eauto with slayout.
    apply wp_bind, wp_check; [done|]. intros tok Hc.
    case_bool_decide as Hrb; [by apply wp_ret|].
    apply wp_bind, wp_check; [done|]. intros tok' Hc'. apply wp_ret.
    case_bool_decide as Heof; simpl; [done|].
    wp_use (Hrec p5 p5). intros s p6 (H6 & Hwfs & Hsrcs). apply wp_ret.
    split_and!; [by eauto with slayout| | |by eauto with slayout].
    - apply Forall_app. by split; [|constructor].
    - intros Hall. apply Forall_app. split; [by auto|].
      constructor; [|done]. apply Hsrcs.
      by rewrite (parser_le_tokens p0 p5) by eauto 6 with slayout. }
  intros body p5 (H5 & Hwf & Hsrc); cbn beta.
  wp_use (consume_spec p). intros [] p6 H6. apply wp_ret.
  unfold parsed. rewrite wf_statement_if, from_source_if.
  split_and!; [by eauto with slayout|done..].
Qed.

Lemma parse_statement_rest_spec p0 p :
  le p0 p -> wp parse_statement_rest p (parsed p0) parse_error.
Proof.
  intros Hle. unfold parse_statement_rest.
  assert (wf p) by eauto with slayout.
  apply wp_bind, wp_check; [done|]. intros tok Hc.
  case_bool_decide as Hty; [by eapply parse_set_or_read_spec|].
  apply wp_bind, wp_parser_peek; [done|]. auto with slayout.
Qed.

(** "string" is no reserved word of the scanner. *)
Lemma string_not_keyword : "string"%string ∉ Tokenizer.keywords.
Proof. apply (bool_decide_unpack _). by vm_compute. Qed.

(** A statement strengthened to the cursor [p0] it is parsed from. *)
Lemma parsed_le p0 p s p' : le p0 p -> parsed p s p' -> parsed p0 s p'.
Proof.
  intros Hle (Hlt & Hwf & Hsrc). split_and!; [by eauto with slayout|done|].
  intros Hall. apply Hsrc. by rewrite (parser_le_tokens p0 p).
Qed.

(** The recursion of [parse_statement] needs one unit of fuel per
    remaining token. *)
Lemma parse_statement_spec n p0 p :
  le p0 p -> remaining p < n ->
  wp (parse_statement n) p (parsed p0) parse_error.
Proof.
  revert p0 p. induction n as [|n IH]; intros p0 p Hle Hn; [lia|].
  cbn [parse_statement]. assert (wf p) by eauto with slayout.
  apply wp_bind, wp_parser_match; [done..| |];
    [|intros; by apply parse_statement_rest_spec].
  intros kw Hc Hty Hlt.
  assert (le p0 (next p)) as Hle1 by eauto with slayout.
  apply wp_bind, (wp_previous_next _ kw); [done|].
  repeat case_bool_decide;
    eauto using parse_macro_def_spec, parse_boolean_spec,
      parse_generate_spec, parse_print_spec, parse_statement_rest_spec.
  - eapply parse_if_spec; [done|]. intros p1 p2 Hp1 Hp2.
    eapply wp_post; [apply (IH p2 p2); [by eauto with slayout|]|].
    + pose proof (parser_lt_remaining _ _ Hlt).
      pose proof (parser_lt_remaining _ _ Hp1).
      pose proof (parser_le_remaining _ _ Hp2). lia.
    + intros s p3 Hp. by eapply parsed_le.
  - eapply wp_post; [by apply parse_string_spec|].
    intros s p1 (Hp1 & name & e & ->). split_and!; [done..|].
    intros Hall. exfalso. apply string_not_keyword.
    assert (kw ∈ tokens p0) as Hin by eauto using cur_elem_of.
    pose proof (token_ok_keyword _ _ Hall Hin Hty) as Hk. congruence.
Qed.

Lemma parse_spec p :
  wf p ->
  wp parse p
     (fun stmts p' => le p p' /\ Forall wf_statement stmts
                      /\ (Forall token_ok (tokens p) -> Forall from_source stmts))
     parse_error.
Proof.
  intros Hwf. unfold parse. apply wp_bind, wp_get.
  eapply (wp_while
    (fun stmts p' => le p p' /\ Forall wf_statement stmts
                     /\ (Forall token_ok (tokens p) -> Forall from_source stmts))
    (fun _ p' => remaining p'));
    [|by split_and!; eauto with slayout|by apply parser_remaining_fuel].
  intros stmts p1 (H1 & Hw & Hs).
  apply wp_bind, wp_check; [by eauto with slayout|]. intros tok Hc.
  apply wp_ret. case_bool_decide as Heof; simpl; [done|].
  wp_use (parse_statement_spec (fuel p) p1 p1).
  intros s p2 (H2 & Hws & Hss). apply wp_ret.
  split_and!; [by eauto with slayout| | |by eauto with slayout].
  - apply Forall_app. by split; [|constructor].
  - intros Hall. apply Forall_app. split; [by auto|].
    constructor; [|done]. apply Hss. by rewrite (parser_le_tokens p p1).
Qed.

(** *** The parser as main.cpp calls it *)

(** Every outcome of [parse_tokens] on a token vector that ends with
    [EndOfFile]. *)
Lemma parse_tokens_spec toks :
  wf_tokens toks ->
  match parse_tokens toks with
  | Ok stmts =>
      Forall wf_statement stmts
      /\ (Forall token_ok toks -> Forall from_source stmts)
  | Throw e => parse_error e
  | Undefined | OutOfFuel => False
  end.
Proof.
  intros Hwf. pose proof (parse_spec (new toks) (new_wf_parser _ Hwf)) as H.
  unfold wp in H. unfold parse_tokens, eval.
  destruct (parse (new toks)) as [[stmts p']|e| |]; [|done..].
  by destruct H as (_ & ? & ?).
Qed.

(** C2: on a token vector that ends with an [EndOfFile] token the
    parser has no undefined behaviour and does not run out of fuel,
    whatever the tokens before it. *)
Theorem parse_tokens_safe toks :
  wf_tokens toks ->
  parse_tokens toks <> Undefined /\ parse_tokens toks <> OutOfFuel.
Proof.
  intros Hwf. pose proof (parse_tokens_spec toks Hwf) as Hs.
  split; intros Heq; by rewrite Heq in Hs.
Qed.

Lemma parse_tokens_safe_witness :
  parse_tokens [Token.mk TokenType.RBrace "}" 1 1;
                Token.mk TokenType.EndOfFile "" 1 1] <> Undefined
  /\ parse_tokens [Token.mk TokenType.RBrace "}" 1 1;
                   Token.mk TokenType.EndOfFile "" 1 1] <> OutOfFuel.
Proof.
  apply parse_tokens_safe. by eapply wf_tokens_last.
Defined.

(** C6: every setter the parser builds has argument vectors [parts]
    and [isLiteral] of the same, non-zero length, inside [if] bodies
    too: the interpreter's [isLiteral[i]] and [isLiteral[0]] are in
    bounds. *)
Theorem parse_tokens_wf toks stmts :
  wf_tokens toks -> parse_tokens toks = Ok stmts ->
  Forall wf_statement stmts.
Proof.
  intros Hwf Heq. pose proof (parse_tokens_spec toks Hwf) as Hs.
  rewrite Heq in Hs. tauto.
Qed.

Lemma parse_tokens_wf_witness :
  Forall wf_statement [LazyStatement "a"].
Proof.
  apply (parse_tokens_wf
           [Token.mk TokenType.Identifier "a" 1 1;
            Token.mk TokenType.Dot "." 1 1;
            Token.mk TokenType.Keyword "lazy" 1 1;
            Token.mk TokenType.LParen "(" 1 1;
            Token.mk TokenType.RParen ")" 1 1;
            Token.mk TokenType.Semicolon ";" 1 1;
            Token.mk TokenType.EndOfFile "" 1 1]).
  - by eapply wf_tokens_last.
  - vm_compute. reflexivity.
Defined.

(** C23: a script that scans and parses contains no string declaration
    and no setter with more than one argument, at any depth, and the
    backend of a [SetStatement] is one of glsl, hlsl, msl, spirv, all,
    select: the scanner classifies "string" as an identifier and has no
    ['+'] token, so [parse_string] and the concatenation loop of
    [parse_set_or_read] cannot be reached from a script, while
    [generate_all] and [generate_select] are accepted as setter
    names. *)
Theorem parse_source_from_source src stmts :
  parse_source src = Ok stmts -> Forall from_source stmts.
Proof.
  unfold parse_source. destruct (lex src) as [toks| | |] eqn:Hl; [|done..].
  intros Heq.
  pose proof (parse_tokens_spec toks (scan_wf _ _ Hl)) as Hs.
  rewrite Heq in Hs. apply Hs. by eapply scan_token_ok.
Qed.

Lemma parse_source_from_source_witness :
  Forall from_source [SetStatement "a" "all" ["b"] [false] false].
Proof.
  apply (parse_source_from_source "lazy a.generate_all(b);").
  vm_compute. reflexivity.
Defined.

(** *** What the parser throws

    Partial correctness over the token vector: the member functions
    leave [tokens] alone, and what they throw is a [syntax_error] of
    it.  No hypothesis on the vector is needed. *)

Section Errors.
Context (toks : list Token.t).

Lemma throws_ret {A} (a : A) (Q : A -> Prop) : Q a -> throws toks (ret a) Q.
Proof. apply partial_ret. Qed.

Lemma throws_throw {A} e (Q : A -> Prop) :
  syntax_error toks e -> throws toks (throw e) Q.
Proof. apply partial_throw. Qed.

Lemma throws_bind {A B} (m : M t A) (k : A -> M t B) Q R :
  throws toks m Q -> (forall a, Q a -> throws toks (k a) R) ->
  throws toks (bind m k) R.
Proof. apply partial_bind. Qed.

Lemma throws_get : throws toks get (fun p => tokens p = toks).
Proof. apply partial_get. Qed.

Lemma throws_while {A} (cond : A -> M t bool) (body : A -> M t A) fuel a :
  (forall a, throws toks (cond a) (fun _ => True)) ->
  (forall a, throws toks (body a) (fun _ => True)) ->
  throws toks (while fuel cond body a) (fun _ => True).
Proof.
  intros Hc Hb.
  apply partial_while; [intros ? _; apply Hc|intros ? _; apply Hb|done].
Qed.

Lemma throws_do_while {A} (body : A -> M t A) (cond : A -> M t bool)
    fuel a :
  (forall a, throws toks (body a) (fun _ => True)) ->
  (forall a, throws toks (cond a) (fun _ => True)) ->
  throws toks (do_while fuel body cond a) (fun _ => True).
Proof.
  intros Hb Hc.
  apply partial_do_while; [intros ? _; apply Hb|intros ? _; apply Hc|done].
Qed.

Lemma throws_peek : throws toks peek (.∈ toks).
Proof.
  intros p Hp. unfold peek, bind, get.
  destruct (tokens p !! current p) eqn:Hl; [|done]. split; [done|].
  rewrite <-Hp. by eapply list_elem_of_lookup_2.
Qed.

Lemma throws_previous : throws toks previous (.∈ toks).
Proof.
  intros p Hp. unfold previous, bind, get. destruct (current p) as [|i]; [done|].
  destruct (tokens p !! i) eqn:Hl; [|done]. split; [done|].
  rewrite <-Hp. by eapply list_elem_of_lookup_2.
Qed.

Lemma throws_check type : throws toks (check type) (fun _ => True).
Proof.
  eapply throws_bind; [apply throws_peek|]. intros. by apply throws_ret.
Qed.

Lemma throws_advance : throws toks advance (.∈ toks).
Proof.
  eapply throws_bind; [apply throws_check|]. intros at_end _.
  eapply throws_bind with (Q := fun _ => True);
    [|intros; apply throws_previous].
  destruct at_end; [by apply throws_ret|]. by apply partial_modify.
Qed.

Lemma throws_match type : throws toks (match_ type) (fun _ => True).
Proof.
  eapply throws_bind; [apply throws_check|]. intros [|] _;
    [|by apply throws_ret].
  eapply throws_bind; [apply throws_advance|]. intros. by apply throws_ret.
Qed.

Lemma throws_consume type msg :
  msg ∈ expected -> throws toks (consume type msg) (fun _ => True).
Proof.
  intros Hmsg. eapply throws_bind; [apply throws_match|].
  intros [|] _; [by apply throws_ret|].
  eapply throws_bind; [apply throws_peek|]. intros tok Htok.
  apply throws_throw. left. by exists msg, tok.
Qed.

Lemma throws_consume_value type msg :
  msg ∈ expected -> throws toks (consume_value type msg) (value_of toks).
Proof.
  intros Hmsg. eapply throws_bind; [by apply throws_consume|]. intros _ _.
  eapply throws_bind; [apply throws_previous|]. intros tok Htok.
  apply throws_ret. by exists tok.
Qed.

Lemma throws_substr s pos :
  pos <= String.length s -> throws toks (substr s pos) (fun _ => True).
Proof. intros Hle. rewrite substr_ok by done. by apply throws_ret. Qed.

End Errors.

Create HintDb errors.

#[local] Hint Resolve throws_get throws_peek throws_previous throws_check throws_advance
  throws_match throws_consume throws_consume_value : errors.
#[local] Hint Extern 1 (_ ∈ expected) => by repeat constructor : errors.

(** One of the messages that carry no line. *)
Ltac fixed_message :=
  unfold syntax_error;
  first [ by right; right; left; eexists; split; [eassumption|auto]
        | right; right; right; by repeat constructor ].

(** One step through a member function: the first call of a sequence
    by the lemmas above, the branches one by one. *)
Ltac throws_step :=
  lazymatch goal with
  | |- throws _ (bind _ _) _ =>
      first
        [ eapply throws_bind; [solve [eauto with errors]|];
          let H := fresh in
          intros ? H; cbv beta; try destruct H as (? & ? & ->)
        | eapply throws_bind with (Q := fun _ => True); [|intros ? _] ]
  | |- throws _ (if ?b then _ else _) _ => destruct b
  | |- throws _ (let '(_, _) := ?x in _) _ => destruct x
  | |- throws _ (ret _) _ => by apply throws_ret
  | |- throws _ (throw _) _ => apply throws_throw; fixed_message
  | |- _ => solve [eauto with errors]
  end.

Ltac throws := repeat throws_step.

Section StatementErrors.
Context (toks : list Token.t).

Lemma throws_parse_macro_def : throws toks parse_macro_def (fun _ => True).
Proof. unfold parse_macro_def. throws. Qed.

Lemma throws_parse_part tok acc :
  tok ∈ toks -> throws toks (parse_part (Token.value tok) acc) (fun _ => True).
Proof. intros Htok. unfold parse_part. throws. Qed.

Lemma throws_parse_set_or_read :
  throws toks parse_set_or_read (fun _ => True).
Proof.
  unfold parse_set_or_read. do 5 throws_step; [throws|]. throws_step.
  eapply throws_bind.
  - apply throws_do_while; intros acc;
      [by apply throws_parse_part|throws].
  - intros [parts isLiteral] _. do 3 throws_step; [throws|].
    destruct (find _ _) as [underscore|] eqn:Hu; [|throws].
    pose proof (find_lt _ "_" _ ltac:(done) Hu).
    eapply throws_bind; [apply throws_substr; lia|]. intros. throws.
Qed.

Lemma throws_parse_boolean : throws toks parse_boolean (fun _ => True).
Proof. unfold parse_boolean. throws. Qed.

Lemma throws_in_block : throws toks in_block (fun _ => True).
Proof. unfold in_block. throws. Qed.

Lemma throws_parse_if (rec : M t Statement) :
  throws toks rec (fun _ => True) ->
  throws toks (parse_if rec) (fun _ => True).
Proof.
  intros Hrec. unfold parse_if. do 5 throws_step.
  eapply throws_bind; [|intros; throws].
  apply throws_while; intros body; [apply throws_in_block|].
  eapply throws_bind; [apply Hrec|]. intros. by apply throws_ret.
Qed.

Lemma throws_parse_backend backends :
  throws toks (parse_backend backends) (fun _ => True).
Proof. unfold parse_backend. throws. Qed.

Lemma throws_parse_generate : throws toks parse_generate (fun _ => True).
Proof.
  unfold parse_generate. do 5 throws_step; [throws|]. throws_step; [|throws].
  eapply throws_bind; [|intros; throws].
  apply throws_while; intros bs; [throws|apply throws_parse_backend].
Qed.

Lemma throws_parse_print : throws toks parse_print (fun _ => True).
Proof. unfold parse_print. throws. Qed.

Lemma throws_parse_string_operand result :
  throws toks (parse_string_operand result) (fun _ => True).
Proof. unfold parse_string_operand. throws. Qed.

Lemma throws_parse_string : throws toks parse_string (fun _ => True).
Proof.
  unfold parse_string. do 4 throws_step.
  eapply throws_bind; [|intros; throws].
  apply throws_while; intros r;
    [apply throws_match|apply throws_parse_string_operand].
Qed.

Lemma throws_parse_statement_rest :
  throws toks parse_statement_rest (fun _ => True).
Proof.
  unfold parse_statement_rest. do 2 throws_step;
    [apply throws_parse_set_or_read|].
  eapply throws_bind; [apply throws_peek|]. intros tok Htok.
  apply throws_throw. right. left. by exists tok.
Qed.

Lemma throws_parse_statement fuel :
  throws toks (parse_statement fuel) (fun _ => True).
Proof.
  induction fuel as [|fuel IH]; [done|]. cbn [parse_statement].
  pose proof throws_parse_macro_def. pose proof throws_parse_boolean.
  pose proof throws_parse_generate. pose proof throws_parse_print.
  pose proof throws_parse_string. pose proof throws_parse_statement_rest.
  pose proof (throws_parse_if _ IH). throws.
Qed.

Lemma throws_parse : throws toks parse (fun _ => True).
Proof.
  unfold parse. eapply throws_bind; [apply throws_get|]. intros p0 _.
  apply throws_while; intros stmts; [throws|].
  eapply throws_bind; [apply throws_parse_statement|].
  intros. by apply throws_ret.
Qed.

End StatementErrors.

Lemma parse_tokens_throws toks e :
  parse_tokens toks = Throw e -> syntax_error toks e.
Proof. by apply (partial_throws _ _ _ _ _ _ (throws_parse toks)). Qed.

(** C37: the errors of the parser, on every token vector.  What
    [parse_tokens] throws is a [std::runtime_error] with a message of
    [consume] or "Unknown statement", followed by " at line " and the
    line of a token of the vector; or a message that quotes the text
    of a token of the vector; or one of four fixed messages.  In
    particular [substr] behind [find] never throws
    [std::out_of_range]. *)
Theorem parse_tokens_errors toks e :
  parse_tokens toks = Throw e -> syntax_error toks e.
Proof. apply parse_tokens_throws. Qed.

Lemma parse_tokens_errors_witness :
  syntax_error [Token.mk TokenType.RBrace "}" 1 1;
                Token.mk TokenType.EndOfFile "" 1 1]
    (runtime_error "Unknown statement at line 1").
Proof. apply parse_tokens_errors. vm_compute. reflexivity. Defined.

(** Without the final [EndOfFile] the parser reads past the vector. *)
Example parse_tokens_needs_eof :
  parse_tokens [] = Undefined
  /\ parse_tokens [Token.mk TokenType.Identifier "a" 1 1] = Undefined.
Proof. split; reflexivity. Qed.

(** ** The interfaces, discharged and composed *)

#[export] Instance parse_tokens_parser : StatementParser parse_tokens.
Proof.
  split; intros toks; [intros Hwf Heq..|intros stmts Hwf Heq];
    pose proof (parse_tokens_spec toks Hwf) as Hs; rewrite Heq in Hs;
    tauto.
Qed.

(** [frontend] on a scanner and a parser known by their interfaces. *)
Section Frontend.
Context (scan : string -> result (list Token.t)) `{!Scanner scan}.
Context (parser : list Token.t -> result (list Statement))
  `{!StatementParser parser}.

Lemma frontend_total src :
  frontend scan parser src <> Undefined /\
  frontend scan parser src <> OutOfFuel.
Proof.
  unfold frontend. pose proof (scan_defined (scan:=scan) src).
  pose proof (scan_terminates (scan:=scan) src).
  destruct (scan src) as [toks| | |] eqn:Hs; [|done..].
  apply scan_wf in Hs.
  split; [by apply parser_defined|by apply parser_terminates].
Qed.

Lemma frontend_wf src stmts :
  frontend scan parser src = Ok stmts -> Forall wf_statement stmts.
Proof.
  unfold frontend. destruct (scan src) as [toks| | |] eqn:Hs; [|done..].
  apply scan_wf in Hs. by apply parser_wf.
Qed.

End Frontend.

Lemma parse_source_frontend src :
  parse_source src = frontend lex parse_tokens src.
Proof. reflexivity. Qed.

(** C36: the scanner and the parser in sequence terminate on every
    source text and never index the token vector out of bounds: the
    fuel [S (length tokens)] granted to the recursion of
    [parse_statement] and to each loop of the parser is never exhausted,
    and [tokens[current]] and [tokens[current - 1]] are always inside
    the vector. *)
Theorem parse_source_total src :
  parse_source src <> Undefined /\ parse_source src <> OutOfFuel.
Proof. rewrite parse_source_frontend. apply frontend_total; apply _. Qed.
