(* ===== verification/Unparse.v ===== *)
(** * Unparse: every statement has tokens the parser reads back

    [unparse] writes a statement as the tokens of its concrete syntax;
    the theorem of this file is that [Parser.parse] returns the
    statements it is given the tokens of.  It is the converse of the
    parser's safety theorems: every well-formed program is accepted,
    and the tree the interpreter sees is the tree that was written.

    The proofs run the parser on a token vector known only by the
    suffix under the cursor ([rest_is]); each member function of
    [Parser] has an equation for that situation.  The same equations
    give the error of a program that goes on with a token that starts
    no statement. *)

From Stdlib Require Import Ascii.
From stdpp Require Import base tactics option numbers list strings.
From S2P Require Import Prelude Lexer Ast Syntax.

(** ** The tokens of a statement *)

(** A token of the given kind and text; the parser reads the position
    of a token only to report an error. *)
Definition token (type : TokenType.t) (value : string) : Token.t :=
  Token.mk type value 1 1.

(** The reserved word of a setter. *)
Definition setter (backend : string) (isReadFromFile : bool) : string :=
  (if isReadFromFile then "read_" else "set_") +:+ backend.

Definition default_setter (isReadFromFile : bool) : string :=
  if isReadFromFile then "read_default" else "set_default".

Definition part_token (arg : string * bool) : Token.t :=
  token (if arg.2 then TokenType.String else TokenType.Identifier) arg.1.

(** The arguments of a setter, joined by ['+']. *)
Fixpoint unparse_args (args : list (string * bool)) : list Token.t :=
  match args with
  | [] => []
  | [arg] => [part_token arg]
  | arg :: args' =>
      part_token arg :: token TokenType.Plus "+" :: unparse_args args'
  end.

Definition backend_ident (b : Backend) : string :=
  match b with
  | GLSL => "GLSL"
  | HLSL => "HLSL"
  | MSL => "MSL"
  | SPIRV => "SPIRV"
  | UNKNOWN => "UNKNOWN"
  end.

(** The backends of [generate_select], joined by [',']. *)
Fixpoint unparse_backends (backends : list Backend) : list Token.t :=
  match backends with
  | [] => []
  | [b] => [token TokenType.Identifier (backend_ident b)]
  | b :: backends' =>
      token TokenType.Identifier (backend_ident b)
      :: token TokenType.Comma "," :: unparse_backends backends'
  end.

Fixpoint unparse (s : Statement) : list Token.t :=
  match s with
  | MacroDefStatement varName macroName =>
      [token TokenType.Keyword "macrodef";
       token TokenType.Identifier varName;
       token TokenType.Equals "=";
       token TokenType.Keyword "Macro";
       token TokenType.LParen "(";
       token TokenType.String macroName;
       token TokenType.RParen ")";
       token TokenType.Semicolon ";"]
  | SetStatement varName backend parts isLiteral isReadFromFile =>
      [token TokenType.Identifier varName;
       token TokenType.Dot ".";
       token TokenType.Keyword (setter backend isReadFromFile);
       token TokenType.LParen "("]
      ++ unparse_args (zip parts isLiteral)
      ++ [token TokenType.RParen ")"; token TokenType.Semicolon ";"]
  | StringDeclaration name expression =>
      [token TokenType.Keyword "string";
       token TokenType.Identifier name;
       token TokenType.Equals "=";
       token TokenType.String expression;
       token TokenType.Semicolon ";"]
  | SetDefaultStatement varName parts isLiteral isReadFromFile =>
      [token TokenType.Identifier varName;
       token TokenType.Dot ".";
       token TokenType.Keyword (default_setter isReadFromFile);
       token TokenType.LParen "("]
      ++ unparse_args (zip parts isLiteral)
      ++ [token TokenType.RParen ")"; token TokenType.Semicolon ";"]
  | LazyStatement varName =>
      [token TokenType.Identifier varName;
       token TokenType.Dot ".";
       token TokenType.Keyword "lazy";
       token TokenType.LParen "(";
       token TokenType.RParen ")";
       token TokenType.Semicolon ";"]
  | BooleanDeclaration name value =>
      [token TokenType.Keyword "boolean";
       token TokenType.Identifier name;
       token TokenType.Equals "=";
       token TokenType.Boolean (if value then "TRUE" else "FALSE");
       token TokenType.Semicolon ";"]
  | IfStatement conditionVar body =>
      [token TokenType.Keyword "if";
       token TokenType.LParen "(";
       token TokenType.Identifier conditionVar;
       token TokenType.RParen ")";
       token TokenType.LBrace "{"]
      ++ flat_map unparse body
      ++ [token TokenType.RBrace "}"]
  | GenerateAllStatement =>
      [token TokenType.Keyword "SYSTEM";
       token TokenType.Arrow "->";
       token TokenType.Keyword "generate_all";
       token TokenType.LParen "(";
       token TokenType.RParen ")";
       token TokenType.Semicolon ";"]
  | GenerateSelectStatement backends =>
      [token TokenType.Keyword "SYSTEM";
       token TokenType.Arrow "->";
       token TokenType.Keyword "generate_select";
       token TokenType.LParen "("]
      ++ unparse_backends backends
      ++ [token TokenType.RParen ")"; token TokenType.Semicolon ";"]
  | PrintStatement expression =>
      [token TokenType.Keyword "print";
       token TokenType.Keyword "SYSTEM";
       token TokenType.Arrow "->";
       token TokenType.Identifier expression;
       token TokenType.LParen "(";
       token TokenType.RParen ")";
       token TokenType.Semicolon ";"]
  end.

(** The tokens of a program, with the [EndOfFile] that ends them. *)
Definition unparse_program (statements : list Statement) : list Token.t :=
  flat_map unparse statements ++ [token TokenType.EndOfFile ""].

(** ** The statements that can be written *)

(** A setter can be written when its vectors are well formed and its
    backend does not make the reserved word contain "default"; every
    other statement can. *)
Definition printable_here (s : Statement) : Prop :=
  match s with
  | SetStatement _ backend parts isLiteral isReadFromFile =>
      wf_parts parts isLiteral
      /\ find (setter backend isReadFromFile) "default" = None
  | SetDefaultStatement _ parts isLiteral _ => wf_parts parts isLiteral
  | _ => True
  end.

Definition printable : Statement -> Prop := everywhere printable_here.

(** The suffix of the token vector that starts under the cursor. *)
Definition rest_is (p : Parser.t) (rest : list Token.t) : Prop :=
  drop (Parser.current p) (Parser.tokens p) = rest.

(** The state [n] tokens further. *)
Definition skip (n : nat) (p : Parser.t) : Parser.t :=
  Parser.mk (Parser.tokens p) (n + Parser.current p).

(** ** Theorems *)

Import Parser.

(** *** The cursor *)

Lemma rest_is_lookup p tok rest :
  rest_is p (tok :: rest) -> tokens p !! current p = Some tok.
Proof.
  unfold rest_is. intros H.
  by rewrite <-(Nat.add_0_r (current p)), <-lookup_drop, H.
Qed.

Lemma rest_is_next p tok rest : rest_is p (tok :: rest) -> rest_is (next p) rest.
Proof.
  intros H. pose proof (rest_is_lookup _ _ _ H) as Hl.
  unfold rest_is, next in *. simpl. rewrite (drop_S _ _ _ Hl) in H.
  congruence.
Qed.

Lemma skip_0 p : skip 0 p = p.
Proof. by destruct p. Qed.

Lemma skip_next n p : skip n (next p) = skip (S n) p.
Proof. unfold skip, next. simpl. f_equal. lia. Qed.

Lemma skip_skip n m p : skip n (skip m p) = skip (n + m) p.
Proof. unfold skip. simpl. f_equal. lia. Qed.

Lemma rest_is_skip p l rest :
  rest_is p (l ++ rest) -> rest_is (skip (length l) p) rest.
Proof.
  unfold rest_is, skip. simpl. intros H.
  by rewrite Nat.add_comm, <-drop_drop, H, drop_app_length.
Qed.

Lemma rest_is_length p rest : rest_is p rest -> length rest <= length (tokens p).
Proof. unfold rest_is. intros <-. rewrite length_drop. lia. Qed.

(** *** The member functions on a known token *)

Section Known.
Context (p : t) (tok : Token.t) (rest : list Token.t).
Context (Hrest : rest_is p (tok :: rest)).

Lemma peek_known : peek p = Ok (tok, p).
Proof. unfold peek, bind, get. by rewrite (rest_is_lookup _ _ _ Hrest). Qed.

Lemma check_known type :
  check type p = Ok (bool_decide (Token.type tok = type), p).
Proof. unfold check. by rewrite (bind_ok _ _ _ _ _ peek_known). Qed.

Lemma previous_known : previous (next p) = Ok (tok, next p).
Proof.
  unfold previous, bind, get. simpl. by rewrite (rest_is_lookup _ _ _ Hrest).
Qed.

Lemma advance_known :
  Token.type tok <> TokenType.EndOfFile -> advance p = Ok (tok, next p).
Proof.
  intros Hne. unfold advance.
  rewrite (bind_ok _ _ _ _ _ (check_known _)).
  rewrite bool_decide_eq_false_2 by done.
  unfold bind at 1, modify. apply previous_known.
Qed.

Lemma match_known type :
  Token.type tok = type -> type <> TokenType.EndOfFile ->
  match_ type p = Ok (true, next p).
Proof.
  intros Hty Hne. unfold match_.
  rewrite (bind_ok _ _ _ _ _ (check_known _)).
  rewrite bool_decide_eq_true_2 by done.
  rewrite (bind_ok _ _ _ tok (next p)); [done|].
  apply advance_known. congruence.
Qed.

Lemma match_other type :
  Token.type tok <> type -> match_ type p = Ok (false, p).
Proof.
  intros Hty. unfold match_.
  rewrite (bind_ok _ _ _ _ _ (check_known _)).
  by rewrite bool_decide_eq_false_2.
Qed.

Lemma consume_known type errorMessage :
  Token.type tok = type -> type <> TokenType.EndOfFile ->
  consume type errorMessage p = Ok (tt, next p).
Proof.
  intros Hty Hne. unfold consume.
  by rewrite (bind_ok _ _ _ _ _ (match_known _ Hty Hne)).
Qed.

Lemma consume_value_known type errorMessage :
  Token.type tok = type -> type <> TokenType.EndOfFile ->
  consume_value type errorMessage p = Ok (Token.value tok, next p).
Proof.
  intros Hty Hne. unfold consume_value.
  rewrite (bind_ok _ _ _ _ _ (consume_known _ _ Hty Hne)).
  by rewrite (bind_ok _ _ _ _ _ previous_known).
Qed.

End Known.

(** One [consume] or [consume_value] on the token [H] knows. *)
Ltac step H :=
  first
    [ erewrite (bind_ok (consume _ _));
      [|by eapply consume_known; [exact H|reflexivity|]]
    | erewrite (bind_ok (consume_value _ _));
      [|by eapply consume_value_known; [exact H|reflexivity|]] ];
  apply rest_is_next in H; cbn [Token.value token].

(** *** The statement forms without a loop *)

Lemma parse_macro_def_unparse p varName macroName rest :
  rest_is p (tail (unparse (MacroDefStatement varName macroName)) ++ rest) ->
  parse_macro_def p = Ok (MacroDefStatement varName macroName, skip 7 p).
Proof.
  intros H. simpl in H. unfold parse_macro_def. do 3 step H.
  rewrite bool_decide_eq_false_2 by (by intros []). by do 4 step H.
Qed.

Lemma parse_boolean_unparse p name value rest :
  rest_is p (tail (unparse (BooleanDeclaration name value)) ++ rest) ->
  parse_boolean p = Ok (BooleanDeclaration name value, skip 4 p).
Proof.
  intros H. simpl in H. unfold parse_boolean. do 4 step H.
  by destruct value.
Qed.

Lemma parse_print_unparse p expression rest :
  rest_is p (tail (unparse (PrintStatement expression)) ++ rest) ->
  parse_print p = Ok (PrintStatement expression, skip 6 p).
Proof.
  intros H. simpl in H. unfold parse_print. step H.
  rewrite bool_decide_eq_false_2 by (by intros []). by do 5 step H.
Qed.

Lemma parse_string_unparse p name expression rest :
  rest_is p (tail (unparse (StringDeclaration name expression)) ++ rest) ->
  parse_string p = Ok (StringDeclaration name expression, skip 4 p).
Proof.
  intros H. simpl in H. unfold parse_string, bind at 1, get. do 3 step H.
  unfold fuel. erewrite (bind_ok (while _ _ _ _)).
  2:{ apply while_false. by apply (match_other _ _ _ H). }
  by step H.
Qed.

(** *** The reserved word of a setter *)

Lemma substring_all s : String.substring 0 (String.length s) s = s.
Proof. induction s as [|c s IH]; [done|]. simpl. by rewrite IH. Qed.

Lemma setter_read backend :
  setter backend true = String "r" (String "e" (String "a" (String "d"
                          (String "_" backend)))).
Proof. reflexivity. Qed.

Lemma setter_set backend :
  setter backend false = String "s" (String "e" (String "t"
                           (String "_" backend))).
Proof. reflexivity. Qed.

Lemma setter_spec backend isReadFromFile :
  setter backend isReadFromFile <> "lazy"%string
  /\ starts_with (setter backend isReadFromFile) "read_" = isReadFromFile
  /\ exists underscore,
       find (setter backend isReadFromFile) "_" = Some underscore
       /\ from_pos (setter backend isReadFromFile) (underscore + 1) = backend.
Proof.
  assert (forall s, String.substring 0 0 s = ""%string) as Hsub
    by by intros [].
  assert (forall s, String.prefix "" s = true) as Hpre by by intros [].
  destruct isReadFromFile; rewrite ?setter_read, ?setter_set.
  - split_and!; [done| |].
    + unfold starts_with. simpl. by rewrite Hsub.
    + exists 4. split; [unfold find; cbn; by rewrite Hpre|].
      unfold from_pos. simpl. rewrite Nat.sub_0_r. apply substring_all.
  - split_and!; [done| |].
    + unfold starts_with. apply andb_false_iff. right.
      by apply bool_decide_eq_false_2.
    + exists 3. split; [unfold find; cbn; by rewrite Hpre|].
      unfold from_pos. simpl. rewrite Nat.sub_0_r. apply substring_all.
Qed.

Lemma default_setter_spec isReadFromFile :
  default_setter isReadFromFile <> "lazy"%string
  /\ starts_with (default_setter isReadFromFile) "read_" = isReadFromFile
  /\ find (default_setter isReadFromFile) "default" <> None.
Proof. by destruct isReadFromFile. Qed.

Lemma parse_backend_enum_ident b : parse_backend_enum (backend_ident b) = b.
Proof. by destruct b. Qed.

(** *** The arguments of a setter *)

Lemma parse_part_unparse func parts isLiteral p arg rest :
  rest_is p (part_token arg :: rest) ->
  parse_part func (parts, isLiteral) p =
  Ok ((parts ++ [arg.1], isLiteral ++ [arg.2]), next p).
Proof.
  intros H. destruct arg as [part [|]]; unfold parse_part; simpl in *.
  - rewrite (bind_ok _ _ _ _ _
               (match_known _ _ _ H TokenType.String eq_refl ltac:(done))).
    by rewrite (bind_ok _ _ _ _ _ (previous_known _ _ _ H)).
  - rewrite (bind_ok _ _ _ _ _
               (match_other _ _ _ H TokenType.String ltac:(done))).
    rewrite (bind_ok _ _ _ _ _
               (match_known _ _ _ H TokenType.Identifier eq_refl
                  ltac:(done))).
    by rewrite (bind_ok _ _ _ _ _ (previous_known _ _ _ H)).
Qed.

Lemma unparse_args_length args : length args <= length (unparse_args args).
Proof.
  induction args as [|arg [|arg' args] IH]; simpl in *; lia.
Qed.

Lemma unparse_args_cons arg arg' args :
  unparse_args (arg :: arg' :: args) =
  part_token arg :: token TokenType.Plus "+" :: unparse_args (arg' :: args).
Proof. reflexivity. Qed.

Lemma parse_args_unparse func args :
  args <> [] ->
  forall parts isLiteral p fuel tok rest,
    rest_is p (unparse_args args ++ tok :: rest) ->
    Token.type tok <> TokenType.Plus ->
    length args <= fuel ->
    do_while fuel (parse_part func) (fun _ => match_ TokenType.Plus)
      (parts, isLiteral) p =
    Ok ((parts ++ args.*1, isLiteral ++ args.*2),
        skip (length (unparse_args args)) p).
Proof.
  induction args as [|arg [|arg' args] IH]; [done| |];
    intros _ parts isLiteral p [|fuel] tok rest H Hty Hfuel;
    simpl in Hfuel; try lia.
  - simpl in H.
    pose proof (parse_part_unparse func parts isLiteral _ _ _ H) as Hb.
    apply rest_is_next in H.
    by rewrite (do_while_false _ _ _ _ _ _ _ _ Hb
                  (match_other _ _ _ H TokenType.Plus Hty)).
  - rewrite unparse_args_cons in *. rewrite <-!app_comm_cons in H.
    pose proof (parse_part_unparse func parts isLiteral _ _ _ H) as Hb.
    apply rest_is_next in H.
    pose proof (match_known _ _ _ H TokenType.Plus eq_refl ltac:(done))
      as Hc.
    apply rest_is_next in H.
    rewrite (do_while_true _ _ _ _ _ _ _ _ Hb Hc).
    rewrite (IH ltac:(done) _ _ _ _ tok rest H Hty) by (simpl; lia).
    cbn [fmap list_fmap length].
    by rewrite <-!(assoc_L (++)), !skip_next.
Qed.

(** *** Setters and [lazy()] *)

Lemma zip_fst_snd (parts : list string) (isLiteral : list bool) :
  length parts = length isLiteral ->
  (zip parts isLiteral).*1 = parts /\ (zip parts isLiteral).*2 = isLiteral.
Proof.
  intros Hlen. split; [apply fst_zip|apply snd_zip]; lia.
Qed.

Lemma zip_not_nil (parts : list string) (isLiteral : list bool) :
  wf_parts parts isLiteral -> zip parts isLiteral <> [].
Proof. intros [Hlen Hne]. by destruct parts, isLiteral. Qed.

(** The head of a setter up to its arguments, then the arguments. *)
Lemma parse_setter_unparse p varName func args rest :
  func <> "lazy"%string -> args <> [] ->
  rest_is p ([token TokenType.Identifier varName; token TokenType.Dot ".";
              token TokenType.Keyword func; token TokenType.LParen "("]
             ++ unparse_args args
             ++ [token TokenType.RParen ")"; token TokenType.Semicolon ";"]
             ++ rest) ->
  parse_set_or_read p =
  (if bool_decide (find func "default" <> None) then
     ret (SetDefaultStatement varName args.*1 args.*2
            (starts_with func "read_"))
   else
     match find func "_" with
     | Some underscore =>
         backend <- substr func (underscore + 1) ;;
         ret (SetStatement varName backend
                args.*1 args.*2 (starts_with func "read_"))
     | None => throw (runtime_error "Invalid set/read function name")
     end) (skip (6 + length (unparse_args args)) p).
Proof.
  intros Hlazy Hargs H. pose proof (rest_is_length _ _ H) as Hlen.
  unfold parse_set_or_read, bind at 1, get.
  rewrite (bind_ok _ _ _ _ _ (advance_known _ _ _ H ltac:(done))).
  apply rest_is_next in H. do 2 step H.
  rewrite bool_decide_eq_false_2 by done. step H.
  erewrite (bind_ok (do_while _ _ _ _)).
  2:{ eapply parse_args_unparse; [done|exact H|done|].
      pose proof (unparse_args_length args).
      rewrite !length_app in Hlen. unfold fuel. simpl in *. lia. }
  apply rest_is_skip in H. cbn [app]. do 2 step H.
  f_equal. unfold skip, next. simpl. f_equal. lia.
Qed.

Lemma parse_lazy_unparse p varName rest :
  rest_is p (unparse (LazyStatement varName) ++ rest) ->
  parse_set_or_read p = Ok (LazyStatement varName, skip 6 p).
Proof.
  intros H. simpl in H. unfold parse_set_or_read, bind at 1, get.
  rewrite (bind_ok _ _ _ _ _ (advance_known _ _ _ H ltac:(done))).
  apply rest_is_next in H. do 2 step H.
  rewrite bool_decide_eq_true_2 by done. by do 3 step H.
Qed.

Lemma parse_set_unparse p varName backend parts isLiteral isReadFromFile
    rest :
  wf_parts parts isLiteral ->
  find (setter backend isReadFromFile) "default" = None ->
  let s := SetStatement varName backend parts isLiteral isReadFromFile in
  rest_is p (unparse s ++ rest) ->
  parse_set_or_read p = Ok (s, skip (length (unparse s)) p).
Proof.
  intros Hwf Hdef s H. unfold s in *. cbn [unparse] in *.
  destruct (setter_spec backend isReadFromFile)
    as (Hlazy & Hread & underscore & Hfind & Hsub).
  destruct (zip_fst_snd parts isLiteral (proj1 Hwf)) as [Hp Hl].
  rewrite <-!(assoc_L (++)) in H.
  rewrite (parse_setter_unparse _ _ _ _ _ Hlazy (zip_not_nil _ _ Hwf) H).
  rewrite Hdef, bool_decide_eq_false_2 by (by intros []).
  rewrite Hfind, substr_ok
    by (pose proof (find_lt _ "_" _ ltac:(done) Hfind); lia).
  unfold bind, ret. rewrite Hsub, Hread, Hp, Hl. do 3 f_equal.
  rewrite !length_app. simpl. lia.
Qed.

Lemma parse_set_default_unparse p varName parts isLiteral isReadFromFile
    rest :
  wf_parts parts isLiteral ->
  let s := SetDefaultStatement varName parts isLiteral isReadFromFile in
  rest_is p (unparse s ++ rest) ->
  parse_set_or_read p = Ok (s, skip (length (unparse s)) p).
Proof.
  intros Hwf s H. unfold s in *. cbn [unparse] in *.
  destruct (default_setter_spec isReadFromFile) as (Hlazy & Hread & Hdef).
  destruct (zip_fst_snd parts isLiteral (proj1 Hwf)) as [Hp Hl].
  rewrite <-!(assoc_L (++)) in H.
  rewrite (parse_setter_unparse _ _ _ _ _ Hlazy (zip_not_nil _ _ Hwf) H).
  rewrite bool_decide_eq_true_2 by done.
  rewrite Hread, Hp, Hl. unfold ret. do 3 f_equal.
  rewrite !length_app. simpl. lia.
Qed.

(** *** [SYSTEM ->] *)

Lemma unparse_backends_cons b b' backends :
  unparse_backends (b :: b' :: backends) =
  token TokenType.Identifier (backend_ident b)
  :: token TokenType.Comma "," :: unparse_backends (b' :: backends).
Proof. reflexivity. Qed.

Lemma unparse_backends_length backends :
  length backends <= length (unparse_backends backends).
Proof.
  induction backends as [|b [|b' backends] IH]; simpl in *; lia.
Qed.

Lemma check_rparen_known p tok rest :
  rest_is p (tok :: rest) ->
  (closing <- check TokenType.RParen ;; ret (negb closing)) p =
  Ok (negb (bool_decide (Token.type tok = TokenType.RParen)), p).
Proof. intros H. by rewrite (bind_ok _ _ _ _ _ (check_known _ _ _ H _)). Qed.

(** One round of the loop of [generate_select]: a backend, and the
    comma when another one follows. *)
Lemma parse_backend_last acc p b rest :
  rest_is p (token TokenType.Identifier (backend_ident b)
             :: token TokenType.RParen ")" :: rest) ->
  parse_backend acc p = Ok (acc ++ [b], next p).
Proof.
  intros H. unfold parse_backend. step H.
  rewrite (bind_ok _ _ _ _ _ (check_known _ _ _ H _)).
  by rewrite parse_backend_enum_ident.
Qed.

Lemma parse_backend_comma acc p b rest :
  rest_is p (token TokenType.Identifier (backend_ident b)
             :: token TokenType.Comma "," :: rest) ->
  parse_backend acc p = Ok (acc ++ [b], next (next p)).
Proof.
  intros H. unfold parse_backend. step H.
  rewrite (bind_ok _ _ _ _ _ (check_known _ _ _ H _)). simpl.
  step H. by rewrite parse_backend_enum_ident.
Qed.

Lemma parse_backends_unparse backends :
  forall acc p fuel rest,
    rest_is p (unparse_backends backends
               ++ token TokenType.RParen ")" :: rest) ->
    length backends < fuel ->
    while fuel
      (fun _ => closing <- check TokenType.RParen ;; ret (negb closing))
      parse_backend acc p =
    Ok (acc ++ backends, skip (length (unparse_backends backends)) p).
Proof.
  induction backends as [|b [|b' backends] IH];
    intros acc p [|fuel] rest H Hfuel; simpl in Hfuel; try lia.
  - simpl in H.
    rewrite (while_false (fun _ : list Backend =>
                closing <- check TokenType.RParen ;; ret (negb closing))
               _ _ _ _ _ (check_rparen_known _ _ _ H)).
    by rewrite app_nil_r, skip_0.
  - simpl in H.
    rewrite (while_true (fun _ : list Backend =>
                closing <- check TokenType.RParen ;; ret (negb closing))
               _ _ _ _ _ _ _ (check_rparen_known _ _ _ H)
               (parse_backend_last _ _ _ _ H)).
    apply rest_is_next in H. rewrite (IH _ _ _ _ H) by (simpl; lia).
    by rewrite skip_0, <-(assoc_L (++)).
  - rewrite unparse_backends_cons in *. rewrite <-!app_comm_cons in H.
    rewrite (while_true (fun _ : list Backend =>
                closing <- check TokenType.RParen ;; ret (negb closing))
               _ _ _ _ _ _ _ (check_rparen_known _ _ _ H)
               (parse_backend_comma _ _ _ _ H)).
    do 2 apply rest_is_next in H. rewrite (IH _ _ _ _ H) by (simpl; lia).
    cbn [length]. by rewrite !skip_next, <-(assoc_L (++)).
Qed.

Lemma parse_generate_all_unparse p rest :
  rest_is p (tail (unparse GenerateAllStatement) ++ rest) ->
  parse_generate p = Ok (GenerateAllStatement, skip 5 p).
Proof.
  intros H. simpl in H. unfold parse_generate, bind at 1, get.
  do 3 step H. rewrite bool_decide_eq_true_2 by done. by do 2 step H.
Qed.

Lemma parse_generate_select_unparse p backends rest :
  let s := GenerateSelectStatement backends in
  rest_is p (tail (unparse s) ++ rest) ->
  parse_generate p = Ok (s, skip (length (tail (unparse s))) p).
Proof.
  intros s H. unfold s in *. cbn [unparse tail app] in *.
  pose proof (rest_is_length _ _ H) as Hlen.
  unfold parse_generate, bind at 1, get. do 3 step H.
  rewrite bool_decide_eq_false_2, bool_decide_eq_true_2 by done.
  rewrite <-(assoc_L (++)) in H.
  erewrite (bind_ok (while _ _ _ _)).
  2:{ eapply parse_backends_unparse; [exact H|].
      pose proof (unparse_backends_length backends).
      simpl in Hlen. rewrite !length_app in Hlen. unfold fuel. lia. }
  apply rest_is_skip in H. cbn [app]. do 2 step H.
  unfold ret. do 2 f_equal. unfold skip, next. simpl. f_equal.
  rewrite !length_app. simpl. lia.
Qed.

(** *** Blocks of statements *)

(** A statement starts with a reserved word or an identifier. *)
Lemma unparse_head s :
  exists tok toks,
    unparse s = tok :: toks
    /\ (Token.type tok = TokenType.Keyword
        \/ Token.type tok = TokenType.Identifier).
Proof. destruct s; simpl; eauto. Qed.

Lemma unparse_length s : 0 < length (unparse s).
Proof. destruct (unparse_head s) as (tok & toks & -> & _). simpl. lia. Qed.

Lemma flat_map_unparse_length statements :
  length statements <= length (flat_map unparse statements).
Proof.
  induction statements as [|s statements IH]; simpl; [lia|].
  rewrite length_app. pose proof (unparse_length s). lia.
Qed.

(** A loop that parses statements until [cond] fails, on the tokens of
    [statements] followed by a token that makes [cond] fail. *)
Lemma parse_block_unparse (cond : M t bool) (parse_one : M t Statement)
    statements :
  (forall p tok rest,
     rest_is p (tok :: rest) ->
     Token.type tok = TokenType.Keyword
     \/ Token.type tok = TokenType.Identifier ->
     cond p = Ok (true, p)) ->
  Forall (fun s => forall p rest,
            rest_is p (unparse s ++ rest) ->
            parse_one p = Ok (s, skip (length (unparse s)) p)) statements ->
  forall acc p fuel rest,
    rest_is p (flat_map unparse statements ++ rest) ->
    (forall p', rest_is p' rest -> cond p' = Ok (false, p')) ->
    length statements < fuel ->
    while fuel (fun _ => cond)
      (fun acc => s <- parse_one ;; ret (acc ++ [s])) acc p =
    Ok (acc ++ statements, skip (length (flat_map unparse statements)) p).
Proof.
  intros Hcond Hall. induction Hall as [|s statements Hs Hall IH];
    intros acc p [|fuel] rest H Hend Hfuel; simpl in Hfuel; try lia.
  - simpl in H.
    rewrite (while_false (fun _ : list Statement => cond) _ _ _ _ _
               (Hend _ H)).
    by rewrite app_nil_r, skip_0.
  - cbn [flat_map] in *. rewrite <-(assoc_L (++)) in H.
    destruct (unparse_head s) as (tok & toks & Hhead & Hty).
    assert (cond p = Ok (true, p)) as Hc.
    { eapply Hcond; [|exact Hty]. rewrite Hhead in H. exact H. }
    assert ((s' <- parse_one ;; ret (acc ++ [s'])) p =
            Ok (acc ++ [s], skip (length (unparse s)) p)) as Hb.
    { by rewrite (bind_ok _ _ _ _ _ (Hs _ _ H)). }
    rewrite (while_true (fun _ : list Statement => cond) _ _ _ _ _ _ _
               Hc Hb).
    apply rest_is_skip in H. rewrite (IH _ _ _ _ H Hend) by lia.
    rewrite skip_skip, length_app, <-(assoc_L (++)).
    by rewrite (Nat.add_comm (length (unparse s))).
Qed.

(** The same loop when the tokens of [statements] are followed by
    tokens on which [cond] holds and [parse_one] throws. *)
Lemma parse_block_throws (cond : M t bool) (parse_one : M t Statement)
    statements e :
  (forall p tok rest,
     rest_is p (tok :: rest) ->
     Token.type tok = TokenType.Keyword
     \/ Token.type tok = TokenType.Identifier ->
     cond p = Ok (true, p)) ->
  Forall (fun s => forall p rest,
            rest_is p (unparse s ++ rest) ->
            parse_one p = Ok (s, skip (length (unparse s)) p)) statements ->
  forall acc p fuel rest,
    rest_is p (flat_map unparse statements ++ rest) ->
    (forall p', rest_is p' rest ->
                cond p' = Ok (true, p') /\ parse_one p' = Throw e) ->
    length statements < fuel ->
    while fuel (fun _ => cond)
      (fun acc => s <- parse_one ;; ret (acc ++ [s])) acc p = Throw e.
Proof.
  intros Hcond Hall. induction Hall as [|s statements Hs Hall IH];
    intros acc p [|fuel] rest H Hend Hfuel; simpl in Hfuel; try lia.
  - destruct (Hend _ H) as [Hc Hb].
    apply (while_throw (fun _ : list Statement => cond) _ _ _ _ _ _ Hc).
    unfold bind. by rewrite Hb.
  - cbn [flat_map] in *. rewrite <-(assoc_L (++)) in H.
    destruct (unparse_head s) as (tok & toks & Hhead & Hty).
    assert (cond p = Ok (true, p)) as Hc.
    { eapply Hcond; [|exact Hty]. rewrite Hhead in H. exact H. }
    assert ((s' <- parse_one ;; ret (acc ++ [s'])) p =
            Ok (acc ++ [s], skip (length (unparse s)) p)) as Hb.
    { by rewrite (bind_ok _ _ _ _ _ (Hs _ _ H)). }
    rewrite (while_true (fun _ : list Statement => cond) _ _ _ _ _ _ _
               Hc Hb).
    apply rest_is_skip in H. by rewrite (IH _ _ _ _ H Hend) by lia.
Qed.

(** *** [if] *)

Lemma in_block_statement p tok rest :
  rest_is p (tok :: rest) ->
  Token.type tok = TokenType.Keyword
  \/ Token.type tok = TokenType.Identifier ->
  in_block p = Ok (true, p).
Proof.
  intros H Hty. unfold in_block.
  rewrite (bind_ok _ _ _ _ _ (check_known _ _ _ H _)).
  rewrite bool_decide_eq_false_2 by (destruct Hty; congruence).
  rewrite (bind_ok _ _ _ _ _ (check_known _ _ _ H _)).
  by rewrite bool_decide_eq_false_2 by (destruct Hty; congruence).
Qed.

Lemma in_block_closing p rest :
  rest_is p (token TokenType.RBrace "}" :: rest) ->
  in_block p = Ok (false, p).
Proof.
  intros H. unfold in_block.
  by rewrite (bind_ok _ _ _ _ _ (check_known _ _ _ H _)).
Qed.

Lemma parse_if_unparse (parse_statement : M t Statement) conditionVar body
    p rest :
  Forall (fun s => forall p rest,
            rest_is p (unparse s ++ rest) ->
            parse_statement p = Ok (s, skip (length (unparse s)) p)) body ->
  let s := IfStatement conditionVar body in
  rest_is p (tail (unparse s) ++ rest) ->
  parse_if parse_statement p = Ok (s, skip (length (tail (unparse s))) p).
Proof.
  intros Hbody s H. unfold s in *. cbn [unparse tail app] in *.
  pose proof (rest_is_length _ _ H) as Hlen.
  unfold parse_if, bind at 1, get. do 4 step H.
  rewrite <-(assoc_L (++)) in H.
  erewrite (bind_ok (while _ _ _ _)).
  2:{ eapply (parse_block_unparse in_block); [|done|exact H| |].
      - apply in_block_statement.
      - intros p'. apply in_block_closing.
      - pose proof (flat_map_unparse_length body).
        simpl in Hlen. rewrite !length_app in Hlen. unfold fuel. lia. }
  apply rest_is_skip in H. cbn [app]. step H.
  unfold ret. do 2 f_equal. unfold skip, next. simpl. f_equal.
  rewrite !length_app. simpl. lia.
Qed.

(** *** [parse_statement] *)

Lemma depth_body conditionVar body :
  Forall (fun s => depth s < depth (IfStatement conditionVar body)) body.
Proof.
  simpl. induction body as [|s body IH]; constructor; simpl; [lia|].
  eapply Forall_impl; [exact IH|]. simpl. lia.
Qed.

Lemma depth_unparse s : depth s < length (unparse s).
Proof.
  induction s as [| | | | | |c body IH| | |] using Statement_nested_ind;
    try (simpl; rewrite ?length_app; simpl; lia).
  cbn [unparse depth]. rewrite !length_app. simpl.
  induction IH as [|s body Hs _ IH]; simpl; [lia|].
  rewrite length_app. lia.
Qed.

Lemma printable_if conditionVar body :
  printable (IfStatement conditionVar body) <-> Forall printable body.
Proof. unfold printable. rewrite everywhere_if. simpl. tauto. Qed.

(** The dispatch on the reserved word [keyword] that opens a
    statement. *)
Lemma parse_statement_keyword fuel p keyword rest :
  rest_is p (token TokenType.Keyword keyword :: rest) ->
  parse_statement (S fuel) p =
  (if bool_decide (keyword = "macrodef"%string) then parse_macro_def
   else if bool_decide (keyword = "boolean"%string) then parse_boolean
   else if bool_decide (keyword = "if"%string)
        then parse_if (parse_statement fuel)
   else if bool_decide (keyword = "SYSTEM"%string) then parse_generate
   else if bool_decide (keyword = "print"%string) then parse_print
   else if bool_decide (keyword = "string"%string) then parse_string
   else parse_statement_rest) (next p).
Proof.
  intros H. cbn [parse_statement].
  rewrite (bind_ok _ _ _ _ _
             (match_known _ _ _ H TokenType.Keyword eq_refl ltac:(done))).
  by rewrite (bind_ok _ _ _ _ _ (previous_known _ _ _ H)).
Qed.

Lemma parse_statement_identifier fuel p varName rest :
  rest_is p (token TokenType.Identifier varName :: rest) ->
  parse_statement (S fuel) p = parse_set_or_read p.
Proof.
  intros H. cbn [parse_statement].
  rewrite (bind_ok _ _ _ _ _
             (match_other _ _ _ H TokenType.Keyword ltac:(done))).
  unfold parse_statement_rest.
  by rewrite (bind_ok _ _ _ _ _ (check_known _ _ _ H _)).
Qed.

(** A statement after its first token, which was a reserved word. *)
Ltac after_keyword H lem :=
  erewrite parse_statement_keyword by exact H;
  apply rest_is_next in H; cbn [bool_decide decide_rel];
  repeat (rewrite bool_decide_eq_false_2 by done);
  rewrite ?bool_decide_eq_true_2 by done;
  erewrite lem by exact H; by rewrite skip_next.

Lemma parse_statement_unparse s :
  printable s ->
  forall fuel p rest,
    depth s < fuel ->
    rest_is p (unparse s ++ rest) ->
    parse_statement fuel p = Ok (s, skip (length (unparse s)) p).
Proof.
  induction s as [v m|v b ps ls r|n e|v ps ls r|v|n b|c body IH| |bs|e]
    using Statement_nested_ind;
    intros Hp [|fuel] p rest Hfuel H; try lia.
  - after_keyword H parse_macro_def_unparse.
  - erewrite parse_statement_identifier by exact H.
    destruct Hp as [[Hwf Hdef] _].
    by apply (parse_set_unparse p v b ps ls r rest).
  - after_keyword H parse_string_unparse.
  - erewrite parse_statement_identifier by exact H.
    destruct Hp as [Hwf _].
    by apply (parse_set_default_unparse p v ps ls r rest).
  - erewrite parse_statement_identifier by exact H.
    by eapply parse_lazy_unparse.
  - after_keyword H parse_boolean_unparse.
  - erewrite parse_statement_keyword by exact H.
    apply rest_is_next in H.
    repeat (rewrite bool_decide_eq_false_2 by done).
    rewrite bool_decide_eq_true_2 by done.
    apply printable_if in Hp.
    erewrite parse_if_unparse; [by rewrite skip_next| |exact H].
    pose proof (depth_body c body) as Hd.
    rewrite Forall_forall in IH, Hp, Hd. apply Forall_forall.
    intros s Hs p' rest'. apply IH; [done|by apply Hp|].
    specialize (Hd s Hs). lia.
  - after_keyword H parse_generate_all_unparse.
  - erewrite parse_statement_keyword by exact H.
    apply rest_is_next in H.
    repeat (rewrite bool_decide_eq_false_2 by done).
    rewrite bool_decide_eq_true_2 by done.
    erewrite parse_generate_select_unparse by exact H.
    by rewrite skip_next.
  - after_keyword H parse_print_unparse.
Qed.

(** *** The program *)

Lemma printable_wf s : printable s -> wf_statement s.
Proof.
  apply everywhere_impl. intros [] H; simpl in *; tauto.
Qed.

Lemma unparse_program_wf statements : wf_tokens (unparse_program statements).
Proof. by eexists _, _. Qed.

Lemma not_at_end_statement p tok rest :
  rest_is p (tok :: rest) ->
  Token.type tok = TokenType.Keyword
  \/ Token.type tok = TokenType.Identifier ->
  (at_end <- check TokenType.EndOfFile ;; ret (negb at_end)) p = Ok (true, p).
Proof.
  intros H Hty. rewrite (bind_ok _ _ _ _ _ (check_known _ _ _ H _)).
  by rewrite bool_decide_eq_false_2 by (destruct Hty; congruence).
Qed.

(** The fuel of a vector that holds the tokens of [statements] is
    enough for each of them. *)
Lemma parse_statement_fuel statements toks :
  Forall printable statements ->
  length (flat_map unparse statements) <= length toks ->
  Forall (fun s => forall p rest,
            rest_is p (unparse s ++ rest) ->
            parse_statement (fuel (new toks)) p =
            Ok (s, skip (length (unparse s)) p)) statements.
Proof.
  intros Hp Hlen. apply Forall_forall. intros s Hs p rest H.
  eapply parse_statement_unparse; [by eapply Forall_forall| |exact H].
  pose proof (depth_unparse s).
  assert (length (unparse s) <= length toks); [|unfold fuel; simpl; lia].
  apply list_elem_of_split in Hs as (l1 & l2 & ->).
  rewrite flat_map_app, length_app in Hlen. simpl in Hlen.
  rewrite length_app in Hlen. lia.
Qed.

Lemma parse_unparse_program statements :
  Forall printable statements ->
  parse_tokens (unparse_program statements) = Ok statements.
Proof.
  intros Hp. unfold parse_tokens, eval, parse, bind at 1, get.
  set (toks := unparse_program statements).
  assert (length toks = length (flat_map unparse statements) + 1) as Hlen.
  { unfold toks, unparse_program. by rewrite length_app. }
  pose proof (flat_map_unparse_length statements).
  rewrite (parse_block_unparse _ _ statements not_at_end_statement
             (parse_statement_fuel _ toks Hp ltac:(lia)) []
             (new toks) (fuel (new toks))
             [token TokenType.EndOfFile ""]); [done|done| |].
  - intros p' H'. by rewrite (bind_ok _ _ _ _ _ (check_known _ _ _ H' _)).
  - unfold fuel. simpl. lia.
Qed.

(** *** A token that starts no statement *)

Lemma parse_statement_unknown fuel p tok rest :
  rest_is p (tok :: rest) ->
  Token.type tok <> TokenType.Keyword ->
  Token.type tok <> TokenType.Identifier ->
  parse_statement (S fuel) p =
  Throw (runtime_error
           ("Unknown statement at line " +:+ to_string (Token.line tok))).
Proof.
  intros H Hk Hi. cbn [parse_statement].
  rewrite (bind_ok _ _ _ _ _ (match_other _ _ _ H _ Hk)).
  unfold parse_statement_rest.
  rewrite (bind_ok _ _ _ _ _ (check_known _ _ _ H _)).
  rewrite bool_decide_eq_false_2 by done.
  by rewrite (bind_ok _ _ _ _ _ (peek_known _ _ _ H)).
Qed.

Lemma parse_unknown statements tok rest :
  Forall printable statements ->
  Token.type tok <> TokenType.Keyword ->
  Token.type tok <> TokenType.Identifier ->
  Token.type tok <> TokenType.EndOfFile ->
  parse_tokens (flat_map unparse statements ++ tok :: rest) =
  Throw (runtime_error
           ("Unknown statement at line " +:+ to_string (Token.line tok))).
Proof.
  intros Hp Hk Hi He. unfold parse_tokens, eval, parse, bind at 1, get.
  set (toks := flat_map unparse statements ++ tok :: rest).
  assert (length toks = length (flat_map unparse statements)
                        + S (length rest)) as Hlen.
  { unfold toks. by rewrite length_app. }
  pose proof (flat_map_unparse_length statements).
  rewrite (parse_block_throws _ _ statements
             (runtime_error
                ("Unknown statement at line " +:+ to_string (Token.line tok)))
             not_at_end_statement
             (parse_statement_fuel _ toks Hp ltac:(lia)) []
             (new toks) (fuel (new toks)) (tok :: rest)); [done|done| |].
  - intros p' H'. split; [|by eapply parse_statement_unknown].
    rewrite (bind_ok _ _ _ _ _ (check_known _ _ _ H' _)).
    by rewrite bool_decide_eq_false_2.
  - unfold fuel. simpl. lia.
Qed.

(** ** Claims *)

(** C11: the parser reads back what is written: for statements that
    can be written (setters with well-formed argument vectors and a
    backend that does not spell "default"), nested [if] bodies
    included, parsing the tokens of the statements returns the
    statements. *)
Theorem parse_unparse statements :
  Forall printable statements ->
  parse_tokens (unparse_program statements) = Ok statements.
Proof. apply parse_unparse_program. Qed.

Lemma parse_unparse_witness :
  parse_tokens
    (unparse_program
       [IfStatement "f"
          [SetStatement "x" "glsl" ["a"; "v"] [true; false] false]])
  = Ok [IfStatement "f"
          [SetStatement "x" "glsl" ["a"; "v"] [true; false] false]].
Proof.
  apply parse_unparse. repeat constructor; simpl; done.
Defined.

(** C19: the parser stops at the first token that starts no
    statement and names its line: when the tokens of statements that
    can be written are followed by a token that is neither a reserved
    word, an identifier nor [EndOfFile], parsing throws "Unknown
    statement at line" with the line of that token, whatever follows
    it. *)
Theorem parse_unknown_statement statements tok rest :
  Forall printable statements ->
  Token.type tok <> TokenType.Keyword ->
  Token.type tok <> TokenType.Identifier ->
  Token.type tok <> TokenType.EndOfFile ->
  parse_tokens (flat_map unparse statements ++ tok :: rest) =
  Throw (runtime_error
           ("Unknown statement at line " +:+ to_string (Token.line tok))).
Proof. apply parse_unknown. Qed.

Lemma parse_unknown_statement_witness :
  parse_tokens
    (flat_map unparse [BooleanDeclaration "f" true; LazyStatement "x"]
     ++ Token.mk TokenType.RBrace "}" 7 3 :: [])
  = Throw (runtime_error "Unknown statement at line 7").
Proof.
  apply (parse_unknown_statement
           [BooleanDeclaration "f" true; LazyStatement "x"]
           (Token.mk TokenType.RBrace "}" 7 3) []);
    [by repeat constructor|done..].
Defined.
