(* ===== verification/Frontend.v ===== *)
(** * Frontend: from the text of a program back to its statements

    Two results about the scanner and the parser together.

    The parser reads the position of a token only to word an error
    message: on two token vectors with the same kinds and texts it
    returns the same statements, or fails on both.  This is proved as
    a simulation ([sim]) between two runs of each member function of
    [Parser], on states related by [same_tokens].

    With the round trips of [Lexeme] and [Unparse] it follows that a
    program written out as text ([script]) is scanned and parsed back
    to its statements. *)

From Stdlib Require Import Ascii.
From stdpp Require Import base tactics option numbers list strings.
From S2P Require Import Prelude Lexer Lexeme Ast Syntax Unparse.

(** ** Runs that differ in token positions *)

Definition same_text (a b : Token.t) : Prop := text a = text b.

(** The same cursor on token vectors with the same kinds and texts. *)
Definition same_tokens (p p' : Parser.t) : Prop :=
  Parser.current p = Parser.current p'
  /\ Forall2 same_text (Parser.tokens p) (Parser.tokens p').

(** Two outcomes agree: both return, with related values and states,
    or both throw, or both are undefined. *)
Definition agree {A} (R : relation A) (r r' : result (A * Parser.t)) : Prop :=
  match r, r' with
  | Ok (a, q), Ok (a', q') => R a a' /\ same_tokens q q'
  | Throw _, Throw _ => True
  | Undefined, Undefined => True
  | OutOfFuel, OutOfFuel => True
  | _, _ => False
  end.

(** [m] and [m'] agree from related states. *)
Definition sim {A} (R : relation A) (m m' : M Parser.t A) : Prop :=
  forall p p', same_tokens p p' -> agree R (m p) (m' p').

(** Loop results related by [R]. *)
Definition control_rel {A} (R : relation A) (c c' : control A) : Prop :=
  match c, c' with
  | Continue a, Continue a' => R a a'
  | Break a, Break a' => R a a'
  | _, _ => False
  end.

(** Two results agree: the same value, or the same kind of failure
    (two thrown messages may name different lines). *)
Definition same_outcome {A} (r r' : result A) : Prop :=
  match r, r' with
  | Ok a, Ok a' => a = a'
  | Throw _, Throw _ => True
  | Undefined, Undefined => True
  | OutOfFuel, OutOfFuel => True
  | _, _ => False
  end.

(** The text of a program: the tokens of its statements, printed. *)
Definition script (statements : list Statement) : string :=
  print (flat_map unparse statements).

(** A statement whose tokens a script can spell. *)
Definition scriptable (s : Statement) : Prop :=
  printable s /\ Forall lexable (unparse s).

(** ** Theorems *)

Import Parser.

(** *** The rules of the simulation *)

Section Sim.
Context {A B : Type} (RA : relation A) (RB : relation B).

Lemma sim_ret a a' : RA a a' -> sim RA (ret a) (ret a').
Proof. by intros Ha p p' Hp. Qed.

Lemma sim_throw e e' : sim RA (throw e) (throw e').
Proof. by intros p p' Hp. Qed.

Lemma sim_bind (m m' : M t A) (k k' : A -> M t B) :
  sim RA m m' -> (forall a a', RA a a' -> sim RB (k a) (k' a')) ->
  sim RB (bind m k) (bind m' k').
Proof.
  intros Hm Hk p p' Hp. specialize (Hm p p' Hp). unfold bind, agree in *.
  destruct (m p) as [[a q]|e| |], (m' p') as [[a' q']|e'| |]; try done.
  destruct Hm as [Ha Hq]. by apply Hk.
Qed.

End Sim.

Lemma sim_loop {A} (R : relation A) (body body' : A -> M t (control A)) fuel :
  (forall a a', R a a' -> sim (control_rel R) (body a) (body' a')) ->
  forall a a', R a a' -> sim R (loop fuel body a) (loop fuel body' a').
Proof.
  intros Hbody. induction fuel as [|fuel IH]; intros a a' Ha; [done|].
  cbn [loop]. eapply sim_bind; [by apply Hbody|].
  intros [c|c] [c'|c'] Hc; simpl in Hc; try done;
    first [by apply IH|by apply sim_ret].
Qed.

Lemma sim_while {A} (R : relation A) (cond cond' : A -> M t bool)
    (body body' : A -> M t A) fuel a a' :
  (forall a a', R a a' -> sim eq (cond a) (cond' a')) ->
  (forall a a', R a a' -> sim R (body a) (body' a')) ->
  R a a' -> sim R (while fuel cond body a) (while fuel cond' body' a').
Proof.
  intros Hc Hb Ha. apply sim_loop; [|done]. clear a a' Ha.
  intros a a' Ha. eapply sim_bind; [by apply Hc|].
  intros b ? <-. destruct b; [|by apply sim_ret].
  eapply sim_bind; [by apply Hb|]. intros. by apply sim_ret.
Qed.

Lemma sim_do_while {A} (R : relation A) (body body' : A -> M t A)
    (cond cond' : A -> M t bool) fuel a a' :
  (forall a a', R a a' -> sim R (body a) (body' a')) ->
  (forall a a', R a a' -> sim eq (cond a) (cond' a')) ->
  R a a' -> sim R (do_while fuel body cond a) (do_while fuel body' cond' a').
Proof.
  intros Hb Hc Ha. apply sim_loop; [|done]. clear a a' Ha.
  intros a a' Ha. eapply sim_bind; [by apply Hb|].
  intros b b' Hbb. eapply sim_bind; [by apply Hc|].
  intros c ? <-. apply sim_ret. by destruct c.
Qed.

Lemma sim_get : sim same_tokens get get.
Proof. by intros p p' Hp. Qed.

Lemma same_tokens_fuel p p' : same_tokens p p' -> fuel p = fuel p'.
Proof. intros [_ Hall]. unfold fuel. by rewrite (Forall2_length _ _ _ Hall). Qed.

Lemma same_tokens_next p p' : same_tokens p p' -> same_tokens (next p) (next p').
Proof. intros [Hc Hall]. split; simpl; [by rewrite Hc|done]. Qed.

Lemma same_text_type a b : same_text a b -> Token.type a = Token.type b.
Proof. by intros [= ? ?]. Qed.

Lemma same_text_value a b : same_text a b -> Token.value a = Token.value b.
Proof. by intros [= ? ?]. Qed.

(** *** The member functions *)

Lemma sim_lookup (l l' : list Token.t) i :
  Forall2 same_text l l' ->
  match l !! i, l' !! i with
  | Some a, Some b => same_text a b
  | None, None => True
  | _, _ => False
  end.
Proof.
  intros Hall. revert i.
  induction Hall as [|a b l l' Hab _ IH]; intros [|i]; simpl; try done.
  apply IH.
Qed.

Lemma sim_peek : sim same_text peek peek.
Proof.
  intros p p' [Hc Hall]. unfold peek, bind, get. rewrite <-Hc.
  pose proof (sim_lookup _ _ (current p) Hall) as Hl.
  by destruct (tokens p !! current p), (tokens p' !! current p).
Qed.

Lemma sim_previous : sim same_text previous previous.
Proof.
  intros p p' [Hc Hall]. unfold previous, bind, get. rewrite <-Hc.
  destruct (current p) as [|i] eqn:Hi; [done|].
  pose proof (sim_lookup _ _ i Hall) as Hl.
  destruct (tokens p !! i), (tokens p' !! i); try done.
  split; [done|]. split; [congruence|done].
Qed.

Lemma sim_check type : sim eq (check type) (check type).
Proof.
  eapply sim_bind; [apply sim_peek|]. intros a b Hab.
  apply sim_ret. by rewrite (same_text_type _ _ Hab).
Qed.

Lemma sim_advance : sim same_text advance advance.
Proof.
  eapply sim_bind; [apply sim_check|]. intros at_end ? <-.
  eapply (sim_bind eq); [|intros; apply sim_previous].
  destruct at_end; [by apply sim_ret|].
  intros p p' Hp. split; [done|]. by apply same_tokens_next.
Qed.

Lemma sim_match type : sim eq (match_ type) (match_ type).
Proof.
  eapply sim_bind; [apply sim_check|]. intros b ? <-.
  destruct b; [|by apply sim_ret].
  eapply sim_bind; [apply sim_advance|]. intros. by apply sim_ret.
Qed.

Lemma sim_consume type msg : sim eq (consume type msg) (consume type msg).
Proof.
  eapply sim_bind; [apply sim_match|]. intros b ? <-.
  destruct b; [by apply sim_ret|].
  eapply sim_bind; [apply sim_peek|]. intros. apply sim_throw.
Qed.

Lemma sim_consume_value type msg :
  sim eq (consume_value type msg) (consume_value type msg).
Proof.
  eapply sim_bind; [apply sim_consume|]. intros _ _ _.
  eapply sim_bind; [apply sim_previous|]. intros a b Hab.
  apply sim_ret. by apply same_text_value.
Qed.

Lemma sim_substr s pos : sim eq (substr s pos) (substr s pos).
Proof. unfold substr. case_bool_decide; [by apply sim_ret|apply sim_throw]. Qed.

Create HintDb simulation.

#[local] Hint Resolve sim_throw sim_get sim_peek sim_previous sim_check
  sim_advance sim_match sim_consume sim_consume_value sim_substr
  : simulation.

(** Names the results of the first of two computations in sequence,
    and replaces what the second reads of the left one by what it
    reads of the right one. *)
Ltac sim_intro :=
  let a := fresh "a" in
  let a' := fresh "a" in
  let H := fresh "H" in
  intros a a' H; cbv beta;
  lazymatch type of H with
  | same_text _ _ => rewrite ?(same_text_value _ _ H), ?(same_text_type _ _ H)
  | same_tokens _ _ => rewrite ?(same_tokens_fuel _ _ H)
  | _ => subst a'
  end.

Ltac sim_step :=
  lazymatch goal with
  | |- sim _ (bind _ _) (bind _ _) =>
      first [ eapply sim_bind; [solve [eauto with simulation]|sim_intro]
            | eapply (sim_bind eq); [|sim_intro] ]
  | |- sim _ (if ?b then _ else _) (if ?b then _ else _) => destruct b
  | |- sim _ (match ?x with Some _ => _ | None => _ end) _ => destruct x
  | |- sim _ (let '(_, _) := ?x in _) _ => destruct x
  | |- sim _ (throw _) (throw _) => apply sim_throw
  | |- sim _ (ret _) (ret _) => by apply sim_ret
  | |- _ => solve [eauto with simulation]
  end.

Ltac simulate := repeat sim_step.

Lemma sim_parse_macro_def : sim eq parse_macro_def parse_macro_def.
Proof. unfold parse_macro_def. simulate. Qed.

Lemma sim_parse_part func acc :
  sim eq (parse_part func acc) (parse_part func acc).
Proof. unfold parse_part. simulate. Qed.

Lemma sim_parse_set_or_read : sim eq parse_set_or_read parse_set_or_read.
Proof.
  unfold parse_set_or_read. do 5 sim_step; [simulate|]. do 2 sim_step.
  - apply sim_do_while; [| |done]; intros acc ? <-;
      [apply sim_parse_part|simulate].
  - simulate.
Qed.

Lemma sim_parse_boolean : sim eq parse_boolean parse_boolean.
Proof. unfold parse_boolean. simulate. Qed.

Lemma sim_in_block : sim eq in_block in_block.
Proof. unfold in_block. simulate. Qed.

Lemma sim_parse_if (ps ps' : M t Statement) :
  sim eq ps ps' -> sim eq (parse_if ps) (parse_if ps').
Proof.
  intros Hps. unfold parse_if. do 5 sim_step.
  eapply (sim_bind eq); [|sim_intro; simulate].
  apply sim_while; [| |done]; intros body ? <-; [apply sim_in_block|].
  eapply sim_bind; [apply Hps|]. sim_intro. simulate.
Qed.

Lemma sim_parse_backend backends :
  sim eq (parse_backend backends) (parse_backend backends).
Proof. unfold parse_backend. simulate. Qed.

Lemma sim_parse_generate : sim eq parse_generate parse_generate.
Proof.
  unfold parse_generate. do 5 sim_step; [simulate|]. sim_step; [|simulate].
  eapply (sim_bind eq); [|sim_intro; simulate].
  apply sim_while; [| |done]; intros bs ? <-;
    [simulate|apply sim_parse_backend].
Qed.

Lemma sim_parse_print : sim eq parse_print parse_print.
Proof. unfold parse_print. simulate. Qed.

Lemma sim_parse_string_operand result :
  sim eq (parse_string_operand result) (parse_string_operand result).
Proof. unfold parse_string_operand. simulate. Qed.

Lemma sim_parse_string : sim eq parse_string parse_string.
Proof.
  unfold parse_string. do 4 sim_step.
  eapply (sim_bind eq); [|sim_intro; simulate].
  apply sim_while; [| |done]; intros r ? <-;
    [apply sim_match|apply sim_parse_string_operand].
Qed.

Lemma sim_parse_statement_rest :
  sim eq parse_statement_rest parse_statement_rest.
Proof.
  unfold parse_statement_rest.
  do 2 sim_step; [apply sim_parse_set_or_read|simulate].
Qed.

#[local] Hint Resolve sim_parse_macro_def sim_parse_boolean sim_parse_generate
  sim_parse_print sim_parse_string sim_parse_statement_rest sim_parse_if : simulation.

Lemma sim_parse_statement fuel :
  sim eq (parse_statement fuel) (parse_statement fuel).
Proof. induction fuel as [|fuel IH]; [done|]. cbn [parse_statement]. simulate. Qed.

Lemma sim_parse : sim eq parse parse.
Proof.
  unfold parse. sim_step.
  apply sim_while; [| |done]; intros stmts ? <-; [simulate|].
  eapply sim_bind; [apply sim_parse_statement|]. sim_intro. simulate.
Qed.

(** *** The parser on two token vectors *)

Lemma same_texts (toks toks' : list Token.t) :
  text <$> toks = text <$> toks' -> Forall2 same_text toks toks'.
Proof.
  revert toks'. induction toks as [|a toks IH]; intros [|b toks'] H;
    try done.
  rewrite !fmap_cons in H. injection H as Hty Hval H.
  constructor; [|by apply IH]. unfold same_text, text. by rewrite Hty, Hval.
Qed.

Lemma parse_tokens_same toks toks' :
  text <$> toks = text <$> toks' ->
  same_outcome (parse_tokens toks) (parse_tokens toks').
Proof.
  intros H%same_texts. unfold parse_tokens, eval.
  pose proof (sim_parse (new toks) (new toks') (conj eq_refl H)) as Hsim.
  unfold agree in Hsim.
  destruct (parse (new toks)) as [[a q]|e| |],
    (parse (new toks')) as [[a' q']|e'| |]; try done.
  by destruct Hsim.
Qed.

(** *** Scripts *)

Lemma text_unparse_program statements :
  text <$> unparse_program statements =
  (text <$> flat_map unparse statements) ++ [(TokenType.EndOfFile, ""%string)].
Proof. unfold unparse_program. by rewrite fmap_app. Qed.

Lemma scriptable_lexable statements :
  Forall scriptable statements -> Forall lexable (flat_map unparse statements).
Proof.
  induction 1 as [|s l [_ Hs] _ IH]; simpl; [done|]. by apply Forall_app.
Qed.

Lemma scriptable_printable statements :
  Forall scriptable statements -> Forall printable statements.
Proof. intros H. eapply Forall_impl; [done|]. by intros s [? _]. Qed.

Lemma parse_source_script statements :
  Forall scriptable statements ->
  parse_source (script statements) = Ok statements.
Proof.
  intros Hs. unfold parse_source, script.
  destruct (lex_print_text _ (scriptable_lexable _ Hs)) as (toks & -> & Htext).
  rewrite <-text_unparse_program in Htext.
  pose proof (parse_tokens_same _ _ Htext) as Hsame.
  rewrite (parse_unparse_program _ (scriptable_printable _ Hs)) in Hsame.
  destruct (parse_tokens toks); simpl in Hsame; by subst.
Qed.

(** ** Claims *)

(** C24: the parser reads the position of a token only to word an error
    message: on two token vectors with the same kinds and texts,
    [parse_tokens] returns the same statements, or throws on both, or
    reads outside both. *)
Theorem parse_tokens_positions toks toks' :
  text <$> toks = text <$> toks' ->
  same_outcome (parse_tokens toks) (parse_tokens toks').
Proof. apply parse_tokens_same. Qed.

Lemma parse_tokens_positions_witness :
  same_outcome
    (parse_tokens [Token.mk TokenType.Keyword "boolean" 1 1;
                   Token.mk TokenType.Identifier "f" 1 9;
                   Token.mk TokenType.Equals "=" 1 11;
                   Token.mk TokenType.Boolean "TRUE" 1 13;
                   Token.mk TokenType.Semicolon ";" 1 17;
                   Token.mk TokenType.EndOfFile "" 1 18])
    (parse_tokens [Token.mk TokenType.Keyword "boolean" 4 2;
                   Token.mk TokenType.Identifier "f" 5 1;
                   Token.mk TokenType.Equals "=" 5 3;
                   Token.mk TokenType.Boolean "TRUE" 6 1;
                   Token.mk TokenType.Semicolon ";" 6 5;
                   Token.mk TokenType.EndOfFile "" 7 1]).
Proof. by apply parse_tokens_positions. Defined.

(** C13: a program written out as text is read back: when every
    statement can be written ([printable]) and its tokens can be
    spelled ([lexable]), the scanner and the parser in sequence,
    [parse_source], return the statements from their [script]. *)
Theorem parse_script statements :
  Forall scriptable statements ->
  parse_source (script statements) = Ok statements.
Proof. apply parse_source_script. Qed.

Lemma parse_script_witness :
  parse_source
    (script [MacroDefStatement "x" "TEX";
             IfStatement "f" [SetStatement "x" "glsl" ["a b"] [true] false];
             GenerateSelectStatement [GLSL; MSL]])
  = Ok [MacroDefStatement "x" "TEX";
        IfStatement "f" [SetStatement "x" "glsl" ["a b"] [true] false];
        GenerateSelectStatement [GLSL; MSL]].
Proof.
  apply parse_script.
  repeat apply Forall_cons_2; [..|apply Forall_nil_2];
    (split; [repeat constructor; simpl; done|]);
    apply (bool_decide_unpack _); by vm_compute.
Defined.
