(* ===== verification/Interp.v ===== *)
(** * Interp: the interpreter of interpreter.h and interpreter.cpp

    [Macro.t] is [struct Macro].  Module [Interpreter] holds class
    [Interpreter]: its five tables as the record [Interpreter.t]
    ([std::map] is [gmap], [std::set] is [gset]), extended with the two
    output streams the class writes to ([std::cout], [std::cerr]) as
    lists of lines.  The file system read by [load_file] is a parameter
    [fs], a map from path to contents.

    [execute] is the chain of [dynamic_pointer_cast]s of
    interpreter.cpp as a [match] on the statement; [execute_block] and
    [interpret] are its two loops.  [std::map::at] on a missing key is
    [Throw (out_of_range "map::at")]; [isLiteral[i]] past the end of the
    vector is [Undefined].

    [fails] is the declarative account of the interpreter's errors;
    [execute] throws exactly what it says. *)

From Stdlib Require Import Ascii.
From stdpp Require Import base tactics option numbers list strings gmap.
From S2P Require Import Prelude Ast.

(** ** interpreter.h *)

Module Macro.
Record t : Type := mk {
  macroName : string;
  lazy : bool;
  backendValues : gmap string string;
  defaultValue : string
}.

(** [Macro{name}]: the aggregate with every other member defaulted. *)
Definition new (name : string) : t := mk name false ∅ "".
End Macro.

Module Interpreter.

Record t : Type := mk {
  macros : gmap string Macro.t;
  bools : gmap string bool;
  requiredBackends : gset string;
  varToMacroName : gmap string string;
  strings : gmap string string;
  cout : list string;
  cerr : list string
}.

(** A default-constructed [Interpreter]. *)
Definition new : t := mk ∅ ∅ ∅ ∅ ∅ [] [].

Definition set_macros (f : gmap string Macro.t -> gmap string Macro.t)
  (s : t) : t :=
  mk (f (macros s)) (bools s) (requiredBackends s) (varToMacroName s)
     (strings s) (cout s) (cerr s).

Definition set_bools (f : gmap string bool -> gmap string bool) (s : t) : t :=
  mk (macros s) (f (bools s)) (requiredBackends s) (varToMacroName s)
     (strings s) (cout s) (cerr s).

Definition set_requiredBackends (f : gset string -> gset string) (s : t)
  : t :=
  mk (macros s) (bools s) (f (requiredBackends s)) (varToMacroName s)
     (strings s) (cout s) (cerr s).

Definition set_varToMacroName
  (f : gmap string string -> gmap string string) (s : t) : t :=
  mk (macros s) (bools s) (requiredBackends s) (f (varToMacroName s))
     (strings s) (cout s) (cerr s).

Definition set_strings (f : gmap string string -> gmap string string)
  (s : t) : t :=
  mk (macros s) (bools s) (requiredBackends s) (varToMacroName s)
     (f (strings s)) (cout s) (cerr s).

Definition set_cout (f : list string -> list string) (s : t) : t :=
  mk (macros s) (bools s) (requiredBackends s) (varToMacroName s)
     (strings s) (f (cout s)) (cerr s).

Definition set_cerr (f : list string -> list string) (s : t) : t :=
  mk (macros s) (bools s) (requiredBackends s) (varToMacroName s)
     (strings s) (cout s) (f (cerr s)).

(** [m.at(key)]. *)
Definition at_ {V} (m : gmap string V) (key : string) : M t V :=
  match m !! key with
  | Some v => ret v
  | None => throw (out_of_range "map::at")
  end.

Definition to_lower (s : string) : string := map_string tolower s.

Section WithFiles.
Context (fs : gmap string string).

Definition load_file (path : string) : M t string :=
  match fs !! path with
  | Some contents => ret contents
  | None => throw (runtime_error ("Failed to read file: " +:+ path))
  end.

(** One round of the loop over [parts]: [value += ...]. *)
Definition append_part (parts : list string) (isLiteral : list bool)
  (value : string) (i : nat) : M t string :=
  match isLiteral !! i, parts !! i with
  | Some true, Some part => ret (value +:+ part)
  | Some false, Some varName =>
      s <- get ;;
      match strings s !! varName with
      | None =>
          throw (runtime_error ("Undefined string variable: " +:+ varName))
      | Some text => ret (value +:+ text)
      end
  | _, _ => undefined
  end.

(** The value of a setter: the file named by its first argument, or
    the concatenation of its arguments.  [what] is the function named
    in the error message ("read_*" or "read_default"). *)
Definition part_value (what : string) (parts : list string)
  (isLiteral : list bool) (isReadFromFile : bool) : M t string :=
  if isReadFromFile then
    match parts with
    | [] => throw (runtime_error ("Expected literal path in " +:+ what))
    | path :: _ =>
        match isLiteral !! 0 with
        | None => undefined
        | Some false =>
            throw (runtime_error ("Expected literal path in " +:+ what))
        | Some true => load_file path
        end
    end
  else
    for_acc (append_part parts isLiteral) (seq 0 (length parts)) ""%string.

(** The backend a [generate_select] entry stands for. *)
Definition backend_name (b : Backend) : option string :=
  match b with
  | GLSL => Some "glsl"
  | HLSL => Some "hlsl"
  | MSL => Some "msl"
  | SPIRV => Some "spirv"
  | UNKNOWN => None
  end%string.

Definition all_backends : gset string :=
  {["glsl"; "hlsl"; "msl"; "spirv"]}%string.

Definition select_backend (b : Backend) : M t unit :=
  match backend_name b with
  | Some name => modify (set_requiredBackends (fun bs => {[name]} ∪ bs))
  | None => ret tt
  end.

Fixpoint execute (stmt : Statement) : M t unit :=
  match stmt with
  | MacroDefStatement varName macroName =>
      s <- get ;;
      if bool_decide (macroName ∈ dom (macros s)) then
        throw (runtime_error ("Duplicate macro name: " +:+ macroName))
      else
        modify (set_varToMacroName <[varName := macroName]>) ;;
        modify (set_macros <[macroName := Macro.new macroName]>)
  | SetStatement varName backend parts isLiteral isReadFromFile =>
      s <- get ;;
      macroName <- at_ (varToMacroName s) varName ;;
      macro <- at_ (macros s) macroName ;;
      let backend := to_lower backend in
      value <- part_value "read_*" parts isLiteral isReadFromFile ;;
      modify (set_macros
                <[macroName :=
                    Macro.mk (Macro.macroName macro) (Macro.lazy macro)
                      (<[backend := value]> (Macro.backendValues macro))
                      (Macro.defaultValue macro)]>)
  | SetDefaultStatement varName parts isLiteral isReadFromFile =>
      s <- get ;;
      macroName <- at_ (varToMacroName s) varName ;;
      macro <- at_ (macros s) macroName ;;
      value <- part_value "read_default" parts isLiteral isReadFromFile ;;
      modify (set_macros
                <[macroName :=
                    Macro.mk (Macro.macroName macro) (Macro.lazy macro)
                      (Macro.backendValues macro) value]>)
  | LazyStatement varName =>
      s <- get ;;
      macroName <- at_ (varToMacroName s) varName ;;
      macro <- at_ (macros s) macroName ;;
      modify (set_macros
                <[macroName :=
                    Macro.mk (Macro.macroName macro) true
                      (Macro.backendValues macro)
                      (Macro.defaultValue macro)]>)
  | BooleanDeclaration name value =>
      modify (set_bools <[name := value]>)
  | IfStatement conditionVar body =>
      s <- get ;;
      let cond := bool_decide (bools s !! conditionVar = Some true) in
      if cond then for_each execute body else ret tt
  | GenerateAllStatement =>
      modify (set_requiredBackends (fun _ => all_backends))
  | GenerateSelectStatement backends =>
      for_each select_backend backends
  | PrintStatement expression =>
      if bool_decide (expression = "list_backends"%string) then
        modify (set_cout
                  (fun out =>
                     out ++ ["Supported backends: glsl, hlsl, msl, spirv"]))
      else
        modify (set_cerr
                  (fun err =>
                     err ++ ["Unknown print expression: " +:+ expression]))
  | StringDeclaration name expression =>
      modify (set_strings <[name := expression]>)
  end.

Definition execute_block (body : list Statement) : M t unit :=
  for_each execute body.

Definition interpret (statements : list Statement) : M t unit :=
  for_each execute statements.

End WithFiles.

Definition get_macros (s : t) : gmap string Macro.t := macros s.
Definition get_required_backends (s : t) : gset string := requiredBackends s.

(** ** Specification vocabulary *)

(** The invariant of the tables: every bound variable names a macro of
    the table; a macro is stored under its own name; the backend set is
    within the four known names; the backends a macro has values for
    are lower-case. *)
Record inv (s : t) : Prop := {
  inv_var v m : varToMacroName s !! v = Some m -> m ∈ dom (macros s);
  inv_name k m : macros s !! k = Some m -> Macro.macroName m = k;
  inv_backends : requiredBackends s ⊆ all_backends;
  inv_lower k m b :
    macros s !! k = Some m -> b ∈ dom (Macro.backendValues m) ->
    to_lower b = b
}.

(** [s'] is a later state of the run: nothing is ever removed from
    a table, the backend set or an output stream. *)
Record le (s s' : t) : Prop := {
  le_macros : dom (macros s) ⊆ dom (macros s');
  le_vars : dom (varToMacroName s) ⊆ dom (varToMacroName s');
  le_bools : dom (bools s) ⊆ dom (bools s');
  le_strings : dom (strings s) ⊆ dom (strings s');
  le_backends : requiredBackends s ⊆ requiredBackends s';
  le_cout : cout s `prefix_of` cout s';
  le_cerr : cerr s `prefix_of` cerr s'
}.

(** The exceptions of the interpreter: [std::out_of_range] from
    [varToMacroName.at], or a [std::runtime_error]. *)
Definition interp_error (e : exception) : Prop :=
  e = out_of_range "map::at" \/ exists what, e = runtime_error what.

(** The reference definition of a setter's value: the arguments
    concatenated left to right, a literal as it is and an identifier
    as the string variable it names; [inr varName] for an identifier
    that names no string variable. *)
Fixpoint concat_parts (strs : gmap string string) (parts : list string)
  (isLiteral : list bool) (value : string) : string + string :=
  match parts, isLiteral with
  | part :: parts', true :: isLiteral' =>
      concat_parts strs parts' isLiteral' (value +:+ part)
  | varName :: parts', false :: isLiteral' =>
      match strs !! varName with
      | Some text => concat_parts strs parts' isLiteral' (value +:+ text)
      | None => inr varName
      end
  | _, _ => inl value
  end.

(** The reference definition of [part_value]: the value, or the
    message of the [std::runtime_error]. *)
Definition setter_value (fs strs : gmap string string) (what : string)
  (parts : list string) (isLiteral : list bool) (isReadFromFile : bool)
  : string + string :=
  if isReadFromFile then
    match parts, isLiteral with
    | path :: _, true :: _ =>
        match fs !! path with
        | Some contents => inl contents
        | None => inr ("Failed to read file: " +:+ path)
        end
    | _, _ => inr ("Expected literal path in " +:+ what)
    end
  else
    match concat_parts strs parts isLiteral "" with
    | inl value => inl value
    | inr varName => inr ("Undefined string variable: " +:+ varName)
    end.

(** The macro names the top-level [macrodef]s of a script define, in
    order. *)
Definition defined (statements : list Statement) : list string :=
  omap (fun stmt => match stmt with
                    | MacroDefStatement _ macroName => Some macroName
                    | _ => None
                    end) statements.

(** What one statement does to a state of the invariant. *)
Definition preserves (m : M t unit) : Prop :=
  forall s, inv s -> wp m s (fun _ s' => inv s' /\ le s s') interp_error.

(** The variable a statement looks up in [varToMacroName]. *)
Definition uses (stmt : Statement) : option string :=
  match stmt with
  | SetStatement varName _ _ _ _ => Some varName
  | SetDefaultStatement varName _ _ _ => Some varName
  | LazyStatement varName => Some varName
  | _ => None
  end.

(** The arguments of a setter, with the name its error message gives
    the function. *)
Definition arguments (stmt : Statement)
  : option (string * list string * list bool * bool) :=
  match stmt with
  | SetStatement _ _ parts isLiteral isReadFromFile =>
      Some ("read_*"%string, parts, isLiteral, isReadFromFile)
  | SetDefaultStatement _ parts isLiteral isReadFromFile =>
      Some ("read_default"%string, parts, isLiteral, isReadFromFile)
  | _ => None
  end.

(** When a statement throws, and what: a [macrodef] of a macro name
    that is in the table; a setter or [lazy()] on a variable that is
    not bound; a setter on a bound variable whose value cannot be
    computed; an [if] whose flag is set, at the first statement of its
    body that throws, in the state the statements before it leave. *)
Inductive fails (fs : gmap string string)
  : t -> Statement -> exception -> Prop :=
| fails_duplicate s varName macroName :
    macroName ∈ dom (macros s) ->
    fails fs s (MacroDefStatement varName macroName)
      (runtime_error ("Duplicate macro name: " +:+ macroName))
| fails_unbound s stmt varName :
    uses stmt = Some varName ->
    varToMacroName s !! varName = None ->
    fails fs s stmt (out_of_range "map::at")
| fails_value s stmt varName what parts isLiteral isReadFromFile message :
    uses stmt = Some varName ->
    is_Some (varToMacroName s !! varName) ->
    arguments stmt = Some (what, parts, isLiteral, isReadFromFile) ->
    setter_value fs (strings s) what parts isLiteral isReadFromFile
      = inr message ->
    fails fs s stmt (runtime_error message)
| fails_if s conditionVar before stmt after s1 e :
    bools s !! conditionVar = Some true ->
    for_each (execute fs) before s = Ok (tt, s1) ->
    fails fs s1 stmt e ->
    fails fs s (IfStatement conditionVar (before ++ stmt :: after)) e.

(** The first statement of a block that throws, in the state the
    statements before it leave. *)
Definition fails_in (fs : gmap string string) (s : t)
  (statements : list Statement) (e : exception) : Prop :=
  exists before stmt after s1,
    statements = before ++ stmt :: after
    /\ for_each (execute fs) before s = Ok (tt, s1)
    /\ fails fs s1 stmt e.

(** The names a [generate_select] list stands for. *)
Definition backend_names (backends : list Backend) : gset string :=
  list_to_set (omap backend_name backends).

End Interpreter.

(** [Interpreter interpreter; interpreter.interpret(statements)], as
    main.cpp runs the interpreter. *)
Definition run (fs : gmap string string) (statements : list Statement)
  : result Interpreter.t :=
  exec (Interpreter.interpret fs statements) Interpreter.new.

(** The interpreter's side of its interface with the command line and
    the shader processor: on the statements the parser builds it
    returns or throws, and the tables it returns satisfy [inv]. *)
Class Evaluator (evaluate : list Statement -> result Interpreter.t)
  : Prop := {
  evaluate_defined statements :
    Forall wf_statement statements -> evaluate statements <> Undefined;
  evaluate_terminates statements :
    Forall wf_statement statements -> evaluate statements <> OutOfFuel;
  evaluate_inv statements s :
    Forall wf_statement statements -> evaluate statements = Ok s -> Interpreter.inv s
}.

(** A script for the witnesses: one macro with a GLSL value. *)
Definition sample : list Statement :=
  [MacroDefStatement "x" "N"; SetStatement "x" "GLSL" ["a"] [true] false].

Definition sample_state : Interpreter.t :=
  Interpreter.set_macros <["N" := Macro.new "N"]>
    (Interpreter.set_varToMacroName <["x" := "N"]> Interpreter.new).

(** ** Theorems *)

Import Interpreter.

#[local] Set Warnings "-clear-no-such-hyp".

(** *** The order on interpreter states *)

#[export] Instance interp_le_preorder : PreOrder le.
Proof.
  split.
  - intros s. by split.
  - intros s1 s2 s3 [] []. split; by etrans.
Qed.

Lemma new_inv : inv new.
Proof. split; simpl; try done; intros ??; by rewrite lookup_empty. Qed.

(** *** [at_], [load_file] *)

Lemma wp_at {V} (m : gmap string V) key s (Q : V -> t -> Prop)
    (E : exception -> Prop) :
  (forall v, m !! key = Some v -> Q v s) ->
  (m !! key = None -> E (out_of_range "map::at")) ->
  wp (at_ m key) s Q E.
Proof.
  intros Hs Hn. unfold at_.
  destruct (m !! key); [apply wp_ret|apply wp_throw]; auto.
Qed.

Lemma throw_interp_error {A} what s (Q : A -> t -> Prop) :
  wp (throw (runtime_error what)) s Q interp_error.
Proof. apply wp_throw. right. by eexists. Qed.

#[export] Hint Resolve throw_interp_error : slayout.

Section WithFiles.
Context (fs : gmap string string).

Lemma load_file_spec path s :
  wp (load_file fs path) s (fun v s' => s' = s /\ fs !! path = Some v)
     interp_error.
Proof.
  unfold load_file.
  destruct (fs !! path); [by apply wp_ret|auto with slayout].
Qed.

(** *** The value of a setter *)

Lemma append_part_spec parts isLiteral value i s :
  length parts = length isLiteral -> i < length parts ->
  wp (append_part parts isLiteral value i) s (fun _ s' => s' = s)
     interp_error.
Proof.
  intros Hlen Hi. unfold append_part.
  destruct (lookup_lt_is_Some_2 parts i Hi) as [part ->].
  destruct (lookup_lt_is_Some_2 isLiteral i) as [[|] ->]; [lia| |].
  - by apply wp_ret.
  - apply wp_bind, wp_get. destruct (strings s !! part); auto with slayout.
Qed.

(** The value of a well-formed setter is computed without touching the
    state and without reading outside [parts] or [isLiteral]. *)
Lemma part_value_spec what parts isLiteral isReadFromFile s :
  wf_parts parts isLiteral ->
  wp (part_value fs what parts isLiteral isReadFromFile) s
     (fun _ s' => s' = s) interp_error.
Proof.
  intros [Hlen Hne]. unfold part_value. destruct isReadFromFile.
  - destruct parts as [|path parts]; [done|].
    destruct isLiteral as [|[|] isLiteral]; simpl in *; [lia| |];
      auto with slayout.
    eapply wp_post; [apply load_file_spec|]. by intros ?? [-> _].
  - eapply wp_post.
    + eapply (wp_for_acc
        (fun l _ s' => s' = s /\ Forall (fun i => i < length parts) l)).
      * intros i l value s' [-> Hall]. inv Hall.
        eapply wp_post; [by apply append_part_spec|]. by intros ?? ->.
      * split; [done|]. apply Forall_seq. lia.
    + by intros ?? [-> _].
Qed.

(** The concatenation loop computes [concat_parts], started at any
    index of the vectors. *)
Lemma for_acc_concat_parts parts isLiteral parts0 isLiteral0 value s :
  length parts0 = length isLiteral0 ->
  length parts = length isLiteral ->
  for_acc (append_part (parts0 ++ parts) (isLiteral0 ++ isLiteral))
          (seq (length parts0) (length parts)) value s =
  match concat_parts (strings s) parts isLiteral value with
  | inl value' => Ok (value', s)
  | inr varName =>
      Throw (runtime_error ("Undefined string variable: " +:+ varName))
  end.
Proof.
  revert isLiteral parts0 isLiteral0 value.
  induction parts as [|part parts IH];
    intros [|lit isLiteral] parts0 isLiteral0 value Hlen0 Hlen;
    simplify_eq/=; [done|].
  unfold bind at 1, append_part at 1.
  rewrite lookup_app_r, lookup_app_r by lia.
  rewrite <-Hlen0, Nat.sub_diag. simpl.
  specialize (IH isLiteral (parts0 ++ [part]) (isLiteral0 ++ [lit])).
  rewrite !length_app, Nat.add_1_r in IH. simpl in IH.
  rewrite <-!(assoc_L (++)) in IH. simpl in IH.
  destruct lit; simpl.
  - apply IH; lia.
  - unfold bind, get. destruct (strings s !! part); [|done]. apply IH; lia.
Qed.

(** *** The invariant and the order under each update *)

Lemma to_lower_idemp b : to_lower (to_lower b) = to_lower b.
Proof. apply map_string_idemp, tolower_idemp. Qed.

Lemma inv_update s macroName macro macro' :
  inv s -> macros s !! macroName = Some macro ->
  Macro.macroName macro' = Macro.macroName macro ->
  (forall b, b ∈ dom (Macro.backendValues macro') ->
             b ∈ dom (Macro.backendValues macro) \/ to_lower b = b) ->
  inv (set_macros <[macroName := macro']> s).
Proof.
  intros [Hv Hn Hb Hl] Hm Hname Hdom. split; simpl; [| | done |].
  - intros v m Hvm. apply Hv in Hvm. set_solver.
  - intros k m [[<- <-]|[_ ?]]%lookup_insert_Some; [|by eauto].
    rewrite Hname. eauto.
  - intros k m b [[<- <-]|[_ ?]]%lookup_insert_Some Hin; [|by eauto].
    destruct (Hdom b Hin); eauto.
Qed.

Lemma le_update s macroName macro' :
  le s (set_macros <[macroName := macro']> s).
Proof. split; simpl; try done. set_solver. Qed.

Lemma inv_define s varName macroName :
  inv s ->
  inv (set_macros <[macroName := Macro.new macroName]>
         (set_varToMacroName <[varName := macroName]> s)).
Proof.
  intros [Hv Hn Hb Hl]. split; simpl; [| | done |].
  - intros v m [[_ <-]|[_ Hvm]]%lookup_insert_Some; [|apply Hv in Hvm];
      set_solver.
  - intros k m [[<- <-]|[_ ?]]%lookup_insert_Some; by eauto.
  - intros k m b [[<- <-]|[_ ?]]%lookup_insert_Some; [|by eauto].
    simpl. set_solver.
Qed.

Lemma le_define s varName macroName :
  le s (set_macros <[macroName := Macro.new macroName]>
          (set_varToMacroName <[varName := macroName]> s)).
Proof. split; simpl; try done; set_solver. Qed.

(** The two lookups that open a setter: the second never fails once
    the first succeeded. *)
Lemma lookup_macro_spec {A} varName (k : string -> Macro.t -> M t A) s
    (Q : A -> t -> Prop) :
  inv s ->
  (forall macroName macro,
     varToMacroName s !! varName = Some macroName ->
     macros s !! macroName = Some macro ->
     wp (k macroName macro) s Q interp_error) ->
  wp (macroName <- at_ (varToMacroName s) varName ;;
      macro <- at_ (macros s) macroName ;;
      k macroName macro) s Q interp_error.
Proof.
  intros Hinv Hk. apply wp_bind, wp_at; [|by left].
  intros macroName Hv. apply wp_bind, wp_at; [by eauto|].
  intros Hnone. apply (inv_var _ Hinv), elem_of_dom in Hv as [? ?].
  congruence.
Qed.

(** *** [generate_select] *)

Lemma backend_names_cons b backends :
  backend_names (b :: backends) =
  match backend_name b with
  | Some name => {[name]} ∪ backend_names backends
  | None => backend_names backends
  end.
Proof. unfold backend_names. simpl. by destruct (backend_name b). Qed.

Lemma backend_names_all backends : backend_names backends ⊆ all_backends.
Proof.
  induction backends as [|[] backends IH]; rewrite ?backend_names_cons;
    simpl; [done|set_solver..].
Qed.

Lemma set_requiredBackends_id s :
  set_requiredBackends (fun bs => backend_names [] ∪ bs) s = s.
Proof.
  destruct s. unfold set_requiredBackends, backend_names. simpl.
  f_equal. set_solver.
Qed.

Lemma for_each_select_backend backends s :
  for_each select_backend backends s =
  Ok (tt, set_requiredBackends (fun bs => bs ∪ backend_names backends) s).
Proof.
  revert s. induction backends as [|b backends IH]; intros s.
  - simpl. unfold ret. do 2 f_equal. destruct s.
    unfold set_requiredBackends, backend_names. simpl. f_equal. set_solver.
  - simpl. unfold bind at 1, select_backend at 1.
    rewrite backend_names_cons. destruct (backend_name b); simpl.
    + rewrite IH. unfold set_requiredBackends. simpl. do 3 f_equal.
      set_solver.
    + by rewrite IH.
Qed.

(** *** [execute] *)

(** Closes [inv] and [le] for an update that leaves the macro table
    alone. *)
Ltac frame :=
  let Hv := fresh in let Hn := fresh in let Hb := fresh in
  let Hl := fresh in
  intros [] [Hv Hn Hb Hl]; split; split; simpl in *;
  first [done | by apply prefix_app_r | set_solver].

Lemma preserves_modify f :
  (forall s, inv s -> inv (f s) /\ le s (f s)) -> preserves (modify f).
Proof. intros Hf s Hinv. apply wp_modify. auto. Qed.

Lemma preserves_for_each body :
  Forall (fun stmt => wf_statement stmt -> preserves (execute fs stmt)) body ->
  Forall wf_statement body ->
  preserves (for_each (execute fs) body).
Proof.
  intros Hall Hwf s Hinv. eapply wp_post.
  - apply (wp_for_each
      (fun l s' => inv s' /\ le s s' /\ Forall wf_statement l /\
         Forall (fun stmt => wf_statement stmt -> preserves (execute fs stmt)) l)).
    + intros stmt l s' (Hinv' & Hle & [Hs Hwf']%Forall_cons
                        & [Hp Hall']%Forall_cons).
      eapply wp_post; [by apply Hp|]. intros ? s'' [? ?].
      split_and!; try done. by etrans.
    + by split_and!.
  - by intros _ s' (? & ? & _).
Qed.

Lemma execute_setter_spec varName (update : Macro.t -> string -> Macro.t)
    what parts isLiteral isReadFromFile :
  wf_parts parts isLiteral ->
  (forall macro value,
     Macro.macroName (update macro value) = Macro.macroName macro /\
     forall b, b ∈ dom (Macro.backendValues (update macro value)) ->
               b ∈ dom (Macro.backendValues macro) \/ to_lower b = b) ->
  preserves
    (s <- get ;;
     macroName <- at_ (varToMacroName s) varName ;;
     macro <- at_ (macros s) macroName ;;
     value <- part_value fs what parts isLiteral isReadFromFile ;;
     modify (set_macros <[macroName := update macro value]>)).
Proof.
  intros Hwf Hupd s Hinv. apply wp_bind, wp_get.
  apply lookup_macro_spec; [done|]. intros macroName macro Hv Hm.
  apply wp_bind. eapply wp_post; [by apply part_value_spec|].
  intros value ? ->. apply wp_modify. split; [|apply le_update].
  eapply inv_update; [done..|apply Hupd|apply Hupd].
Qed.

Lemma execute_spec stmt : wf_statement stmt -> preserves (execute fs stmt).
Proof.
  induction stmt as [v m|v b ps ls r|n e|v ps ls r|v|n b|c body IH| |bs|e]
    using Statement_nested_ind; intros Hwf.
  - intros s Hinv. simpl. apply wp_bind, wp_get. case_bool_decide.
    + auto with slayout.
    + apply wp_bind, wp_modify, wp_modify.
      split; [by apply inv_define|apply le_define].
  - apply (execute_setter_spec v
      (fun macro value =>
         Macro.mk (Macro.macroName macro) (Macro.lazy macro)
           (<[to_lower b := value]> (Macro.backendValues macro))
           (Macro.defaultValue macro))); [by apply Hwf|].
    intros macro value. split; [done|]. simpl. intros b'.
    rewrite dom_insert, elem_of_union, elem_of_singleton.
    intros [->|?]; [right; apply to_lower_idemp|by left].
  - apply preserves_modify. frame.
  - apply (execute_setter_spec v
      (fun macro value =>
         Macro.mk (Macro.macroName macro) (Macro.lazy macro)
           (Macro.backendValues macro) value)); [by apply Hwf|].
    intros macro value. split; [done|]. by left.
  - intros s Hinv. simpl. apply wp_bind, wp_get.
    apply lookup_macro_spec; [done|]. intros macroName macro Hv Hm.
    apply wp_modify. split; [|apply le_update].
    eapply inv_update; [done..|by left].
  - apply preserves_modify. frame.
  - intros s Hinv. simpl. apply wp_bind, wp_get. case_bool_decide.
    + apply preserves_for_each; [done| |done]. by apply wf_statement_if in Hwf.
    + by apply wp_ret.
  - apply preserves_modify. frame.
  - intros s. unfold wp. simpl. rewrite for_each_select_backend.
    pose proof (backend_names_all bs). revert s. frame.
  - simpl. case_bool_decide; apply preserves_modify; frame.
Qed.

Lemma interpret_spec statements :
  Forall wf_statement statements -> preserves (interpret fs statements).
Proof.
  intros Hwf. apply preserves_for_each; [|done].
  apply Forall_forall. intros stmt _. apply execute_spec.
Qed.

(** *** The reference definition of a setter's value *)

Lemma part_value_setter_value what parts isLiteral isReadFromFile s :
  length parts = length isLiteral ->
  part_value fs what parts isLiteral isReadFromFile s =
  match setter_value fs (strings s) what parts isLiteral isReadFromFile with
  | inl value => Ok (value, s)
  | inr what' => Throw (runtime_error what')
  end.
Proof.
  intros Hlen. unfold part_value, setter_value. destruct isReadFromFile.
  - destruct parts as [|path parts], isLiteral as [|[|] isLiteral];
      simplify_eq/=; try done.
    unfold load_file. by destruct (fs !! path).
  - pose proof (for_acc_concat_parts parts isLiteral [] [] "" s eq_refl Hlen)
      as Heq. simpl in Heq. rewrite Heq.
    by destruct (concat_parts _ _ _ _).
Qed.

(** The opening of a setter on a bound variable. *)
Lemma lookup_macro_bound {A} varName macroName
    (k : string -> Macro.t -> M t A) s :
  inv s -> varToMacroName s !! varName = Some macroName ->
  exists macro, macros s !! macroName = Some macro /\
    (macroName <- at_ (varToMacroName s) varName ;;
     macro <- at_ (macros s) macroName ;;
     k macroName macro) s = k macroName macro s.
Proof.
  intros Hinv Hv.
  pose proof (inv_var _ Hinv _ _ Hv) as [macro Hm]%elem_of_dom.
  exists macro. split; [done|]. unfold bind, at_. rewrite Hv. cbn.
  by rewrite Hm.
Qed.

Lemma lookup_macro_unbound {A} varName (k : string -> Macro.t -> M t A) s :
  varToMacroName s !! varName = None ->
  (macroName <- at_ (varToMacroName s) varName ;;
   macro <- at_ (macros s) macroName ;;
   k macroName macro) s = Throw (out_of_range "map::at").
Proof. intros Hv. unfold bind, at_. by rewrite Hv. Qed.

(** *** When a statement throws *)

Lemma block_inv statements s s1 :
  Forall wf_statement statements -> inv s ->
  for_each (execute fs) statements s = Ok (tt, s1) -> inv s1.
Proof.
  intros Hwf Hinv Heq.
  by destruct (wp_ok _ _ _ _ _ _ (interpret_spec _ Hwf s Hinv) Heq).
Qed.

(** Opens a setter on a variable whose binding is known. *)
Ltac open_setter :=
  simpl; unfold bind at 1, get;
  first
    [ rewrite lookup_macro_unbound by done
    | edestruct (@lookup_macro_bound unit) as (? & ? & ->); [done..|];
      try unfold bind at 1 ].

Lemma execute_fails stmt s e :
  fails fs s stmt e -> inv s -> wf_statement stmt ->
  execute fs stmt s = Throw e.
Proof.
  induction 1 as [s v m Hm|s stmt v Hu Hv
                  |s stmt v what ps ls r message Hu [m Hv] Ha Hval
                  |s c before stmt after s1 e Hc Hb Hf IH]; intros Hinv Hwf.
  - simpl. unfold bind, get. by rewrite bool_decide_eq_true_2.
  - by destruct stmt; simplify_eq/=; open_setter.
  - destruct stmt; simplify_eq/=; open_setter;
      rewrite part_value_setter_value by apply Hwf; by rewrite Hval.
  - apply wf_statement_if, Forall_app in Hwf as [Hwf1 [Hs _]%Forall_cons].
    simpl. unfold bind at 1, get. rewrite bool_decide_eq_true_2 by done.
    eapply for_each_throw_at; [done|]. apply IH; [|done].
    by eapply block_inv.
Qed.

Lemma execute_throws stmt :
  forall s e, wf_statement stmt -> inv s ->
    execute fs stmt s = Throw e -> fails fs s stmt e.
Proof.
  induction stmt as [v m|v b ps ls r|n x|v ps ls r|v|n b|c body IH| |bs|x]
    using Statement_nested_ind; intros s e Hwf Hinv; try done.
  - simpl. unfold bind at 1, get. case_bool_decide; [|done].
    intros [= <-]. by constructor.
  - destruct (varToMacroName s !! v) as [m|] eqn:Hv; open_setter.
    + rewrite part_value_setter_value by apply Hwf.
      destruct (setter_value _ _ _ _ _ _) eqn:Hval; [done|].
      intros [= <-]. by eapply fails_value.
    + intros [= <-]. by eapply fails_unbound.
  - destruct (varToMacroName s !! v) as [m|] eqn:Hv; open_setter.
    + rewrite part_value_setter_value by apply Hwf.
      destruct (setter_value _ _ _ _ _ _) eqn:Hval; [done|].
      intros [= <-]. by eapply fails_value.
    + intros [= <-]. by eapply fails_unbound.
  - destruct (varToMacroName s !! v) as [m|] eqn:Hv; open_setter; [done|].
    intros [= <-]. by eapply fails_unbound.
  - simpl. unfold bind at 1, get. case_bool_decide; [|done].
    intros (before & stmt & after & s1 & -> & Hb & Hs)%for_each_throw.
    apply wf_statement_if, Forall_app in Hwf as [Hwf1 [Hwf2 _]%Forall_cons].
    apply Forall_app in IH as [_ [IH _]%Forall_cons].
    eapply fails_if; [done..|]. apply IH; [done| |done]. by eapply block_inv.
  - simpl. intros Hs. pose proof (for_each_select_backend bs s) as Heq.
    congruence.
  - simpl. by case_bool_decide.
Qed.

(** A block throws at its first statement that does. *)
Lemma interpret_throws statements s e :
  Forall wf_statement statements -> inv s ->
  interpret fs statements s = Throw e <-> fails_in fs s statements e.
Proof.
  intros Hwf Hinv. unfold interpret. split.
  - intros (before & stmt & after & s1 & -> & Hb & Hs)%for_each_throw.
    apply Forall_app in Hwf as [Hwf1 [Hwf2 _]%Forall_cons].
    exists before, stmt, after, s1. split_and!; [done..|].
    apply execute_throws; [done| |done]. by eapply block_inv.
  - intros (before & stmt & after & s1 & -> & Hb & Hs).
    apply Forall_app in Hwf as [Hwf1 [Hwf2 _]%Forall_cons].
    eapply for_each_throw_at; [done|]. apply execute_fails; [done| |done].
    by eapply block_inv.
Qed.

(** *** Macro names *)

Lemma defined_cons stmt statements :
  defined (stmt :: statements) = defined [stmt] ++ defined statements.
Proof. unfold defined. simpl. by destruct stmt. Qed.

Lemma defined_singleton stmt m :
  m ∈ defined [stmt] <-> exists v, stmt = MacroDefStatement v m.
Proof.
  destruct stmt; simpl; split;
    try (by intros ?%elem_of_nil); try (by intros [? ?]).
  - intros ->%list_elem_of_singleton. by eexists.
  - intros [? [= _ ->]]. by apply list_elem_of_singleton.
Qed.

Lemma NoDup_defined_singleton stmt : NoDup (defined [stmt]).
Proof. destruct stmt; simpl; try apply NoDup_singleton; apply NoDup_nil_2. Qed.

(** A [macrodef] that succeeds adds a name that was not in the
    table. *)
Lemma execute_defines stmt s :
  wf_statement stmt -> inv s ->
  wp (execute fs stmt) s
     (fun _ s' => inv s' /\ le s s' /\
        forall m, m ∈ defined [stmt] ->
                  (m ∉ dom (macros s)) /\ m ∈ dom (macros s'))
     interp_error.
Proof.
  intros Hwf Hinv.
  destruct (decide (defined [stmt] = [])) as [Hnil|Hdef].
  - eapply wp_post; [by apply execute_spec|]. intros ? s' [? ?].
    split_and!; [done..|]. rewrite Hnil. by intros m ?%elem_of_nil.
  - destruct stmt; try done. simpl. apply wp_bind, wp_get.
    case_bool_decide; [auto with slayout|].
    apply wp_bind, wp_modify, wp_modify.
    split_and!; [by apply inv_define|apply le_define|].
    intros m ->%list_elem_of_singleton. split; [done|]. simpl.
    set_solver.
Qed.

Lemma interpret_defined statements s :
  Forall wf_statement statements -> inv s ->
  wp (interpret fs statements) s
     (fun _ s' => inv s' /\ le s s' /\ NoDup (defined statements) /\
        forall m, m ∈ defined statements ->
                  (m ∉ dom (macros s)) /\ m ∈ dom (macros s'))
     interp_error.
Proof.
  unfold interpret. intros Hwf. revert s.
  induction Hwf as [|stmt rest Hs Hrest IH]; intros s Hinv.
  - apply wp_ret. split_and!; [done..|apply NoDup_nil_2|].
    by intros m ?%elem_of_nil.
  - rewrite for_each_cons. apply wp_bind.
    eapply wp_post; [by apply execute_defines|].
    intros ? s1 (Hinv1 & Hle1 & Hd1).
    eapply wp_post; [by apply IH|]. intros ? s' (Hinv' & Hle' & Hnd & Hd).
    rewrite defined_cons.
    split_and!; [done|by etrans| |].
    + apply NoDup_app. split_and!; [apply NoDup_defined_singleton| |done].
      intros m Hm1 Hm. apply Hd1 in Hm1. apply Hd in Hm. tauto.
    + intros m [Hm|Hm]%elem_of_app.
      * apply Hd1 in Hm as [? ?]. split; [done|].
        by apply (le_macros _ _ Hle').
      * apply Hd in Hm as [Hn ?]. split; [|done]. intros Hin. apply Hn.
        by apply (le_macros _ _ Hle1).
Qed.

(** *** Claims *)

(** C31: [execute] preserves the invariant of the tables: after a
    well-formed statement that does not throw, every bound variable
    still names a macro of the table, every macro is stored under its
    own name, the backend set holds known backends only and the keys
    of every [backendValues] are lower-case. *)
Theorem execute_preserves_inv stmt s s' :
  inv s -> wf_statement stmt -> execute fs stmt s = Ok (tt, s') -> inv s'.
Proof.
  intros Hinv Hwf Heq. pose proof (execute_spec stmt Hwf s Hinv) as Hs.
  eapply wp_ok in Hs; [|done]. tauto.
Qed.

(** C32: [execute] never removes anything: the domains of the four
    tables and the backend set only grow, and the two output streams
    are only appended to. *)
Theorem execute_monotone stmt s s' :
  inv s -> wf_statement stmt -> execute fs stmt s = Ok (tt, s') -> le s s'.
Proof.
  intros Hinv Hwf Heq. pose proof (execute_spec stmt Hwf s Hinv) as Hs.
  eapply wp_ok in Hs; [|done]. tauto.
Qed.

(** C29: the value of a setter whose vectors have the same length is
    that of the reference definition [setter_value]: the contents of
    the file named by a first literal argument, or the arguments
    concatenated from left to right with every identifier replaced by
    its string variable; the state is unchanged and the only errors
    are the three messages of [setter_value]. *)
Theorem part_value_reference what parts isLiteral isReadFromFile s :
  length parts = length isLiteral ->
  part_value fs what parts isLiteral isReadFromFile s =
  match setter_value fs (strings s) what parts isLiteral isReadFromFile with
  | inl value => Ok (value, s)
  | inr what' => Throw (runtime_error what')
  end.
Proof. apply part_value_setter_value. Qed.

(** C30: a [set_*] or [read_*] statement on a bound variable stores
    the value under the lower-cased backend name in the macro the
    variable names, overwriting an earlier value for that backend and
    leaving every other macro and table as it was. *)
Theorem execute_set varName macroName backend parts isLiteral isReadFromFile
    value s :
  inv s -> varToMacroName s !! varName = Some macroName ->
  length parts = length isLiteral ->
  setter_value fs (strings s) "read_*" parts isLiteral isReadFromFile
    = inl value ->
  exists macro, macros s !! macroName = Some macro /\
    execute fs (SetStatement varName backend parts isLiteral isReadFromFile) s
    = Ok (tt, set_macros
                <[macroName :=
                    Macro.mk (Macro.macroName macro) (Macro.lazy macro)
                      (<[to_lower backend := value]>
                         (Macro.backendValues macro))
                      (Macro.defaultValue macro)]> s).
Proof.
  intros Hinv Hv Hlen Hval. simpl. unfold bind at 1, get.
  edestruct (@lookup_macro_bound unit) as (macro & Hm & ->); [done..|].
  exists macro. split; [done|]. unfold bind at 1.
  by rewrite part_value_setter_value, Hval.
Qed.

(** C34: a setter or [lazy()] on a variable no [macrodef] has bound
    throws [std::out_of_range] from [varToMacroName.at], before it
    evaluates its arguments. *)
Theorem execute_unbound_variable varName backend parts isLiteral
    isReadFromFile s :
  varToMacroName s !! varName = None ->
  execute fs (SetStatement varName backend parts isLiteral isReadFromFile) s
    = Throw (out_of_range "map::at") /\
  execute fs (SetDefaultStatement varName parts isLiteral isReadFromFile) s
    = Throw (out_of_range "map::at") /\
  execute fs (LazyStatement varName) s = Throw (out_of_range "map::at").
Proof.
  intros Hv. simpl. unfold bind at 1 5 9, get.
  by rewrite !lookup_macro_unbound.
Qed.

(** C22: [generate_select] adds the backends it lists to the set; it
    does not replace the set.  The state is otherwise unchanged and an
    [UNKNOWN] entry adds nothing. *)
Theorem generate_select_accumulates backends s :
  execute fs (GenerateSelectStatement backends) s =
  Ok (tt, set_requiredBackends (fun bs => bs ∪ backend_names backends) s).
Proof. apply for_each_select_backend. Qed.

(** C33: an [if] whose condition variable is [TRUE] runs its body in
    place, in the scope of the statements that follow it; one whose
    variable is [FALSE] or was never declared is skipped. *)
Theorem interpret_if conditionVar body rest s :
  interpret fs (IfStatement conditionVar body :: rest) s =
  if bool_decide (bools s !! conditionVar = Some true)
  then interpret fs (body ++ rest) s
  else interpret fs rest s.
Proof.
  unfold interpret. rewrite for_each_cons. simpl.
  unfold bind at 1 2, get. case_bool_decide; [|done].
  by rewrite for_each_app.
Qed.

End WithFiles.

(** *** A whole run *)

Lemma run_spec fs statements :
  Forall wf_statement statements ->
  match run fs statements with
  | Ok s => inv s /\ NoDup (defined statements) /\
            forall m, m ∈ defined statements -> m ∈ dom (get_macros s)
  | Throw e => interp_error e
  | Undefined | OutOfFuel => False
  end.
Proof.
  intros Hwf.
  pose proof (interpret_defined fs statements new Hwf new_inv) as Hs.
  unfold run, exec, wp in *.
  destruct (interpret fs statements new) as [[[] s]|e| |]; try done.
  destruct Hs as (? & _ & ? & Hd). split_and!; [done..|].
  intros m Hm. by apply Hd.
Qed.

Lemma run_throws fs statements e :
  Forall wf_statement statements ->
  run fs statements = Throw e <-> fails_in fs new statements e.
Proof.
  intros Hwf. rewrite <-(interpret_throws fs _ _ _ Hwf new_inv).
  unfold run, exec.
  destruct (interpret fs statements new) as [[[] s]|?| |]; split; congruence.
Qed.

Lemma sample_wf : Forall wf_statement sample.
Proof. repeat constructor; done. Qed.

Lemma sample_state_inv : inv sample_state.
Proof. apply inv_define, new_inv. Qed.

Lemma execute_preserves_inv_witness : inv sample_state.
Proof.
  apply (execute_preserves_inv ∅ (MacroDefStatement "x" "N") new).
  - apply new_inv.
  - done.
  - reflexivity.
Defined.

Lemma execute_monotone_witness : le new sample_state.
Proof.
  apply (execute_monotone ∅ (MacroDefStatement "x" "N") new).
  - apply new_inv.
  - done.
  - reflexivity.
Defined.

Lemma part_value_reference_witness :
  part_value ∅ "read_*" ["a"; "v"] [true; false] false
    (set_strings <["v" := "b"]> new)
  = Ok ("ab"%string, set_strings <["v" := "b"]> new).
Proof.
  rewrite (part_value_reference ∅ "read_*" ["a"; "v"] [true; false] false
             (set_strings <["v" := "b"]> new)); reflexivity.
Defined.

Lemma execute_set_witness :
  exists macro, macros sample_state !! "N"%string = Some macro /\
    execute ∅ (SetStatement "x" "GLSL" ["a"] [true] false) sample_state
    = Ok (tt, set_macros
                <["N"%string :=
                    Macro.mk (Macro.macroName macro) (Macro.lazy macro)
                      (<[to_lower "GLSL" := "a"%string]>
                         (Macro.backendValues macro))
                      (Macro.defaultValue macro)]> sample_state).
Proof.
  apply (execute_set ∅ "x" "N" "GLSL" ["a"] [true] false "a" sample_state).
  - apply sample_state_inv.
  - reflexivity.
  - reflexivity.
  - reflexivity.
Defined.

Lemma execute_unbound_variable_witness :
  execute ∅ (SetStatement "y" "glsl" ["a"] [true] false) sample_state
    = Throw (out_of_range "map::at") /\
  execute ∅ (SetDefaultStatement "y" ["a"] [true] false) sample_state
    = Throw (out_of_range "map::at") /\
  execute ∅ (LazyStatement "y") sample_state = Throw (out_of_range "map::at").
Proof.
  apply (execute_unbound_variable ∅ "y" "glsl" ["a"] [true] false
           sample_state).
  reflexivity.
Defined.

(** C3: the interpreter has no undefined behaviour on the statements
    the parser builds: on a list of well-formed statements [interpret]
    never reads [isLiteral] or [parts] out of bounds, and it returns
    or throws. *)
Theorem run_safe fs statements :
  Forall wf_statement statements ->
  run fs statements <> Undefined /\ run fs statements <> OutOfFuel.
Proof.
  intros Hwf. pose proof (run_spec fs statements Hwf) as Hs.
  split; intros Heq; by rewrite Heq in Hs.
Qed.

Lemma run_safe_witness :
  run ∅ sample <> Undefined /\ run ∅ sample <> OutOfFuel.
Proof. apply run_safe, sample_wf. Defined.

(** C5: the tables a run ends with satisfy the invariant: the macro
    table is keyed by each macro's own name, every bound variable
    names one of its macros, the backend set is within
    {glsl, hlsl, msl, spirv} and every backend key is lower-case. *)
Theorem run_inv fs statements s :
  Forall wf_statement statements -> run fs statements = Ok s -> inv s.
Proof.
  intros Hwf Heq. pose proof (run_spec fs statements Hwf) as Hs.
  rewrite Heq in Hs. tauto.
Qed.

Lemma run_inv_witness :
  inv (set_macros
         <["N" := Macro.mk "N" false {["glsl" := "a"]} ""]> sample_state).
Proof.
  apply (run_inv ∅ sample).
  - apply sample_wf.
  - reflexivity.
Defined.

(** C35: the errors of a run, exactly.  A run throws [e] if and only
    if some statement, at the top or in the body of an [if] whose flag
    is set, is the first to fail, in the state the statements before
    it leave: a [macrodef] of a macro name already in the table
    ("Duplicate macro name"); a setter or [lazy()] on a variable no
    [macrodef] has bound ([std::out_of_range], and [macros.at] never
    adds another); or a setter on a bound variable whose value cannot
    be computed (no literal path, unreadable file, undefined string
    variable). *)
Theorem run_errors fs statements e :
  Forall wf_statement statements ->
  run fs statements = Throw e <-> fails_in fs new statements e.
Proof. apply run_throws. Qed.

Lemma run_errors_witness :
  run ∅ [MacroDefStatement "x" "N"; MacroDefStatement "y" "N"]
    = Throw (runtime_error "Duplicate macro name: N")
  <-> fails_in ∅ new [MacroDefStatement "x" "N"; MacroDefStatement "y" "N"]
        (runtime_error "Duplicate macro name: N").
Proof. apply run_errors. repeat constructor; done. Defined.

(** C7: macro names are unique: in a run that succeeds the top-level
    [macrodef]s name pairwise different macros, each of which is in
    the final table; a second [macrodef] of a name makes the run
    fail. *)
Theorem run_macro_names_distinct fs statements s :
  Forall wf_statement statements -> run fs statements = Ok s ->
  NoDup (defined statements) /\
  forall m, m ∈ defined statements -> m ∈ dom (get_macros s).
Proof.
  intros Hwf Heq. pose proof (run_spec fs statements Hwf) as Hs.
  rewrite Heq in Hs. tauto.
Qed.

Lemma run_macro_names_distinct_witness :
  NoDup (defined sample) /\
  forall m, m ∈ defined sample ->
    m ∈ dom (get_macros
               (set_macros
                  <["N" := Macro.mk "N" false {["glsl" := "a"]} ""]>
                  sample_state)).
Proof.
  apply (run_macro_names_distinct ∅ sample).
  - apply sample_wf.
  - reflexivity.
Defined.

(** [generate_all] followed by [generate_select(GLSL)] leaves all four
    backends requested. *)
Example generate_all_then_select :
  get_required_backends
    <$> run ∅ [GenerateAllStatement; GenerateSelectStatement [GLSL]]
  = Ok all_backends.
Proof. reflexivity. Qed.

(** An [if] on a boolean that was never declared is skipped. *)
Example if_undeclared_skipped :
  bools <$> run ∅ [IfStatement "flag" [BooleanDeclaration "Z" true]]
  = Ok ∅.
Proof. reflexivity. Qed.

(** ** The interface, discharged *)

#[export] Instance run_evaluator fs : Evaluator (run fs).
Proof.
  split; intros statements; [intros Hwf Heq..|intros s Hwf Heq];
    pose proof (run_spec fs statements Hwf) as Hs; rewrite Heq in Hs;
    tauto.
Qed.
