(* ===== verification/Shader.v ===== *)
(** * Shader: the substitution engine of shader_processor.cpp

    [World.t] is what the program acts on outside its own memory: the
    files, by path, and the two output streams as lists of lines.
    Whether a path can be opened for writing is a parameter
    [writable].

    [regex_search] is [std::regex_search] for the one pattern of
    shader_processor.cpp, a percent sign followed by an identifier: the
    leftmost match, the identifier as long as possible.  It is proved
    against [leftmost_match], which spells the character classes of
    the pattern out and does not mention the matcher.  Module
    [ShaderProcessor] holds [process_shader]: [replacement] is the
    choice among the backend value, the default, the lazy name and the
    two warnings; [substitute] is the loop over the matches.

    The reference definition of the loop is [expand] over [segments],
    the template cut into the texts between the matches and the names
    matched; [segments] recurses on the suffix of a match and is
    defined with Equations by well-founded recursion on the length. *)

From Stdlib Require Import Ascii.
From stdpp Require Import base tactics option numbers list strings gmap.
From Equations Require Import Equations.
From Equations.Prop Require Import Logic.
From S2P Require Import Prelude Ast Interp.

#[local] Set Warnings "-clear-no-such-hyp".

(** ** The files and the streams *)

Module World.
Record t : Type := mk {
  files : gmap string string;
  cout : list string;
  cerr : list string
}.

Definition set_files (f : gmap string string -> gmap string string)
  (w : t) : t :=
  mk (f (files w)) (cout w) (cerr w).

Definition set_cout (f : list string -> list string) (w : t) : t :=
  mk (files w) (f (cout w)) (cerr w).

Definition set_cerr (f : list string -> list string) (w : t) : t :=
  mk (files w) (cout w) (f (cerr w)).

(** [std::cout << line << "\n"] and [std::cerr << line << "\n"]. *)
Definition print (line : string) : M t unit :=
  modify (set_cout (fun out => out ++ [line])).

Definition warn (line : string) : M t unit :=
  modify (set_cerr (fun err => err ++ [line])).
End World.

(** ** The pattern: a percent sign, a letter or underscore, then
    letters, digits and underscores *)

Definition name_start (c : ascii) : bool :=
  isalpha c || bool_decide (c = "_"%char).

Definition name_char (c : ascii) : bool :=
  isalnum c || bool_decide (c = "_"%char).

(** The longest prefix of name characters, and what follows it. *)
Fixpoint span_name (s : string) : string * string :=
  match s with
  | String c s' =>
      if name_char c
      then let '(n, r) := span_name s' in (String c n, r)
      else (EmptyString, s)
  | EmptyString => (EmptyString, EmptyString)
  end.

(** [std::smatch]: [match.prefix()], [match[1]] and [match.suffix()]. *)
Record smatch : Type := mk_match {
  prefix : string;
  name : string;
  suffix : string
}.

(** The pattern matches at the head of [s]. *)
Definition match_here (s : string) : bool :=
  match s with
  | String c (String d _) => bool_decide (c = "%"%char) && name_start d
  | _ => false
  end.

Fixpoint regex_search (s : string) : option smatch :=
  match s with
  | EmptyString => None
  | String c s' =>
      if match_here s
      then let '(n, r) := span_name s' in Some (mk_match EmptyString n r)
      else match regex_search s' with
           | Some m => Some (mk_match (String c (prefix m)) (name m) (suffix m))
           | None => None
           end
  end.

(** ** shader_processor.cpp *)

Module ShaderProcessor.

Definition no_definition (macroName backendName : string) : string :=
  "Warning: No definition found for macro %" +:+ macroName +:+
  " for backend " +:+ backendName.

Definition undefined_macro (macroName : string) : string :=
  "Warning: Undefined macro %" +:+ macroName +:+ " found in shader".

(** [m.count(key)] and [m.at(key)]. *)
Definition count {V} (m : gmap string V) (key : string) : bool :=
  bool_decide (key ∈ dom m).

Definition at_ {V} (m : gmap string V) (key : string) : M World.t V :=
  match m !! key with
  | Some v => ret v
  | None => throw (out_of_range "map::at")
  end.

(** What one match adds to [output]. *)
Definition replacement (macros : gmap string Macro.t)
  (backendName macroName : string) : M World.t string :=
  if count macros macroName then
    macro <- at_ macros macroName ;;
    let lowerBackend := map_string tolower backendName in
    if count (Macro.backendValues macro) lowerBackend then
      at_ (Macro.backendValues macro) lowerBackend
    else if negb (bool_decide (Macro.defaultValue macro = ""%string)) then
      ret (Macro.defaultValue macro)
    else if Macro.lazy macro then ret (Macro.macroName macro)
    else
      World.warn (no_definition macroName backendName) ;;
      ret ""%string
  else
    World.warn (undefined_macro macroName) ;;
    ret ""%string.

(** One round of the loop over the matches.  The locals are [output]
    and the text from [searchStart]. *)
Definition substitute_body (macros : gmap string Macro.t)
  (backendName : string) (locals : string * string)
  : M World.t (control (string * string)) :=
  let '(output, searchStart) := locals in
  match regex_search searchStart with
  | Some m =>
      text <- replacement macros backendName (name m) ;;
      ret (Continue (output +:+ prefix m +:+ text, suffix m))
  | None => ret (Break (output, searchStart))
  end.

(** The loop over the matches and the copy of what follows the last
    one. *)
Definition substitute (macros : gmap string Macro.t) (backendName : string)
  (shaderCode : string) : M World.t string :=
  ' (output, rest) <-
    loop (S (String.length shaderCode))
      (substitute_body macros backendName) (""%string, shaderCode) ;;
  ret (output +:+ rest).

Section WithDisk.
Context (writable : string -> bool).

Definition process_shader (inputShaderPath outputPath : string)
  (macros : gmap string Macro.t) (backendName : string) : M World.t unit :=
  w <- get ;;
  match World.files w !! inputShaderPath with
  | None =>
      throw (runtime_error
               ("Failed to open shader file: " +:+ inputShaderPath))
  | Some shaderCode =>
      output <- substitute macros backendName shaderCode ;;
      if writable outputPath then
        modify (World.set_files <[outputPath := output]>)
      else
        throw (runtime_error ("Failed to write to output: " +:+ outputPath))
  end.

End WithDisk.

(** ** Specification vocabulary *)

(** What a name stands for, [None] when the occurrence draws a
    warning. *)
Definition resolve (macros : gmap string Macro.t)
  (backendName macroName : string) : option string :=
  macro ← macros !! macroName;
  match Macro.backendValues macro !! map_string tolower backendName with
  | Some value => Some value
  | None =>
      if bool_decide (Macro.defaultValue macro <> ""%string)
      then Some (Macro.defaultValue macro)
      else if Macro.lazy macro then Some (Macro.macroName macro)
      else None
  end.

(** The warning an unresolved name draws. *)
Definition warning (macros : gmap string Macro.t)
  (backendName macroName : string) : string :=
  match macros !! macroName with
  | Some _ => no_definition macroName backendName
  | None => undefined_macro macroName
  end.

End ShaderProcessor.

(** A template cut at its matches. *)
Inductive segment : Type :=
| Text (text : string)
| Ref (macroName : string).

#[export] Instance segment_eq_dec : EqDecision segment.
Proof. solve_decision. Defined.

(** The template a list of segments is cut from. *)
Fixpoint render (segs : list segment) : string :=
  match segs with
  | [] => ""
  | Text text :: segs' => text +:+ render segs'
  | Ref macroName :: segs' => "%" +:+ macroName +:+ render segs'
  end.

(** The output for a list of segments, and the warnings in order. *)
Fixpoint expand (macros : gmap string Macro.t) (backendName : string)
  (segs : list segment) : string :=
  match segs with
  | [] => ""
  | Text text :: segs' => text +:+ expand macros backendName segs'
  | Ref macroName :: segs' =>
      default ""%string (ShaderProcessor.resolve macros backendName macroName)
      +:+ expand macros backendName segs'
  end.

Fixpoint warnings (macros : gmap string Macro.t) (backendName : string)
  (segs : list segment) : list string :=
  match segs with
  | [] => []
  | Text _ :: segs' => warnings macros backendName segs'
  | Ref macroName :: segs' =>
      match ShaderProcessor.resolve macros backendName macroName with
      | Some _ => warnings macros backendName segs'
      | None =>
          ShaderProcessor.warning macros backendName macroName
          :: warnings macros backendName segs'
      end
  end.

(** [std::cerr] with more lines. *)
Definition add_warnings (lines : list string) (w : World.t) : World.t :=
  World.set_cerr (fun err => err ++ lines) w.

(** A well-formed name: not empty, a letter or underscore first, then
    letters, digits and underscores. *)
Definition is_name (n : string) : bool :=
  match n with
  | String c _ => name_start c && string_forall name_char n
  | EmptyString => false
  end.

(** The rest of [span_name] does not start with a name character. *)
Definition name_ended (s : string) : Prop :=
  match s with
  | String c _ => name_char c = false
  | EmptyString => True
  end.

(** A segment as [regex_search] cuts it: a text has no match inside,
    a name is well formed. *)
Definition segment_ok (seg : segment) : Prop :=
  match seg with
  | Text text => regex_search text = None
  | Ref macroName => is_name macroName = true
  end.

(** *** The pattern, character by character

    What [regex_search] is specified against: the classes of the
    pattern written out, and the match [std::regex_search] returns for
    it, the leftmost one with the longest name. *)

Definition letters : list ascii :=
  String.list_ascii_of_string
    "ABCDEFGHIJKLMNOPQRSTUVWXYZabcdefghijklmnopqrstuvwxyz".

Definition digits : list ascii := String.list_ascii_of_string "0123456789".

(** The classes [A-Za-z_] and [A-Za-z0-9_]. *)
Definition first_class (c : ascii) : Prop :=
  c ∈ letters \/ c = "_"%char.

Definition rest_class (c : ascii) : Prop :=
  c ∈ letters \/ c ∈ digits \/ c = "_"%char.

(** [m] cuts [s] at a percent sign followed by a name of the pattern;
    the name cannot be extended, and no percent sign further left is
    followed by a character that starts a name. *)
Record leftmost_match (s : string) (m : smatch) : Prop := {
  match_text : s = prefix m +:+ String "%" (name m +:+ suffix m);
  match_first : exists c n, name m = String c n /\ first_class c;
  match_rest : Forall rest_class (String.list_ascii_of_string (name m));
  match_longest : forall c r, suffix m = String c r -> ~ rest_class c;
  match_leftmost : forall a d b,
    prefix m +:+ "%" = a +:+ String "%" (String d b) -> ~ first_class d
}.

(** No percent sign of [s] is followed by a character that starts a
    name. *)
Definition no_match (s : string) : Prop :=
  forall a d b, s = a +:+ String "%" (String d b) -> ~ first_class d.

(** The script
    [macrodef x = Macro("FOO"); x.set_glsl("a"); x.lazy();
     SYSTEM -> generate_all();] and the tables it leaves. *)
Definition foo_script : list Statement :=
  [MacroDefStatement "x" "FOO";
   SetStatement "x" "glsl" ["a"] [true] false;
   LazyStatement "x";
   GenerateAllStatement].

Definition foo_tables : Interpreter.t :=
  Interpreter.mk {["FOO" := Macro.mk "FOO" true {["glsl" := "a"]} ""]} ∅
    Interpreter.all_backends {["x" := "FOO"]} ∅ [] [].

(** ** Theorems *)

Import ShaderProcessor.

(** *** [regex_search] *)

Lemma span_name_app s : fst (span_name s) +:+ snd (span_name s) = s.
Proof.
  induction s as [|c s IH]; [done|]. simpl.
  destruct (name_char c); [|done].
  destruct (span_name s) as [n r]. simpl in *. by rewrite string_app_cons, IH.
Qed.

Lemma span_name_length s :
  String.length (snd (span_name s)) <= String.length s.
Proof.
  induction s as [|c s IH]; simpl; [lia|].
  destruct (name_char c); simpl; [|lia].
  destruct (span_name s); simpl in *. lia.
Qed.

Lemma regex_search_suffix s m :
  regex_search s = Some m -> String.length (suffix m) < String.length s.
Proof.
  revert m. induction s as [|c s IH]; intros m; [done|].
  cbn [regex_search]. destruct (match_here _).
  - pose proof (span_name_length s). destruct (span_name s).
    intros [= <-]. simpl in *. lia.
  - destruct (regex_search s) as [m'|]; [|done]. intros [= <-]. simpl.
    specialize (IH m' eq_refl). lia.
Qed.

(** The segments of a template: recursion on the suffix of the first
    match. *)
Equations? segments (s : string) : list segment
  by wf (String.length s) lt :=
  segments s with inspect (regex_search s) => {
    | exist _ (Some m) _ =>
        Text (prefix m) :: Ref (name m) :: segments (suffix m)
    | exist _ None _ => [Text s] }.
Proof. by apply regex_search_suffix. Qed.

(** [segments] unfolded once. *)
Lemma segments_some s m :
  regex_search s = Some m ->
  segments s = Text (prefix m) :: Ref (name m) :: segments (suffix m).
Proof.
  intros Hs. funelim (segments s); congruence.
Qed.

Lemma segments_none s : regex_search s = None -> segments s = [Text s].
Proof.
  intros Hs. funelim (segments s); congruence.
Qed.

Lemma name_start_char c : name_start c = true -> name_char c = true.
Proof.
  unfold name_start, name_char, isalnum.
  intros [Hc|Hc]%orb_true_iff; rewrite Hc; [done|by rewrite orb_true_r].
Qed.

Lemma span_name_forall s : string_forall name_char (fst (span_name s)) = true.
Proof.
  induction s as [|c s IH]; [done|]. simpl.
  destruct (name_char c) eqn:Hc; [|done].
  destruct (span_name s). simpl in *. by rewrite Hc.
Qed.

Lemma span_name_ended s : name_ended (snd (span_name s)).
Proof.
  induction s as [|c s IH]; [done|]. simpl.
  destruct (name_char c) eqn:Hc; [|done]. by destruct (span_name s).
Qed.

Lemma match_here_prefix c p s :
  match_here (String c (p +:+ String "%" s)) = false ->
  match_here (String c p) = false.
Proof.
  destruct p as [|d p]; [done|]. by rewrite string_app_cons.
Qed.

(** What a match is: the text is [prefix], a percent sign, [name] and
    [suffix]; the name is well formed and as long as it can be; there
    is no match further left. *)
Lemma regex_search_spec s m :
  regex_search s = Some m ->
  s = prefix m +:+ String "%" (name m +:+ suffix m)
  /\ is_name (name m) = true
  /\ name_ended (suffix m)
  /\ regex_search (prefix m) = None.
Proof.
  revert m. induction s as [|c s IH]; intros m; [done|].
  cbn [regex_search]. destruct (match_here (String c s)) eqn:Hh.
  - destruct s as [|d s]; [done|].
    apply andb_true_iff in Hh as [->%bool_decide_eq_true Hd].
    pose proof (span_name_app (String d s)) as Happ.
    pose proof (span_name_forall (String d s)) as Hall.
    pose proof (span_name_ended (String d s)) as Hend.
    destruct (span_name (String d s)) as [n r] eqn:Hsp. intros [= <-].
    cbn [prefix name suffix fst snd] in *. split_and!; try done.
    + by rewrite string_app_nil_l, Happ.
    + simpl in Hsp. rewrite (name_start_char d Hd) in Hsp.
      destruct (span_name s). injection Hsp as <- <-. unfold is_name.
      by rewrite Hd.
  - destruct (regex_search s) as [m'|]; [|done]. intros [= <-].
    destruct (IH m' eq_refl) as (Hs & Hn & He & Hp).
    cbn [prefix name suffix]. split_and!; try done.
    + by rewrite string_app_cons, <-Hs.
    + cbn [regex_search]. rewrite Hp.
      rewrite Hs in Hh. by rewrite (match_here_prefix _ _ _ Hh).
Qed.

(** *** [regex_search] against the pattern *)

Lemma name_start_class c : name_start c = true <-> first_class c.
Proof.
  rewrite <-(bool_decide_eq_true (first_class c)).
  assert (name_start c = bool_decide (first_class c)) as ->; [|done].
  by destruct c as [[] [] [] [] [] [] [] []]; vm_compute.
Qed.

Lemma name_char_class c : name_char c = true <-> rest_class c.
Proof.
  rewrite <-(bool_decide_eq_true (rest_class c)).
  assert (name_char c = bool_decide (rest_class c)) as ->; [|done].
  by destruct c as [[] [] [] [] [] [] [] []]; vm_compute.
Qed.

Lemma string_forall_Forall p s :
  string_forall p s = true <->
  Forall (fun c => p c = true) (String.list_ascii_of_string s).
Proof.
  induction s as [|c s IH]; simpl; [by split; [constructor|]|].
  by rewrite andb_true_iff, Forall_cons, IH.
Qed.

(** A text without a match has no percent sign before a character
    that starts a name. *)
Lemma regex_search_none s : regex_search s = None -> no_match s.
Proof.
  induction s as [|c s IH]; intros Hs [|x a] d b Heq;
    rewrite ?string_app_nil_l, ?string_app_cons in Heq; try done;
    cbn [regex_search] in Hs;
    destruct (match_here (String c s)) eqn:Hh;
    try (by destruct (span_name s)); injection Heq as -> ->.
  - rewrite <-name_start_class. simpl in Hh. by rewrite Hh.
  - destruct (regex_search (a +:+ _)) eqn:Hr; [done|]. by eapply IH.
Qed.

(** No match starts further left than the one returned. *)
Lemma regex_search_leftmost s m a d b :
  regex_search s = Some m ->
  prefix m +:+ "%" = a +:+ String "%" (String d b) -> ~ first_class d.
Proof.
  revert m a. induction s as [|c s IH]; intros m a; [done|].
  cbn [regex_search]. destruct (match_here (String c s)) eqn:Hh.
  - destruct (span_name s). intros [= <-]. simpl.
    by destruct a as [|? [|? ?]].
  - destruct (regex_search s) as [m'|] eqn:Hr; [|done]. intros [= <-].
    cbn [prefix]. rewrite string_app_cons.
    destruct a as [|x a]; rewrite ?string_app_nil_l, ?string_app_cons;
      intros [= -> Heq]; [|by eapply IH].
    apply regex_search_spec in Hr as (Hs & _). rewrite Hs in Hh.
    rewrite <-name_start_class.
    change (String "%" (name m' +:+ suffix m'))
      with ("%" +:+ (name m' +:+ suffix m')) in Hh.
    rewrite <-string_app_assoc, Heq, string_app_cons in Hh.
    simpl in Hh. by rewrite Hh.
Qed.

(** [span_name] on a name followed by a character that ends it. *)
Lemma span_name_known n r :
  string_forall name_char n = true -> name_ended r ->
  span_name (n +:+ r) = (n, r).
Proof.
  intros Hn Hr. induction n as [|c n IH].
  - rewrite string_app_nil_l. destruct r as [|c r]; [done|].
    simpl in *. by rewrite Hr.
  - rewrite string_app_cons. simpl in *.
    apply andb_true_iff in Hn as [-> Hn]. by rewrite (IH Hn).
Qed.

(** The match is determined by the four conditions. *)
Lemma regex_search_complete p c n r :
  name_start c = true -> string_forall name_char n = true ->
  name_ended r ->
  (forall a d b, p +:+ "%" = a +:+ String "%" (String d b) ->
                 name_start d = false) ->
  regex_search (p +:+ String "%" (String c n +:+ r))
  = Some (mk_match p (String c n) r).
Proof.
  intros Hc Hn Hr. induction p as [|x p IH]; intros Hleft.
  - rewrite string_app_nil_l, string_app_cons. cbn [regex_search match_here].
    rewrite Hc. simpl andb. cbv iota.
    rewrite <-string_app_cons, span_name_known; [done| |done].
    simpl. by rewrite (name_start_char _ Hc).
  - rewrite string_app_cons. cbn [regex_search].
    rewrite IH; [|intros a d b Heq; apply (Hleft (String x a) d b);
                  by rewrite !string_app_cons, Heq].
    destruct (match_here _) eqn:Hh; [|done].
    destruct p as [|y p]; rewrite ?string_app_nil_l, ?string_app_cons in Hh;
      apply andb_true_iff in Hh as [->%bool_decide_eq_true Hd].
    + done.
    + by rewrite (Hleft ""%string y (p +:+ "%")) in Hd.
Qed.

Lemma regex_search_sound s m : regex_search s = Some m -> leftmost_match s m.
Proof.
  intros Hs. pose proof (regex_search_spec _ _ Hs) as (Ht & Hn & He & _).
  unfold is_name in Hn. destruct (name m) as [|c n] eqn:Hname; [done|].
  apply andb_true_iff in Hn as [Hc Hn]. split.
  - by rewrite Hname.
  - exists c, n. by rewrite <-name_start_class.
  - rewrite Hname. apply string_forall_Forall in Hn.
    eapply Forall_impl; [done|]. intros d. apply name_char_class.
  - intros d r Hr. rewrite Hr in He. rewrite <-name_char_class.
    simpl in He. by rewrite He.
  - intros a d b. by apply (regex_search_leftmost s).
Qed.

Lemma leftmost_match_search s m :
  leftmost_match s m -> regex_search s = Some m.
Proof.
  destruct m as [p n r]. intros [Ht (c & n' & Hname & Hc) Hn He Hl].
  cbn [prefix name suffix] in *. subst s n. apply regex_search_complete.
  - by apply name_start_class.
  - apply string_forall_Forall. apply Forall_cons in Hn as [_ Hn].
    eapply Forall_impl; [done|]. intros d. apply name_char_class.
  - destruct r as [|d r]; [done|]. simpl.
    apply not_true_is_false. rewrite name_char_class. by eapply He.
  - intros a d b Heq. apply not_true_is_false. rewrite name_start_class.
    by eapply Hl.
Qed.

(** A text without a percent sign has no match. *)
Lemma regex_search_no_percent s :
  string_forall (fun c => negb (bool_decide (c = "%"%char))) s = true ->
  regex_search s = None.
Proof.
  induction s as [|c s IH]; [done|]. simpl.
  intros [Hc Hs]%andb_true_iff. rewrite (IH Hs).
  apply negb_true_iff in Hc. rewrite Hc. by destruct s.
Qed.

(** *** [segments] *)

(** Induction along the matches of a template. *)
Lemma segments_induction (P : string -> list segment -> Prop) :
  (forall s, regex_search s = None -> P s [Text s]) ->
  (forall s m, regex_search s = Some m ->
     P (suffix m) (segments (suffix m)) ->
     P s (Text (prefix m) :: Ref (name m) :: segments (suffix m))) ->
  forall s, P s (segments s).
Proof.
  intros Hnone Hsome. apply (segments_elim P); intros; eauto.
Qed.

Lemma render_segments s : render (segments s) = s.
Proof.
  apply (segments_induction (fun s segs => render segs = s)); clear s.
  - intros s _. apply string_app_nil_r.
  - intros s m (Hs & _)%regex_search_spec IH. simpl.
    by rewrite IH, Hs at 1.
Qed.

Lemma segments_ok s : Forall segment_ok (segments s).
Proof.
  apply (segments_induction (fun _ segs => Forall segment_ok segs)); clear s.
  - by repeat constructor.
  - intros s m (_ & Hn & _ & Hp)%regex_search_spec IH.
    by repeat constructor.
Qed.

(** *** [replacement] and the loop *)

Lemma add_warnings_nil w : add_warnings [] w = w.
Proof. destruct w. unfold add_warnings, World.set_cerr. simpl. by rewrite app_nil_r. Qed.

Lemma add_warnings_app l1 l2 w :
  add_warnings l2 (add_warnings l1 w) = add_warnings (l1 ++ l2) w.
Proof. unfold add_warnings, World.set_cerr. simpl. by rewrite app_assoc. Qed.

(** [count] says whether [at_] finds the key. *)
Lemma count_some {V} (m : gmap string V) key v :
  m !! key = Some v -> count m key = true /\ at_ m key = ret v.
Proof.
  intros Hm. unfold count, at_. rewrite Hm. split; [|done].
  apply bool_decide_eq_true, elem_of_dom. by eexists.
Qed.

Lemma count_none {V} (m : gmap string V) key :
  m !! key = None -> count m key = false.
Proof. intros Hm. by apply bool_decide_eq_false, not_elem_of_dom. Qed.

Lemma replacement_spec macros backendName macroName w :
  replacement macros backendName macroName w =
  Ok (default ""%string (resolve macros backendName macroName),
      add_warnings
        (match resolve macros backendName macroName with
         | Some _ => []
         | None => [warning macros backendName macroName]
         end) w).
Proof.
  unfold replacement, resolve, warning.
  destruct (macros !! macroName) as [macro|] eqn:Hm; simpl;
    [|by rewrite (count_none _ _ Hm)].
  destruct (count_some _ _ _ Hm) as [-> ->]. unfold bind at 1. cbn [ret].
  destruct (Macro.backendValues macro !! _) as [value|] eqn:Hb; simpl.
  { destruct (count_some _ _ _ Hb) as [-> ->]. by rewrite add_warnings_nil. }
  rewrite (count_none _ _ Hb).
  case_bool_decide; case_bool_decide; simpl; try done;
    [|by rewrite add_warnings_nil].
  destruct (Macro.lazy macro); [by rewrite add_warnings_nil|done].
Qed.

Lemma substitute_loop_spec macros backendName s :
  forall output w fuel,
    String.length s < fuel ->
    (' (output', rest) <- loop fuel (substitute_body macros backendName)
                            (output, s) ;;
     ret (output' +:+ rest)) w =
    Ok (output +:+ expand macros backendName (segments s),
        add_warnings (warnings macros backendName (segments s)) w).
Proof.
  apply (segments_induction
    (fun s segs => forall output w fuel,
       String.length s < fuel ->
       (' (output', rest) <- loop fuel (substitute_body macros backendName)
                               (output, s) ;;
        ret (output' +:+ rest)) w =
       Ok (output +:+ expand macros backendName segs,
           add_warnings (warnings macros backendName segs) w))); clear s.
  - intros s Hnone output w [|fuel] Hlt; [lia|].
    rewrite bind_loop_S. unfold substitute_body at 1. rewrite Hnone. simpl.
    by rewrite string_app_nil_r, add_warnings_nil.
  - intros s m Hsome IH output w [|fuel] Hlt; [lia|].
    pose proof (regex_search_suffix _ _ Hsome) as Hsuf.
    rewrite bind_loop_S. unfold substitute_body at 1. rewrite Hsome.
    unfold bind at 1. rewrite replacement_spec. cbn [ret].
    rewrite IH by lia. cbn [expand warnings].
    rewrite !string_app_assoc, add_warnings_app.
    by destruct (resolve macros backendName (name m)).
Qed.

Lemma substitute_spec macros backendName shaderCode w :
  substitute macros backendName shaderCode w =
  Ok (expand macros backendName (segments shaderCode),
      add_warnings (warnings macros backendName (segments shaderCode)) w).
Proof.
  pose proof (substitute_loop_spec macros backendName shaderCode ""%string w
                (S (String.length shaderCode))) as Hs.
  rewrite string_app_nil_l in Hs. rewrite <-Hs by lia. reflexivity.
Qed.

(** *** [process_shader] *)

Section WithDisk.
Context (writable : string -> bool).

Lemma process_shader_spec inputShaderPath outputPath macros backendName w :
  process_shader writable inputShaderPath outputPath macros backendName w =
  match World.files w !! inputShaderPath with
  | None =>
      Throw (runtime_error
               ("Failed to open shader file: " +:+ inputShaderPath))
  | Some shaderCode =>
      let segs := segments shaderCode in
      if writable outputPath then
        Ok (tt, World.set_files
                  <[outputPath := expand macros backendName segs]>
                  (add_warnings (warnings macros backendName segs) w))
      else Throw (runtime_error ("Failed to write to output: " +:+ outputPath))
  end.
Proof.
  unfold process_shader, bind at 1, get.
  destruct (World.files w !! inputShaderPath) as [shaderCode|]; [|done].
  unfold bind. rewrite substitute_spec. simpl.
  by destruct (writable outputPath).
Qed.

End WithDisk.

(** *** The macro table of the interpreter *)

Lemma all_backends_lower b :
  b ∈ Interpreter.all_backends -> map_string tolower b = b.
Proof.
  unfold Interpreter.all_backends.
  rewrite !elem_of_union, !elem_of_singleton.
  by intros [[[-> | ->] | ->] | ->].
Qed.

(** What a name of the template stands for, for a backend the script
    requested and a macro of its table. *)
Lemma resolve_inv s backendName macroName macro :
  Interpreter.inv s -> backendName ∈ Interpreter.requiredBackends s ->
  Interpreter.macros s !! macroName = Some macro ->
  resolve (Interpreter.macros s) backendName macroName =
  match Macro.backendValues macro !! backendName with
  | Some value => Some value
  | None =>
      if bool_decide (Macro.defaultValue macro <> ""%string)
      then Some (Macro.defaultValue macro)
      else if Macro.lazy macro then Some macroName
      else None
  end.
Proof.
  intros Hinv Hb Hm. unfold resolve. rewrite Hm. simpl.
  rewrite all_backends_lower by by apply (Interpreter.inv_backends _ Hinv).
  by rewrite (Interpreter.inv_name _ Hinv _ _ Hm).
Qed.

(** *** Claims *)

(** C8: [process_shader] computes the reference definition: it fails
    when the template cannot be opened; otherwise it cuts the template
    at the matches of the pattern, replaces every name by what
    [resolve] gives (the value for the lower-cased backend, else the
    non-empty default, else the macro's name if it is lazy, else
    nothing), appends one warning per unresolved name to [std::cerr],
    and writes the result to the output path, or fails when that
    cannot be opened, the warnings already written.  No other file
    changes. *)
Theorem process_shader_reference writable inputShaderPath outputPath macros
    backendName w :
  process_shader writable inputShaderPath outputPath macros backendName w =
  match World.files w !! inputShaderPath with
  | None =>
      Throw (runtime_error
               ("Failed to open shader file: " +:+ inputShaderPath))
  | Some shaderCode =>
      let segs := segments shaderCode in
      if writable outputPath then
        Ok (tt, World.set_files
                  <[outputPath := expand macros backendName segs]>
                  (add_warnings (warnings macros backendName segs) w))
      else Throw (runtime_error ("Failed to write to output: " +:+ outputPath))
  end.
Proof. apply process_shader_spec. Qed.

(** C10: the loop of [process_shader] terminates within the fuel
    [S (length shaderCode)] on every template, and [macros.at] is never
    called on a name that is not in the table. *)
Theorem process_shader_total writable inputShaderPath outputPath macros
    backendName w :
  process_shader writable inputShaderPath outputPath macros backendName w
    <> Undefined /\
  process_shader writable inputShaderPath outputPath macros backendName w
    <> OutOfFuel.
Proof.
  rewrite process_shader_spec.
  destruct (World.files w !! inputShaderPath); [|done].
  simpl. by destruct (writable outputPath).
Qed.

(** C26: [regex_search] is the search for the pattern of
    shader_processor.cpp, with the classes A-Z, a-z, 0-9 and the
    underscore written out: what it returns cuts the text at a percent
    sign followed by a letter or an underscore, then letters, digits
    and underscores as far as they go; no percent sign further left is
    followed by a letter or an underscore; these conditions determine
    the match; and it returns nothing only when no percent sign of the
    text is followed by a letter or an underscore. *)
Theorem regex_search_pattern s :
  match regex_search s with
  | Some m => leftmost_match s m /\ forall m', leftmost_match s m' -> m' = m
  | None => no_match s
  end.
Proof.
  destruct (regex_search s) as [m|] eqn:Hs; [|by apply regex_search_none].
  split; [by apply regex_search_sound|].
  intros m' Hm'%leftmost_match_search. congruence.
Qed.

(** C27: a template without a percent sign is copied to the output
    unchanged, and nothing is written to [std::cerr]. *)
Theorem process_shader_no_percent writable inputShaderPath outputPath macros
    backendName shaderCode w :
  World.files w !! inputShaderPath = Some shaderCode ->
  string_forall (fun c => negb (bool_decide (c = "%"%char))) shaderCode
    = true ->
  writable outputPath = true ->
  process_shader writable inputShaderPath outputPath macros backendName w =
  Ok (tt, World.set_files <[outputPath := shaderCode]> w).
Proof.
  intros Hin Hno Hw. rewrite process_shader_spec, Hin. simpl. rewrite Hw.
  rewrite (segments_none _ (regex_search_no_percent _ Hno)). simpl.
  by rewrite string_app_nil_r, add_warnings_nil.
Qed.

Lemma process_shader_no_percent_witness :
  process_shader (fun _ => true) "in" "out" ∅ "glsl"
    (World.mk {["in" := "void main() {}"]} [] []) =
  Ok (tt, World.set_files <["out" := "void main() {}"]>
            (World.mk {["in" := "void main() {}"]} [] [])).
Proof.
  apply (process_shader_no_percent (fun _ => true) "in" "out" ∅ "glsl"
           "void main() {}"); reflexivity.
Defined.

(** C20: the interpreter and the shader processor agree on the macro
    table: for the tables a run of the interpreter ends with, a backend
    it requested and a name of its table, [replacement] returns the
    value a setter stored for that backend, else the non-empty default,
    else, if the macro is lazy, the name as the template writes it,
    and warns only when it returns nothing; it never throws. *)
Theorem replacement_requested fs statements s backendName macroName macro w :
  Forall wf_statement statements ->
  run fs statements = Ok s ->
  backendName ∈ Interpreter.get_required_backends s ->
  Interpreter.get_macros s !! macroName = Some macro ->
  replacement (Interpreter.get_macros s) backendName macroName w =
  match Macro.backendValues macro !! backendName with
  | Some value => Ok (value, w)
  | None =>
      if bool_decide (Macro.defaultValue macro <> ""%string)
      then Ok (Macro.defaultValue macro, w)
      else if Macro.lazy macro then Ok (macroName, w)
      else Ok (""%string,
               add_warnings [no_definition macroName backendName] w)
  end.
Proof.
  intros Hwf Hrun Hb Hm. pose proof (run_spec fs statements Hwf) as Hs.
  rewrite Hrun in Hs. destruct Hs as [Hinv _].
  rewrite replacement_spec.
  unfold Interpreter.get_macros, Interpreter.get_required_backends in *.
  rewrite (resolve_inv _ _ _ _ Hinv Hb Hm). unfold warning. rewrite Hm.
  destruct (Macro.backendValues macro !! backendName);
    [by rewrite add_warnings_nil|].
  case_bool_decide; [by rewrite add_warnings_nil|].
  by destruct (Macro.lazy macro); rewrite ?add_warnings_nil.
Qed.

Lemma replacement_requested_witness :
  replacement (Interpreter.get_macros foo_tables) "hlsl" "FOO"
    (World.mk ∅ [] [])
  = Ok ("FOO"%string, World.mk ∅ [] []).
Proof.
  rewrite (replacement_requested ∅ foo_script foo_tables "hlsl" "FOO"
             (Macro.mk "FOO" true {["glsl" := "a"]} "")).
  - reflexivity.
  - repeat constructor; simpl; done.
  - vm_compute. reflexivity.
  - unfold foo_tables, Interpreter.all_backends. simpl. set_solver.
  - reflexivity.
Defined.

(** ** The cases of the specification's test list *)

(** The three tiers: the GLSL value, the lazy name for HLSL, and the
    default before the lazy name. *)
Example expand_value :
  expand (Interpreter.macros foo_tables) "glsl" (segments "x = %FOO;")
  = "x = a;"%string.
Proof. vm_compute. reflexivity. Qed.

Example expand_lazy :
  expand (Interpreter.macros foo_tables) "hlsl" (segments "x = %FOO;")
  = "x = FOO;"%string.
Proof. vm_compute. reflexivity. Qed.

Example expand_default :
  expand {["FOO" := Macro.mk "FOO" true {["glsl" := "a"]} "d"]} "hlsl"
    (segments "x = %FOO;")
  = "x = d;"%string.
Proof. vm_compute. reflexivity. Qed.

(** The pattern at its edges: a digit does not start a name; of two
    percent signs the second starts the match; the name is as long as
    it can be; a percent sign before a space is text. *)
Example regex_search_digit : regex_search "%1A" = None.
Proof. reflexivity. Qed.

Example regex_search_double :
  regex_search "%%A" = Some (mk_match "%" "A" "").
Proof. reflexivity. Qed.

Example regex_search_greedy :
  regex_search "a%FOO_1.x" = Some (mk_match "a" "FOO_1" ".x").
Proof. reflexivity. Qed.

Example regex_search_percent : regex_search "100% done" = None.
Proof. reflexivity. Qed.

(** A name that is not resolved is removed from the output with its
    percent sign, and draws a warning. *)
Example process_shader_unresolved :
  process_shader (fun _ => true) "in" "out" ∅ "glsl"
    (World.mk {["in" := "a %FOO b"]} [] []) =
  Ok (tt, World.mk {["in" := "a %FOO b"; "out" := "a  b"]} []
            ["Warning: Undefined macro %FOO found in shader"]).
Proof. vm_compute. reflexivity. Qed.
