(* ===== verification/Driver.v ===== *)
(** * Driver: main.cpp

    [compile] is the middle of [main]: the layout script is scanned,
    parsed and interpreted, an exception of any stage ending the
    program.  [main] is the whole of it: the argument check, the
    layout file read into [source], [compile], and one call of
    [process_shader] for each requested backend, in the order of the
    [std::set].  Its state is [World.t]; the interpreter reads the
    files as they are when the program starts.

    The theorems about the three stages together are proved against
    the interfaces [Scanner], [StatementParser] and [Evaluator] of the
    stages. *)

From stdpp Require Import base tactics option numbers list strings gmap
  sorting.
From S2P Require Import Prelude Lexer Lexeme Ast Syntax Unparse Frontend.
From S2P Require Import Interp Shader.

#[local] Set Warnings "-clear-no-such-hyp".

(** [tokenizer.tokenize()], [parser.parse()] and
    [interpreter.interpret(statements)] in sequence. *)
Definition compile (fs : gmap string string) (source : string)
  : result Interpreter.t :=
  match lex source with
  | Ok tokens =>
      match parse_tokens tokens with
      | Ok statements => run fs statements
      | Throw e => Throw e
      | Undefined => Undefined
      | OutOfFuel => OutOfFuel
      end
  | Throw e => Throw e
  | Undefined => Undefined
  | OutOfFuel => OutOfFuel
  end.

(** [const auto& backend : backends]: a [std::set<std::string>] is
    iterated in the order of [std::string::compare]. *)
Definition string_le (x y : string) : Prop := String.leb x y = true.

#[export] Instance string_le_dec x y : Decision (string_le x y).
Proof. unfold string_le. apply _. Defined.

Definition set_order (bs : gset string) : list string :=
  merge_sort string_le (elements bs).

(** The four backends in that order. *)
Definition backend_order : list string :=
  ["glsl"; "hlsl"; "msl"; "spirv"]%string.

Definition usage : string :=
  "Usage: slayoutc <layout.slayout> <input.shader> <output_dir>".

(** [std::ifstream file(path)] read to its end with
    [std::istreambuf_iterator]: the contents, or nothing when the file
    cannot be opened. *)
Definition read_all (w : World.t) (path : string) : string :=
  default ""%string (World.files w !! path).

Definition output_path (outputDir backend : string) : string :=
  outputDir +:+ "/shader." +:+ backend.

(** What the interpreter printed, on the streams of the program. *)
Definition flush (interpreter : Interpreter.t) (w : World.t) : World.t :=
  World.mk (World.files w)
    (World.cout w ++ Interpreter.cout interpreter)
    (World.cerr w ++ Interpreter.cerr interpreter).

Section WithDisk.
Context (writable : string -> bool).

(** One round of the loop over the backends. *)
Definition generate (shaderFile outputDir : string)
  (macros : gmap string Macro.t) (backend : string) : M World.t unit :=
  let outputPath := output_path outputDir backend in
  ShaderProcessor.process_shader writable shaderFile outputPath macros
    backend ;;
  World.print ("Generated: " +:+ outputPath).

(** [main], from [argv] to the exit status; an exception that leaves
    [main] is the [Throw] of the result. *)
Definition main (argv : list string) : M World.t Z :=
  match argv with
  | _ :: slayoutFile :: shaderFile :: outputDir :: _ =>
      w <- get ;;
      let source := read_all w slayoutFile in
      match compile (World.files w) source with
      | Ok interpreter =>
          modify (flush interpreter) ;;
          let macros := Interpreter.get_macros interpreter in
          let backends := Interpreter.get_required_backends interpreter in
          for_each (generate shaderFile outputDir macros)
            (set_order backends) ;;
          ret 0%Z
      | Throw e => throw e
      | Undefined => undefined
      | OutOfFuel => out_of_fuel
      end
  | _ =>
      World.warn usage ;;
      ret 1%Z
  end.

End WithDisk.

(** Three stages in sequence. *)
Definition pipeline (scan : string -> result (list Token.t))
  (parser : list Token.t -> result (list Statement))
  (evaluate : list Statement -> result Interpreter.t) (src : string)
  : result Interpreter.t :=
  match frontend scan parser src with
  | Ok statements => evaluate statements
  | Throw e => Throw e
  | Undefined => Undefined
  | OutOfFuel => OutOfFuel
  end.

(** ** Specification vocabulary *)

(** The two errors of the shader processor. *)
Definition shader_error (e : exception) : Prop :=
  exists path,
    e = runtime_error ("Failed to open shader file: " +:+ path)
    \/ e = runtime_error ("Failed to write to output: " +:+ path).

(** What the program does for one backend when it reads the template
    [shaderCode]: the warnings, the output file, the line on
    [std::cout]. *)
Definition emit (outputDir : string) (macros : gmap string Macro.t)
  (shaderCode : string) (w : World.t) (backend : string) : World.t :=
  let segs := segments shaderCode in
  World.set_cout
    (fun out => out ++ ["Generated: " +:+ output_path outputDir backend])
    (World.set_files
       <[output_path outputDir backend := expand macros backend segs]>
       (add_warnings (warnings macros backend segs) w)).

(** The script of the round trip: the macro FOO with a GLSL value and
    [lazy()], for GLSL and HLSL. *)
Definition foo_layout : string :=
  "macrodef x = Macro(" +:+ quoted "FOO" +:+ "); " +:+
  "x.set_glsl(" +:+ quoted "a" +:+ "); x.lazy(); " +:+
  "SYSTEM -> generate_select(GLSL, HLSL);".

(** ** Theorems *)

(** [pipeline] on three stages known by their interfaces. *)
Section Pipeline.
Context (scan : string -> result (list Token.t)) `{!Scanner scan}.
Context (parser : list Token.t -> result (list Statement))
  `{!StatementParser parser}.
Context (evaluate : list Statement -> result Interpreter.t)
  `{!Evaluator evaluate}.

Lemma pipeline_total src :
  pipeline scan parser evaluate src <> Undefined /\
  pipeline scan parser evaluate src <> OutOfFuel.
Proof.
  unfold pipeline.
  destruct (frontend_total scan parser src) as [Hd Ht].
  destruct (frontend scan parser src) as [statements| | |] eqn:Hf; [|done..].
  apply frontend_wf in Hf; [|done..].
  split; [by apply evaluate_defined|by apply evaluate_terminates].
Qed.

Lemma pipeline_inv src s :
  pipeline scan parser evaluate src = Ok s -> Interpreter.inv s.
Proof.
  unfold pipeline.
  destruct (frontend scan parser src) as [statements| | |] eqn:Hf; [|done..].
  apply frontend_wf in Hf; [|done..]. by apply evaluate_inv.
Qed.

End Pipeline.

Lemma compile_pipeline fs source :
  compile fs source = pipeline lex parse_tokens (run fs) source.
Proof. unfold compile, pipeline, frontend. by destruct (lex source). Qed.

Lemma compile_parse_source fs source :
  compile fs source =
  match parse_source source with
  | Ok statements => run fs statements
  | Throw e => Throw e
  | Undefined => Undefined
  | OutOfFuel => OutOfFuel
  end.
Proof. unfold compile, parse_source. by destruct (lex source). Qed.

Lemma compile_spec fs source :
  match compile fs source with
  | Ok s => Interpreter.inv s
  | Throw e =>
      lexical_error e \/ Parser.parse_error e \/ Interpreter.interp_error e
  | Undefined | OutOfFuel => False
  end.
Proof.
  unfold compile. pose proof (lex_spec source) as Hl.
  destruct (lex source) as [tokens|e| |] eqn:Hlex; try done; [|by left].
  pose proof (parse_tokens_spec tokens (scan_wf _ _ Hlex)) as Hp.
  destruct (parse_tokens tokens) as [statements|e| |]; try done;
    [|by right; left].
  destruct Hp as [Hwf _]. pose proof (run_spec fs statements Hwf) as Hr.
  destruct (run fs statements); try done; [tauto|by right; right].
Qed.

(** C16: the scanner, the parser and the interpreter in sequence have
    no undefined behaviour and terminate on every layout script and
    every file system: no index leaves the source text, the token
    vector or the argument vectors of a setter, and no loop runs out of
    the fuel its model grants it. *)
Theorem compile_total fs source :
  compile fs source <> Undefined /\ compile fs source <> OutOfFuel.
Proof. rewrite compile_pipeline. apply pipeline_total; apply _. Qed.

(** C18: the tables main.cpp hands to the shader processor satisfy the
    interpreter's invariant, whatever the script: macros are keyed by
    their own names, every bound variable names a macro of the table,
    the requested backends are among glsl, hlsl, msl and spirv, and
    all backend keys are lower-case. *)
Theorem compile_inv fs source s :
  compile fs source = Ok s -> Interpreter.inv s.
Proof. rewrite compile_pipeline. apply pipeline_inv; apply _. Qed.

Lemma compile_inv_witness :
  Interpreter.inv
    (Interpreter.set_macros <["N" := Macro.new "N"]>
       (Interpreter.set_varToMacroName <["x" := "N"]> Interpreter.new)).
Proof.
  apply (compile_inv ∅ ("macrodef x = Macro(" +:+ quoted "N" +:+ ");")).
  vm_compute. reflexivity.
Defined.

(** C14: the front end is transparent to a program that can be written
    out: compiling the [script] of statements that can be written and
    spelled is running the interpreter on the statements themselves,
    on every file system. *)
Theorem compile_script fs statements :
  Forall scriptable statements ->
  compile fs (script statements) = run fs statements.
Proof.
  intros Hs. by rewrite compile_parse_source, (parse_source_script _ Hs).
Qed.

Lemma compile_script_witness :
  compile ∅
    (script [MacroDefStatement "x" "TEX";
             SetStatement "x" "glsl" ["sampler2D"] [true] false;
             GenerateAllStatement])
  = run ∅ [MacroDefStatement "x" "TEX";
           SetStatement "x" "glsl" ["sampler2D"] [true] false;
           GenerateAllStatement].
Proof.
  apply compile_script.
  repeat apply Forall_cons_2; [..|apply Forall_nil_2];
    (split; [repeat constructor; simpl; done|]);
    apply (bool_decide_unpack _); by vm_compute.
Defined.

(** *** The loop over the backends *)

Lemma subset_backend_order (bs : gset string) :
  bs ⊆ Interpreter.all_backends ->
  bs = list_to_set (filter (.∈ bs) backend_order).
Proof.
  intros Hsub. apply set_eq. intros b.
  rewrite elem_of_list_to_set, list_elem_of_filter. split; [|tauto].
  intros Hb. split; [done|]. apply Hsub in Hb.
  unfold Interpreter.all_backends, backend_order in *. set_solver.
Qed.

(** The requested backends are visited in the order glsl, hlsl, msl,
    spirv. *)
Lemma set_order_backends (bs : gset string) :
  bs ⊆ Interpreter.all_backends ->
  set_order bs = filter (.∈ bs) backend_order.
Proof.
  intros Hsub. rewrite (subset_backend_order bs Hsub) at 1.
  unfold backend_order. rewrite !filter_cons, filter_nil.
  repeat case_decide; vm_compute; reflexivity.
Qed.

(** No backend is visited only when none was requested. *)
Lemma set_order_empty (bs : gset string) : set_order bs = [] <-> bs = ∅.
Proof.
  unfold set_order. split; [|by intros ->].
  intros Heq. apply leibniz_equiv, elements_empty_inv.
  pose proof (merge_sort_Permutation string_le (elements bs)) as Hp.
  rewrite Heq in Hp. by apply Permutation_nil in Hp as ->.
Qed.

Section WithDisk.
Context (writable : string -> bool).

Lemma generate_spec shaderFile outputDir macros backend w :
  generate writable shaderFile outputDir macros backend w =
  match World.files w !! shaderFile with
  | None => Throw (runtime_error ("Failed to open shader file: " +:+ shaderFile))
  | Some shaderCode =>
      if writable (output_path outputDir backend)
      then Ok (tt, emit outputDir macros shaderCode w backend)
      else Throw (runtime_error ("Failed to write to output: "
                                 +:+ output_path outputDir backend))
  end.
Proof.
  unfold generate, bind. rewrite process_shader_spec.
  destruct (World.files w !! shaderFile); [|done]. simpl.
  by destruct (writable _).
Qed.

Lemma wp_generate shaderFile outputDir macros backend w :
  wp (generate writable shaderFile outputDir macros backend) w
     (fun _ _ => True) shader_error.
Proof.
  unfold wp. rewrite generate_spec.
  destruct (World.files w !! shaderFile); [|by eexists; left].
  destruct (writable _); [done|by eexists; right].
Qed.

Lemma emit_files outputDir macros shaderCode w backend path :
  path <> output_path outputDir backend ->
  World.files (emit outputDir macros shaderCode w backend) !! path =
  World.files w !! path.
Proof. intros Hne. unfold emit. simpl. by rewrite lookup_insert_ne. Qed.

(** The loop when the template is none of the files it writes. *)
Lemma for_each_generate shaderFile outputDir macros shaderCode backends :
  forall w,
    World.files w !! shaderFile = Some shaderCode ->
    Forall (fun b => shaderFile <> output_path outputDir b
                     /\ writable (output_path outputDir b) = true)
      backends ->
    for_each (generate writable shaderFile outputDir macros) backends w =
    Ok (tt, foldl (emit outputDir macros shaderCode) w backends).
Proof.
  induction backends as [|b backends IH]; intros w Hin Hall; [done|].
  apply Forall_cons in Hall as [[Hne Hw] Hall].
  rewrite for_each_cons. unfold bind. rewrite generate_spec, Hin, Hw.
  simpl. apply IH; [|done]. by rewrite emit_files.
Qed.

End WithDisk.

(** *** [main] *)

Lemma flush_new w : flush Interpreter.new w = w.
Proof. destruct w. unfold flush. simpl. by rewrite !app_nil_r. Qed.

(** [main] in the calculus: it returns 0 or 1, or throws one of the
    errors of the four components. *)
Lemma wp_main writable argv w :
  wp (main writable argv) w (fun status _ => status = 0%Z \/ status = 1%Z)
     (fun e => lexical_error e \/ Parser.parse_error e
               \/ Interpreter.interp_error e \/ shader_error e).
Proof.
  unfold main.
  destruct argv as [|? [|slayoutFile [|shaderFile [|outputDir ?]]]];
    try (apply wp_bind, wp_modify, wp_ret; by right).
  apply wp_bind, wp_get.
  pose proof (compile_spec (World.files w) (read_all w slayoutFile)) as Hc.
  destruct (compile _ _) as [interpreter|e| |]; try done.
  - apply wp_bind, wp_modify, wp_bind.
    eapply wp_mono.
    + apply (wp_for_each (fun _ _ => True)); [|done].
      intros b bs' w' _. apply wp_generate.
    + intros. apply wp_ret. by left.
    + tauto.
  - apply wp_throw. tauto.
Qed.

(** When an exception leaves [main], either [compile] threw it and
    nothing was written, or the loop over the backends threw it: the
    backends before the failing one have their outputs in [w1], the
    files as they are when the program ends. *)
Lemma main_throws writable prog slayoutFile shaderFile outputDir rest w e :
  main writable (prog :: slayoutFile :: shaderFile :: outputDir :: rest) w
  = Throw e ->
  compile (World.files w) (read_all w slayoutFile) = Throw e
  \/ exists interpreter written backend later w1,
       compile (World.files w) (read_all w slayoutFile) = Ok interpreter
       /\ set_order (Interpreter.get_required_backends interpreter)
          = written ++ backend :: later
       /\ for_each
            (generate writable shaderFile outputDir
               (Interpreter.get_macros interpreter))
            written (flush interpreter w) = Ok (tt, w1)
       /\ generate writable shaderFile outputDir
            (Interpreter.get_macros interpreter) backend w1 = Throw e.
Proof.
  unfold main, bind at 1, get.
  destruct (compile _ _) as [interpreter|e'| |]; try done;
    [|intros [= ->]; by left].
  unfold bind at 1, modify, bind at 1.
  destruct (for_each _ _ _) as [[[] w']|e'| |] eqn:Hloop; try done.
  intros [= ->]. right.
  apply for_each_throw in Hloop as (written & b & later & w1 & ? & ? & ?).
  by exists interpreter, written, b, later, w1.
Qed.

(** C15: [main] terminates without undefined behaviour for every
    command line, every file system and every set of writable paths:
    it returns or leaves by an exception. *)
Theorem main_total writable argv w :
  main writable argv w <> Undefined /\ main writable argv w <> OutOfFuel.
Proof.
  pose proof (wp_main writable argv w) as Hm.
  split; [by eapply wp_defined|by eapply wp_fuel].
Qed.

(** C9: what a successful run writes.  When the script compiles, the
    template exists and is none of the output files, and the output
    files can be written, [main] returns 0 after it has, for each
    requested backend in the order glsl, hlsl, msl, spirv, written the
    warnings of the expansion to [std::cerr], the expansion of the
    template to [<output_dir>/shader.<backend>] and a line to
    [std::cout]; every backend expands the same template. *)
Theorem main_reference writable prog slayoutFile shaderFile outputDir rest
    interpreter shaderCode w :
  compile (World.files w) (read_all w slayoutFile) = Ok interpreter ->
  World.files w !! shaderFile = Some shaderCode ->
  Forall (fun b => shaderFile <> output_path outputDir b
                   /\ writable (output_path outputDir b) = true)
    backend_order ->
  main writable (prog :: slayoutFile :: shaderFile :: outputDir :: rest) w =
  Ok (0%Z,
      foldl (emit outputDir (Interpreter.get_macros interpreter) shaderCode)
        (flush interpreter w)
        (filter (.∈ Interpreter.get_required_backends interpreter)
           backend_order)).
Proof.
  intros Hc Hin Hall. pose proof (compile_spec (World.files w)
                                    (read_all w slayoutFile)) as Hinv.
  rewrite Hc in Hinv. unfold main, bind at 1, get. rewrite Hc.
  unfold bind at 1 2, modify.
  rewrite set_order_backends by apply (Interpreter.inv_backends _ Hinv).
  rewrite (for_each_generate writable shaderFile outputDir _ shaderCode);
    [done..|].
  rewrite Forall_forall in Hall. apply Forall_forall.
  intros b [_ Hb]%list_elem_of_filter. by apply Hall.
Qed.

Lemma main_reference_witness :
  main (fun _ => true) ["slayoutc"; "l"; "s"; "o"]
    (World.mk {["l" := "SYSTEM -> generate_select(HLSL);"; "s" := "x"]}
       [] []) =
  Ok (0%Z,
      World.mk {["l" := "SYSTEM -> generate_select(HLSL);"; "s" := "x";
                 "o/shader.hlsl" := "x"]}
        ["Generated: o/shader.hlsl"] []).
Proof.
  rewrite (main_reference (fun _ => true) "slayoutc" "l" "s" "o" []
             (Interpreter.set_requiredBackends (fun _ => {["hlsl"]})
                Interpreter.new) "x").
  - vm_compute. reflexivity.
  - vm_compute. reflexivity.
  - reflexivity.
  - by repeat constructor.
Defined.

(** With fewer than three arguments [main] writes the usage line to
    [std::cerr], returns 1 and touches no file. *)
Lemma main_usage writable argv w :
  length argv < 4 ->
  main writable argv w = Ok (1%Z, add_warnings [usage] w).
Proof.
  intros Hlen.
  by destruct argv as [|? [|? [|? [|? ?]]]]; simpl in *; try lia.
Qed.

(** C25: a layout file that cannot be opened is read as the empty
    script: [main] reports nothing, writes nothing and returns 0. *)
Theorem main_missing_layout writable prog slayoutFile shaderFile outputDir
    rest w :
  World.files w !! slayoutFile = None ->
  main writable (prog :: slayoutFile :: shaderFile :: outputDir :: rest) w =
  Ok (0%Z, w).
Proof.
  intros Hnone. unfold main, bind at 1, get, read_all. rewrite Hnone.
  change (compile (World.files w) (default ""%string None))
    with (Ok (A:=Interpreter.t) Interpreter.new).
  unfold bind at 1, modify. by rewrite flush_new.
Qed.

Lemma main_missing_layout_witness :
  main (fun _ => true) ["slayoutc"; "l"; "s"; "o"]
    (World.mk {["s" := "x"]} [] []) =
  Ok (0%Z, World.mk {["s" := "x"]} [] []).
Proof. apply main_missing_layout. reflexivity. Defined.

(** C17: the template is opened once per requested backend, and not
    before: when the script compiles and the template cannot be
    opened, [main] throws "Failed to open shader file" if the script
    requested a backend, and returns 0 with the interpreter's output
    on the streams if it requested none. *)
Theorem main_missing_template writable prog slayoutFile shaderFile outputDir
    rest w interpreter :
  compile (World.files w) (read_all w slayoutFile) = Ok interpreter ->
  World.files w !! shaderFile = None ->
  main writable (prog :: slayoutFile :: shaderFile :: outputDir :: rest) w =
  if decide (Interpreter.get_required_backends interpreter = ∅)
  then Ok (0%Z, flush interpreter w)
  else Throw (runtime_error ("Failed to open shader file: " +:+ shaderFile)).
Proof.
  intros Hc Hnone. unfold main, bind at 1, get. rewrite Hc.
  unfold bind at 1, modify, bind at 1.
  pose proof (set_order_empty (Interpreter.get_required_backends interpreter))
    as Hempty.
  destruct (set_order _) as [|b bs]; case_decide; try done.
  - by destruct (proj1 Hempty).
  - by apply Hempty in H.
  - rewrite for_each_cons. unfold bind at 1. rewrite generate_spec.
    unfold flush. cbn [World.files]. by rewrite Hnone.
Qed.

Lemma main_missing_template_witness :
  main (fun _ => true) ["slayoutc"; "l"; "s"; "o"]
    (World.mk {["l" := foo_layout]} [] []) =
  Throw (runtime_error "Failed to open shader file: s").
Proof.
  rewrite (main_missing_template (fun _ => true) "slayoutc" "l" "s" "o" []
             (World.mk {["l" := foo_layout]} [] [])
             (Interpreter.mk
                {["FOO" := Macro.mk "FOO" true {["glsl" := "a"]} ""]} ∅
                {["glsl"; "hlsl"]} {["x" := "FOO"]} ∅ [] [])).
  - reflexivity.
  - vm_compute. reflexivity.
  - reflexivity.
Defined.

(** ** The scripts of the specification's test list *)

(** Two [macrodef]s of one macro name: the run fails. *)
Example duplicate_macro_name :
  compile ∅ ("macrodef X = Macro(" +:+ quoted "N" +:+ "); " +:+
             "macrodef Y = Macro(" +:+ quoted "N" +:+ ");")
  = Throw (runtime_error "Duplicate macro name: N").
Proof. vm_compute. reflexivity. Qed.

(** An [if] on an undeclared boolean is skipped. *)
Example if_undeclared_flag :
  Interpreter.bools <$> compile ∅ "if (flag) { boolean Z = TRUE; }" = Ok ∅.
Proof. vm_compute. reflexivity. Qed.

(** [generate_all] then [generate_select(GLSL)]: all four backends
    stay requested. *)
Example generate_all_then_select_source :
  Interpreter.get_required_backends
    <$> compile ∅ "SYSTEM -> generate_all(); SYSTEM -> generate_select(GLSL);"
  = Ok Interpreter.all_backends.
Proof. vm_compute. reflexivity. Qed.

(** [string] is not a reserved word: a string declaration is read as
    the start of a setter and fails at the variable's name. *)
Example string_declaration_rejected :
  compile ∅ ("string A = " +:+ quoted "x" +:+ ";")
  = Throw (runtime_error "Expected '.' at line 1").
Proof. vm_compute. reflexivity. Qed.

(** [read_glsl] stores the contents of the file, its final newline
    included; without the file the run fails. *)
Example read_glsl_file :
  Interpreter.get_macros <$>
    compile {["f.txt" := "b" +:+ String NL EmptyString]}
      ("macrodef x = Macro(" +:+ quoted "N" +:+ "); x.read_glsl(" +:+
       quoted "f.txt" +:+ ");")
  = Ok {["N" := Macro.mk "N" false
                  {["glsl" := "b" +:+ String NL EmptyString]} ""]}.
Proof. vm_compute. reflexivity. Qed.

Example read_glsl_missing_file :
  compile ∅ ("macrodef x = Macro(" +:+ quoted "N" +:+ "); x.read_glsl(" +:+
             quoted "f.txt" +:+ ");")
  = Throw (runtime_error "Failed to read file: f.txt").
Proof. vm_compute. reflexivity. Qed.

(** ** A whole run *)

(** The macro FOO with a GLSL value and [lazy()]: the GLSL output has
    the value, the HLSL output the macro's name. *)
Example main_round_trip :
  main (fun _ => true) ["slayoutc"; "l"; "s"; "o"]
    (World.mk {["l" := foo_layout; "s" := "c = %FOO;"]} [] []) =
  Ok (0%Z,
      World.mk {["l" := foo_layout; "s" := "c = %FOO;";
                 "o/shader.glsl" := "c = a;";
                 "o/shader.hlsl" := "c = FOO;"]}
        ["Generated: o/shader.glsl"; "Generated: o/shader.hlsl"] []).
Proof. vm_compute. reflexivity. Qed.

(** When the template is itself [<output_dir>/shader.glsl], the HLSL
    output is expanded from the GLSL output, not from the template. *)
Example main_template_overwritten :
  (fun w => World.files w !! "o/shader.hlsl"%string) <$>
    (exec (main (fun _ => true) ["slayoutc"; "l"; "o/shader.glsl"; "o"])
       (World.mk
          {["l" := "macrodef x = Macro(" +:+ quoted "FOO" +:+ "); " +:+
                   "x.set_glsl(" +:+ quoted "1" +:+ "); " +:+
                   "x.set_hlsl(" +:+ quoted "2" +:+ "); " +:+
                   "SYSTEM -> generate_select(GLSL, HLSL);";
            "o/shader.glsl" := "%FOO"]} [] []))
  = Ok (Some "1"%string).
Proof. vm_compute. reflexivity. Qed.
